(** * cogeotiff-core: a shallow embedding of the COG reader

    The development follows [src/cog.tiff.ts] (class [CogTiff]) and the
    image class [CogTiffImage] with its helper [getOffset].

    Conventions of the embedding.
    - TIFF tag values are typed by the file: values decoded from the integer
      data types (Short, Long, Long8, Byte, Undefined) are [Z], values
      decoded from Double are binary64 floats ([PrimFloat.float], the
      JavaScript [number]), Ascii values are strings.
    - A JavaScript [Map] is a [gmap]; arrays are lists, read with the list
      lookup [!!], where [None] stands for [undefined].
    - An [async] function is a computation in a state-and-exception monad;
      the state is what the function mutates (the image, or the log of the
      range requests sent to the [Source]).
    - Every [throw] of the source is a constructor of [Error]. *)

From Stdlib Require Import ZArith List Floats.
From Stdlib Require Ascii String.
From stdpp Require Import base option list gmap strings.

#[local] Set Warnings "-inexact-float".

Local Open Scope Z_scope.

(** ** Errors and results *)

Inductive Error : Type :=
  | NoGeoTransform          (* 'Image does not have a geo transformation.' *)
  | InvalidGeoTags          (* 'Invalid geo tags found' *)
  | FailedToExtractGeoTiffTags (* 'Failed to extract GeoTiffTags' *)
  | GeoTagsNotLoaded        (* 'loadGeoTiffTags() has not been called' *)
  | CannotFetch             (* 'Cannot fetch:' + tag *)
  | NoTileOffsets           (* 'No tile offsets found' *)
  | NoTileByteCounts        (* 'No tile byte counts found' *)
  | TiffIsTiled             (* 'Cannot read stripes, tiff is tiled: ' *)
  | StripOutOfBounds        (* 'Cannot read strip, index out of bounds' *)
  | NoJpegHeader            (* 'Unable to find Jpeg header' *)
  | UnsupportedCompression  (* 'Unsupported compression: ' *)
  | FailedToFetchBytes      (* 'Failed to fetch bytes from offset:' *)
  | TileOutsideRange        (* 'Tile index is outside of range x:' *)
  | TileIndexOutsideTileRange (* 'Tile index is outside of tile range: ' *)
  | TagIndexOutOfBounds     (* 'TagIndex: out of bounds ' *)
  | JsTypeError             (* property read on undefined *)
  | JsRangeError            (* typed array length or offset out of bounds,
                               call stack exhausted *)
  | ExternalError           (* raised by the Source or by a module that is
                               imported, not defined, by these files *)
  | IllTyped.               (* not a throw: a TypeScript [as] cast does not
                               hold, or a number is NaN or infinite where
                               the embedding needs an integer; the
                               embedding does not follow the run further *)

Inductive Result (A : Type) : Type :=
  | Ok (a : A)
  | Err (e : Error).
Arguments Ok {A} a.
Arguments Err {A} e.

#[global] Instance Error_eq_dec : EqDecision Error.
Proof. solve_decision. Defined.

(** ** The state-and-exception monad

    [M S A] is a computation that reads and writes a state [S] and either
    returns an [A] or throws; the state written before a throw is kept, as
    the fields of a JavaScript object are. *)

Definition M (S A : Type) : Type := S → Result A * S.

Definition ret {S A} (a : A) : M S A := λ s, (Ok a, s).
Definition throw {S A} (e : Error) : M S A := λ s, (Err e, s).
Definition bind {S A B} (c : M S A) (k : A → M S B) : M S B :=
  λ s, match c s with
       | (Ok a, s') => k a s'
       | (Err e, s') => (Err e, s')
       end.
Definition get {S} : M S S := λ s, (Ok s, s).
Definition modify {S} (f : S → S) : M S unit := λ s, (Ok tt, f s).
Definition lift {S A} (r : Result A) : M S A := λ s, (r, s).

(** The operations are registered with stdpp's monad classes, which gives
    the notations [x ← c; k] and ['(a, b) ← c; k]. *)
#[global] Instance M_ret {S} : MRet (M S) := λ A, ret.
#[global] Instance M_bind {S} : MBind (M S) := λ A B k c, bind c k.
#[global] Instance Result_ret : MRet Result := λ A, Ok.
#[global] Instance Result_bind : MBind Result :=
  λ A B k r, match r with Ok a => k a | Err e => Err e end.
#[global] Instance Result_fmap : FMap Result :=
  λ A B f r, match r with Ok a => Ok (f a) | Err e => Err e end.

(** ** Numbers

    [number_of_Z] is the JavaScript number that holds an integer (exact up to
    2^53, rounded to nearest beyond). [to_number] is JavaScript's ToNumber on
    a number that may be [undefined]. *)

Definition number_of_Z (z : Z) : float :=
  SF2Prim (binary_normalize prec emax z 0 false).

Definition to_number (x : option float) : float :=
  match x with Some f => f | None => nan end.

(** ** Tags *)

(** Modelled from the spec: the tag ids of [const/tiff.tag.id.ts], which is
    not among the sources. They are the TIFF 6.0 and GeoTIFF numbers; the
    spec quotes 34737 for GeoAsciiParams and 1026 for GTCitationGeoKey. *)
Module TiffTag.
Definition NewSubFileType : Z := 254.
Definition ImageWidth : Z := 256.
Definition ImageHeight : Z := 257.
Definition Compression : Z := 259.
Definition StripOffsets : Z := 273.
Definition StripByteCounts : Z := 279.
Definition TileWidth : Z := 322.
Definition TileHeight : Z := 323.
Definition TileOffsets : Z := 324.
Definition TileByteCounts : Z := 325.
Definition JPEGTables : Z := 347.
Definition ModelPixelScale : Z := 33550.
Definition ModelTiePoint : Z := 33922.
Definition ModelTransformation : Z := 34264.
Definition GeoKeyDirectory : Z := 34735.
Definition GeoDoubleParams : Z := 34736.
Definition GeoAsciiParams : Z := 34737.
End TiffTag.

(** Modelled from the spec: the GeoKey id the spec quotes from
    [const/tiff.tag.id.ts]. *)
Module TiffTagGeo.
Definition GTCitationGeoKey : Z := 1026.
End TiffTagGeo.

(** Modelled from the spec: the enumeration [TiffMimeType] of
    [const/tiff.mime.ts], which is not among the sources, with the
    compressions the spec names. *)
Module TiffMimeType.
Inductive t : Type := None_ | Jpeg | Webp | Lzw | Deflate.
#[global] Instance eq_dec : EqDecision t.
Proof. solve_decision. Defined.
End TiffMimeType.
Abbreviation TiffMimeType := TiffMimeType.t.

(** A decoded tag value: a number or an array of numbers of an integer data
    type, an array of doubles, or a string. *)
Inductive TagValue : Type :=
  | VNumber (n : Z)
  | VNumbers (l : list Z)
  | VDoubles (l : list float)
  | VString (s : string).

(** Modelled from the spec: the union [Tag] of [read/tiff.tag.ts] (spec 3 and
    9), with the fields these files read: [type] (the constructor), [id],
    [count], [value] and, on an offset tag, [isLoaded]. *)
Inductive Tag : Type :=
  | TagInline (id count : Z) (value : TagValue)
  | TagOffset (id count : Z) (value : list Z) (isLoaded : bool)
  | TagLazy (id count : Z) (value : option TagValue).

Definition tag_id (t : Tag) : Z :=
  match t with TagInline i _ _ | TagOffset i _ _ _ | TagLazy i _ _ => i end.
Definition tag_count (t : Tag) : Z :=
  match t with TagInline _ c _ | TagOffset _ c _ _ | TagLazy _ c _ => c end.
(** [t.value]; [None] is [null]. *)
Definition tag_value (t : Tag) : option TagValue :=
  match t with
  | TagInline _ _ v => Some v
  | TagOffset _ _ l _ => Some (VNumbers l)
  | TagLazy _ _ v => v
  end.

(** ** Reader and images *)

(** A value of the map [tagsGeo]: [string | number], or the [undefined] that
    [set] stores when the directory ends inside a key. *)
Inductive GeoValue : Type :=
  | GeoNumber (n : Z)
  | GeoString (s : string)
  | GeoUndefined.

#[global] Instance GeoValue_eq_dec : EqDecision GeoValue.
Proof. solve_decision. Defined.

Record CogTiffImage : Type := {
  tags : gmap Z Tag;
  id : Z;
  isGeoTagsLoaded : bool;
  tagsGeo : gmap Z GeoValue;
}.

(** The [Source]: [fetch(offset, length)] answers with bytes, or rejects
    ([None]). *)
Record Source : Type := { fetch : Z → Z → option (list Z) }.

(** Modelled from the spec: the ghost options of [read/tiff.gdal.ts], of
    which these files read [tileLeaderByteSize]. *)
Record CogTifGhostOptions : Type := { tileLeaderByteSize : option Z }.

(** The image's back-reference [tiff] is passed to each operation. *)
Record CogTiff : Type := {
  source : Source;
  images : list CogTiffImage;
  options : option CogTifGhostOptions;
  isLittleEndian : bool;
}.

(** What the files import from modules that are not among the sources: the
    table [TiffCompression] of [const/tiff.mime.ts], [getValueAt], [fetchLazy]
    and [fetchAllOffsets] of [read/tiff.tag.factory.ts], and [getUint] of
    [util/bytes.ts]. Their errors are theirs: none of them throws an error of
    these files. *)
Class Imports : Type := {
  TiffCompression : Z → option TiffMimeType;
  getValueAt : CogTiff → Tag → Z → option Z;
  getUint : list Z → Z → Z → bool → option Z;
  fetchLazy : Tag → CogTiff → option TagValue;
  fetchAllOffsets : CogTiff → Tag → option (list Z);
}.

(** An imported call: [None] is a rejection inside the imported module. *)
Definition imported {A} (r : option A) : Result A :=
  match r with Some a => Ok a | None => Err ExternalError end.

(** ** Accessors of [CogTiffImage] *)

(** [value(tag)]: the value if it has been loaded, [null] otherwise. *)
Definition value (img : CogTiffImage) (tag : Z) : option TagValue :=
  match tags img !! tag with
  | None => None
  | Some sourceTag =>
      match sourceTag with
      | TagOffset _ _ _ false => None
      | _ => tag_value sourceTag
      end
  end.

(** [size] and [tileSize]: the two values as [value] returns them; the cast
    [as number] is checked where the number is used ([as_int], [as_float]). *)
Record Size : Type := { width : option TagValue; height : option TagValue }.

Definition size (img : CogTiffImage) : Size :=
  {| width := value img TiffTag.ImageWidth;
     height := value img TiffTag.ImageHeight |}.

Definition tileSize (img : CogTiffImage) : Size :=
  {| width := value img TiffTag.TileWidth;
     height := value img TiffTag.TileHeight |}.

Definition as_int (v : option TagValue) : Result Z :=
  match v with Some (VNumber n) => Ok n | _ => Err IllTyped end.

Definition as_float (v : option TagValue) : Result float :=
  n ← as_int v; Ok (number_of_Z n).

Definition isTiled (img : CogTiffImage) : bool :=
  bool_decide (value img TiffTag.TileWidth ≠ None).

(** [this.value(TiffTag.NewSubFileType) === 1 && this.id !== 0] *)
Definition isSubImage (img : CogTiffImage) : bool :=
  match value img TiffTag.NewSubFileType with
  | Some (VNumber 1) => bool_decide (id img ≠ 0)
  | _ => false
  end.

Definition Vec3 : Type := option float * option float * option float.

(** The first two branches of the getter [resolution]: from ModelPixelScale,
    else from ModelTransformation. *)
Definition resolutionOwn (img : CogTiffImage) : option (Result Vec3) :=
  match value img TiffTag.ModelPixelScale with
  | Some (VDoubles s) =>
      Some (Ok (s !! 0%nat, Some (- to_number (s !! 1%nat))%float, s !! 2%nat))
  | Some _ => Some (Err IllTyped)
  | None =>
      match value img TiffTag.ModelTransformation with
      | Some (VDoubles t) => Some (Ok (t !! 0%nat, t !! 5%nat, t !! 10%nat))
      | Some _ => Some (Err IllTyped)
      | None => None
      end
  end.

(** The getter [resolution]. A sub image without a transformation of its own
    asks [images[0]]; when [images[0]] is itself such a sub image the getter
    calls itself without end, which JavaScript ends with a RangeError. *)
Definition resolution (tiff : CogTiff) (img : CogTiffImage) : Result Vec3 :=
  match resolutionOwn img with
  | Some r => r
  | None =>
      if isSubImage img then
        match images tiff !! 0%nat with
        | None => Err JsTypeError
        | Some firstImg =>
            '(resX, resY, resZ) ←
              match resolutionOwn firstImg with
              | Some r => r
              | None => if isSubImage firstImg then Err JsRangeError
                        else Err NoGeoTransform
              end;
            fw ← as_float (width (size firstImg));
            iw ← as_float (width (size img));
            fh ← as_float (height (size firstImg));
            ih ← as_float (height (size img));
            Ok (Some ((to_number resX * fw) / iw)%float,
                Some ((to_number resY * fh) / ih)%float,
                resZ)
        end
      else Err NoGeoTransform
  end.

(** ** [CogTiff.getImageByResolution] *)

(** [resolutionBaseX / imgSize.width] *)
Definition imgResolutionX (resolutionBaseX : float) (img : CogTiffImage)
  : Result float :=
  w ← as_float (width (size img)); Ok (resolutionBaseX / w)%float.

(** The test of the loop, [imgResolutionX - resolution <= 0.01]. *)
Definition closeEnough (x resolution : float) : bool :=
  (x - resolution <=? 0.01)%float.
#[global] Arguments closeEnough : simpl never.

(** [for (let i = this.images.length - 1; i > 0; i--)]: [scanImages imgs b r i]
    runs the loop from index [i] down to 1 and answers with the position and
    the image returned inside the loop, or [None] when the loop ends. *)
Fixpoint scanImages (imgs : list CogTiffImage) (resolutionBaseX resolution : float)
    (i : nat) : Result (option (nat * CogTiffImage)) :=
  match i with
  | O => Ok None
  | S j =>
      match imgs !! i with
      | None => Err JsTypeError
      | Some img =>
          x ← imgResolutionX resolutionBaseX img;
          if closeEnough x resolution then Ok (Some (i, img))
          else scanImages imgs resolutionBaseX resolution j
      end
  end.

(** [resolutionBaseX]: the x resolution of the base image times its width. *)
Definition resolutionBaseX (tiff : CogTiff) (firstImage : CogTiffImage)
  : Result float :=
  let firstImageSize := size firstImage in
  '(refX, _, _) ← resolution tiff firstImage;
  fw ← as_float (width firstImageSize);
  Ok (to_number refX * fw)%float.

(** The image returned is given with its position in [images]. *)
Definition getImageByResolution (tiff : CogTiff) (resolution_ : float)
  : Result (nat * CogTiffImage) :=
  match images tiff !! 0%nat with
  | None => Err JsTypeError
  | Some firstImage =>
      resolutionBaseX ← resolutionBaseX tiff firstImage;
      found ← scanImages (images tiff) resolutionBaseX resolution_
                (length (images tiff) - 1);
      match found with
      | Some r => Ok r
      | None => Ok (0%nat, firstImage)
      end
  end.

(** [getResolutions()] *)
Fixpoint resolutionsOf (tiff : CogTiff) (imgs : list CogTiffImage)
  : Result (list Vec3) :=
  match imgs with
  | [] => Ok []
  | img :: imgs' =>
      r ← resolution tiff img; rs ← resolutionsOf tiff imgs'; Ok (r :: rs)
  end.

Definition getResolutions (tiff : CogTiff) : Result (list Vec3) :=
  resolutionsOf tiff (images tiff).

(** ** Arrays and byte buffers *)

(** The relative index of [Array.prototype.slice] and [String.prototype.slice]:
    a negative index counts from the end, and the result is clamped to
    [0, len]. *)
Definition relativeIndex (i len : Z) : Z :=
  if i <? 0 then Z.max (len + i) 0 else Z.min i len.

(** [l.slice(start, end)] *)
Definition slice {A} (l : list A) (start end_ : Z) : list A :=
  let len := Z.of_nat (length l) in
  let from := relativeIndex start len in
  let to := relativeIndex end_ len in
  take (Z.to_nat (to - from)) (drop (Z.to_nat from) l).

(** The conversion of a number to an element of a [Uint8Array]. *)
Definition toUint8 (n : Z) : Z := n mod 256.

(** [new Uint8Array(n)]: a negative length is a RangeError. *)
Definition newUint8Array (n : Z) : Result (list Z) :=
  if n <? 0 then Err JsRangeError else Ok (replicate (Z.to_nat n) 0).

(** [dst.set(src, offset)]: a source that does not fit is a RangeError. *)
Definition typedArraySet (dst src : list Z) (offset : Z) : Result (list Z) :=
  if Z.of_nat (length dst) <? offset + Z.of_nat (length src) then Err JsRangeError
  else Ok (take (Z.to_nat offset) dst ++ src
           ++ drop (Z.to_nat offset + length src) dst).

(** [Math.ceil(a / b)] on integers. The quotient of two integers below 2^52
    is rounded by the division to a number with the same ceiling; a zero
    divisor gives an infinity or NaN, which an integer does not hold. *)
Definition ceilDiv (a b : Z) : Result Z :=
  if b =? 0 then Err IllTyped else Ok (- ((- a) / b)).

(** ** Tiles and strips *)

(** The getter [compression]. *)
Definition compression `{Imports} (img : CogTiffImage) : option TiffMimeType :=
  match value img TiffTag.Compression with
  | Some (VNumber c) => TiffCompression c
  | _ => None
  end.

(** The getter [tileCount], as the pair [(x, y)]. *)
Definition tileCount (img : CogTiffImage) : Result (Z * Z) :=
  let size := size img in
  let tileSize := tileSize img in
  w ← as_int (width size); tw ← as_int (width tileSize);
  x ← ceilDiv w tw;
  h ← as_int (height size); th ← as_int (height tileSize);
  y ← ceilDiv h th;
  Ok (x, y).

(** The getter [tileOffset]. *)
Definition tileOffset (img : CogTiffImage) : Result Tag :=
  match tags img !! TiffTag.TileOffsets with
  | None => Err NoTileOffsets
  | Some tileOffset => Ok tileOffset
  end.

(** The getter [stripCount]. *)
Definition stripCount (img : CogTiffImage) : Z :=
  match tags img !! TiffTag.StripByteCounts with
  | None => 0
  | Some tileOffset => tag_count tileOffset
  end.

Record BoundingBox : Type := { bx : Z; by_ : Z; bwidth : Z; bheight : Z }.

Definition getTileBounds (img : CogTiffImage) (x y : Z) : Result BoundingBox :=
  let size := size img in
  let tileSize := tileSize img in
  th ← as_int (height tileSize);
  let top := y * th in
  tw ← as_int (width tileSize);
  let left := x * tw in
  w ← as_int (width size);
  let width_ := if w <=? left + tw then w - left else tw in
  h ← as_int (height size);
  let height_ := if h <=? top + th then h - top else th in
  Ok {| bx := left; by_ := top; bwidth := width_; bheight := height_ |}.

(** [getOffset(tiff, x, index)] returns [number | Promise<number>]: the outer
    result is what the call itself does (it throws out of bounds), the inner
    one what awaiting the answer gives. An element read past the end of an
    inline array is [undefined] ([None]). *)
Definition getOffset `{Imports} (tiff : CogTiff) (x : Tag) (index : Z)
  : Result (Result (option Z)) :=
  if bool_decide (index > tag_count x ∨ index < 0) then Err TagIndexOutOfBounds
  else
    match x with
    | TagInline _ count v =>
        if count >? 1 then
          match v with
          | VNumbers l => Ok (Ok (l !! Z.to_nat index))
          | _ => Err IllTyped
          end
        else
          match v with
          | VNumber n => Ok (Ok (Some n))
          | _ => Err IllTyped
          end
    | _ => Ok (Some <$> imported (getValueAt tiff x index))
    end.

(** The log of the range requests sent to the [Source], by the place that
    sends them: the tile leader read of [getTileSize] or the body read of
    [getBytes]. Requests sent inside the imported tag reader ([getValueAt],
    which loads the offset arrays) are its own: the log does not hold them,
    and a statement about the log is about leader reads and body reads
    only. *)
Inductive FetchSite : Type := TileLeader | ImageBytes.

#[global] Instance FetchSite_eq_dec : EqDecision FetchSite.
Proof. solve_decision. Defined.

Record FetchRequest : Type := {
  site : FetchSite;
  fetchOffset : Z;
  fetchLength : Z;
}.

Abbreviation FetchLog := (list FetchRequest).

(** [await this.tiff.source.fetch(offset, length)] *)
Definition sourceFetch (tiff : CogTiff) (st : FetchSite) (offset length_ : Z)
  : M FetchLog (list Z) :=
  λ log, (imported (fetch (source tiff) offset length_),
          log ++ [{| site := st; fetchOffset := offset; fetchLength := length_ |}]).

(** [await Promise.all([a, b])]: both calls are made, then both answers are
    awaited. *)
Definition promiseAll2 {S A B} (a : Result (Result A)) (b : Result (Result B))
  : M S (A * B) :=
  pa ← lift a; pb ← lift b;
  va ← lift pa; vb ← lift pb;
  mret (va, vb).

Record TileSizeInfo : Type := { offset : option Z; imageSize : option Z }.

(** [if (leaderBytes)]: the leader size when it is set and not zero. *)
Definition truthy (x : option Z) : option Z :=
  match x with
  | Some n => if bool_decide (n = 0) then None else Some n
  | None => None
  end.

(** [getTileSize(index)] *)
Definition getTileSize `{Imports} (tiff : CogTiff) (img : CogTiffImage) (index : Z)
  : M FetchLog TileSizeInfo :=
  let leaderBytes := options tiff ≫= tileLeaderByteSize in
  match truthy leaderBytes with
  | Some leaderBytes =>
      tileOffset_ ← lift (tileOffset img);
      p ← lift (getOffset tiff tileOffset_ index);
      offset_ ← lift p;
      match offset_ with
      | Some 0 => mret {| offset := Some 0; imageSize := Some 0 |}
      | Some o =>
          bytes ← sourceFetch tiff TileLeader (o - leaderBytes) leaderBytes;
          sz ← lift (imported (getUint bytes 0 leaderBytes (isLittleEndian tiff)));
          mret {| offset := Some o; imageSize := Some sz |}
      | None => throw IllTyped
      end
  | None =>
      match tags img !! TiffTag.TileByteCounts with
      | None => throw NoTileByteCounts
      | Some byteCounts =>
          '(offset_, imageSize_) ←
            promiseAll2 (tileOffset_ ← tileOffset img; getOffset tiff tileOffset_ index)
                        (getOffset tiff byteCounts index);
          mret {| offset := offset_; imageSize := imageSize_ |}
      end
  end.

(** [getJpegHeader(bytes)]: the JPEG tables without their last two bytes,
    then the bytes without their first two. *)
Definition getJpegHeader (img : CogTiffImage) (bytes : list Z) : Result (list Z) :=
  match value img TiffTag.JPEGTables with
  | None => Err NoJpegHeader
  | Some (VNumbers tables) =>
      let tableData := slice tables 0 (Z.of_nat (length tables) - 2) in
      actualBytes ← newUint8Array
        (Z.of_nat (length bytes) + Z.of_nat (length tableData) - 2);
      actualBytes ← typedArraySet actualBytes (toUint8 <$> tableData) 0;
      actualBytes ← typedArraySet actualBytes
        (slice bytes 2 (Z.of_nat (length bytes))) (Z.of_nat (length tableData));
      Ok actualBytes
  | Some _ => Err IllTyped
  end.

(** What [getBytes], [getTile] and [getStrip] resolve to; [None] is [null]. *)
Abbreviation ImageData := (option (TiffMimeType * list Z)).

(** [getBytes(offset, byteCount)] *)
Definition getBytes `{Imports} (tiff : CogTiff) (img : CogTiffImage)
    (offset byteCount : option Z) : M FetchLog ImageData :=
  match compression img with
  | None => throw UnsupportedCompression
  | Some mimeType =>
      match byteCount with
      | Some 0 => mret None
      | Some byteCount_ =>
          offset_ ← lift (match offset with Some o => Ok o | None => Err IllTyped end);
          bytes ← sourceFetch tiff ImageBytes offset_ byteCount_;
          if Z.of_nat (length bytes) <? byteCount_ then throw FailedToFetchBytes
          else if bool_decide (compression img = Some TiffMimeType.Jpeg) then
            b ← lift (getJpegHeader img bytes); mret (Some (mimeType, b))
          else mret (Some (mimeType, bytes))
      | None => throw IllTyped
      end
  end.

(** [getTile(x, y)]. The test [tiles == null] of the source never holds:
    [tileSize] is always an object. *)
Definition getTile `{Imports} (tiff : CogTiff) (img : CogTiffImage) (x y : Z)
  : M FetchLog ImageData :=
  let mimeType := compression img in
  let size := size img in
  let tiles := tileSize img in
  match mimeType with
  | None => throw UnsupportedCompression
  | Some _ =>
      nyTiles ← lift (h ← as_int (height size); th ← as_int (height tiles); ceilDiv h th);
      nxTiles ← lift (w ← as_int (width size); tw ← as_int (width tiles); ceilDiv w tw);
      if bool_decide (x >= nxTiles ∨ y >= nyTiles) then throw TileOutsideRange
      else
        let idx := y * nxTiles + x in
        let totalTiles := nxTiles * nyTiles in
        if bool_decide (idx >= totalTiles) then throw TileIndexOutsideTileRange
        else
          ts ← getTileSize tiff img idx;
          getBytes tiff img (offset ts) (imageSize ts)
  end.

(** [hasTile(x, y)]; [ret.offset > 0] is false on [undefined]. *)
Definition hasTile `{Imports} (tiff : CogTiff) (img : CogTiffImage) (x y : Z)
  : M FetchLog bool :=
  let tiles := tileSize img in
  let size := size img in
  nyTiles ← lift (h ← as_int (height size); th ← as_int (height tiles); ceilDiv h th);
  nxTiles ← lift (w ← as_int (width size); tw ← as_int (width tiles); ceilDiv w tw);
  if bool_decide (x >= nxTiles ∨ y >= nyTiles) then mret false
  else
    let idx := y * nxTiles + x in
    ret_ ← getTileSize tiff img idx;
    mret (match offset ret_ with Some o => bool_decide (o > 0) | None => false end).

(** [getStrip(index)]. The names [byteCount] and [offset] are those of the
    source: the first holds the element of StripOffsets, the second the
    element of StripByteCounts. *)
Definition getStrip `{Imports} (tiff : CogTiff) (img : CogTiffImage) (index : Z)
  : M FetchLog ImageData :=
  if isTiled img then throw TiffIsTiled
  else
    let byteCounts := tags img !! TiffTag.StripByteCounts in
    let offsets := tags img !! TiffTag.StripOffsets in
    match byteCounts with
    | None => throw JsTypeError
    | Some byteCounts =>
        if bool_decide (index >= tag_count byteCounts) then throw StripOutOfBounds
        else
          '(byteCount, offset) ←
            promiseAll2
              (match offsets with
               | None => Err JsTypeError
               | Some offsets => getOffset tiff offsets index
               end)
              (getOffset tiff byteCounts index);
          getBytes tiff img byteCount offset
    end.

(** ** GeoKeys *)

(** White space of [String.prototype.trim] among the code units below 256. *)
Definition isWhiteSpace (c : Ascii.ascii) : bool :=
  let n := Ascii.nat_of_ascii c in
  bool_decide ((9 ≤ n ∧ n ≤ 13) ∨ n = 32 ∨ n = 160)%nat.

Fixpoint trimStart (l : list Ascii.ascii) : list Ascii.ascii :=
  match l with
  | c :: l' => if isWhiteSpace c then trimStart l' else l
  | [] => []
  end.

Definition trimEnd (l : list Ascii.ascii) : list Ascii.ascii :=
  reverse (trimStart (reverse l)).

(** [s.slice(start, end).trim()] *)
Definition sliceTrim (s : string) (start end_ : Z) : string :=
  String.string_of_list_ascii
    (trimEnd (trimStart (slice (String.list_ascii_of_string s) start end_))).

Definition setTags (f : gmap Z Tag → gmap Z Tag) (img : CogTiffImage) : CogTiffImage :=
  {| tags := f (tags img); id := id img;
     isGeoTagsLoaded := isGeoTagsLoaded img; tagsGeo := tagsGeo img |}.

Definition setGeoTagsLoaded (img : CogTiffImage) : CogTiffImage :=
  {| tags := tags img; id := id img;
     isGeoTagsLoaded := true; tagsGeo := tagsGeo img |}.

(** [this.tagsGeo.set(key, v)] *)
Definition setTagGeo (key : Z) (v : GeoValue) (img : CogTiffImage) : CogTiffImage :=
  {| tags := tags img; id := id img;
     isGeoTagsLoaded := isGeoTagsLoaded img; tagsGeo := <[key := v]> (tagsGeo img) |}.

(** [fetch(tag)]. The value comes from the imported [fetchLazy] or
    [fetchAllOffsets]; that the tag holds it afterwards, and that an offset
    tag is then loaded, is what the spec says of them (4.F). *)
Definition fetchTag `{Imports} (tiff : CogTiff) (tag : Z)
  : M CogTiffImage (option TagValue) :=
  img ← get;
  match tags img !! tag with
  | None => mret None
  | Some sourceTag =>
      match sourceTag with
      | TagInline _ _ v => mret (Some v)
      | TagLazy i c _ =>
          v ← lift (imported (fetchLazy sourceTag tiff));
          modify (setTags <[tag := TagLazy i c (Some v)]>);;
          mret (Some v)
      | TagOffset i c l true => mret (Some (VNumbers l))
      | TagOffset i c _ false =>
          l ← lift (imported (fetchAllOffsets tiff sourceTag));
          modify (setTags <[tag := TagOffset i c l true]>);;
          mret (Some (VNumbers l))
      end
  end.

(** [await Promise.all([a, b, ...])] on started [async] calls: each one runs,
    and the first rejection, if any, is the outcome. *)
Definition andAlso {S A B} (a : M S A) (b : M S B) : M S unit :=
  λ s, match a s with
       | (ra, s1) =>
           match b s1 with
           | (rb, s2) =>
               (match ra, rb with
                | Ok _, Ok _ => Ok tt
                | Err e, _ => Err e
                | Ok _, Err e => Err e
                end, s2)
           end
       end.

(** [for (... of l) body] with [throw] leaving the loop. *)
Fixpoint forEach {S A} (l : list A) (body : A → M S unit) : M S unit :=
  match l with
  | [] => mret tt
  | a :: l' => body a;; forEach l' body
  end.

(** The body of the loop of [loadGeoTiffTags] at index [i]; [geoTags !! j] is
    [geoTags[j]], with [None] for [undefined]. *)
Definition geoKeyStep (geoTags : list Z) (i : nat) : M CogTiffImage unit :=
  let key := geoTags !! i in
  let locationTagId := geoTags !! (i + 1)%nat in
  let offset := geoTags !! (i + 3)%nat in
  match locationTagId, key with
  | Some 0, Some key =>
      modify (setTagGeo key (from_option GeoNumber GeoUndefined offset))
  | Some locationTagId, Some key =>
      img ← get;
      match tags img !! locationTagId ≫= tag_value with
      | None => mret tt
      | Some v =>
          let count := geoTags !! (i + 2)%nat in
          match v with
          | VString s =>
              let start := default 0 offset in
              let end_ := default 0 (o ← offset; c ← count; Some (o + c - 1)) in
              modify (setTagGeo key (GeoString (sliceTrim s start end_)))
          | _ => throw FailedToExtractGeoTiffTags
          end
      end
  | _, _ => mret tt
  end.

(** The indices [4, 8, ..., geoTags[3] * 4] of the loop. *)
Definition geoKeyIndices (geoTags : list Z) : list nat :=
  (λ k, 4 * k)%nat <$> seq 1 (Z.to_nat (default 0 (geoTags !! 3%nat))).

(** [loadGeoTiffTags()] *)
Definition loadGeoTiffTags `{Imports} (tiff : CogTiff) : M CogTiffImage unit :=
  img ← get;
  if isGeoTagsLoaded img then mret tt
  else
    match tags img !! TiffTag.GeoKeyDirectory with
    | None => modify setGeoTagsLoaded
    | Some sourceTag =>
        match sourceTag with
        | TagLazy _ _ None =>
            andAlso (fetchTag tiff TiffTag.GeoKeyDirectory)
              (andAlso (fetchTag tiff TiffTag.GeoAsciiParams)
                       (fetchTag tiff TiffTag.GeoDoubleParams))
        | _ => mret tt
        end;;
        modify setGeoTagsLoaded;;
        img ← get;
        match tags img !! TiffTag.GeoKeyDirectory ≫= tag_value with
        | None => mret tt
        | Some (VNumber _) => throw InvalidGeoTags
        | Some (VNumbers geoTags) => forEach (geoKeyIndices geoTags) (geoKeyStep geoTags)
        | Some _ => throw IllTyped
        end
    end.

(** [valueGeo(tag)]; [None] is [undefined]. *)
Definition valueGeo (img : CogTiffImage) (tag : Z) : Result (option GeoValue) :=
  if isGeoTagsLoaded img then Ok (tagsGeo img !! tag) else Err GeoTagsNotLoaded.

(** * Vocabulary of the statements *)

(** The rule of [getImageByResolution], written from the words of the spec
    and not from the loop.

    The x resolution of an image of [width] pixels in the units of the base
    image, which has the x resolution [baseResolution] and [baseWidth]
    pixels: both images cover the same ground, so a pixel of the image is
    [baseWidth / width] pixels of the base image wide. *)
Definition xResolutionInBaseUnits (baseResolution : float) (baseWidth width : Z)
  : float :=
  (baseResolution * number_of_Z baseWidth / number_of_Z width)%float.

(** "x-resolution at most r + 0.01", as the spec writes the bound. *)
Definition atMostPlusTolerance (x r : float) : bool := (x <=? r + 0.01)%float.

(** The bound with the tolerance on the difference: "x-resolution minus r at
    most 0.01". In binary64 arithmetic the two bounds are not the same. *)
Definition withinTolerance (x r : float) : bool := (x - r <=? 0.01)%float.

(** The ImageWidth tags of the images hold the numbers [widths]. *)
Definition haveWidths (imgs : list CogTiffImage) (widths : list Z) : Prop :=
  Forall2 (λ img w, value img TiffTag.ImageWidth = Some (VNumber w)) imgs widths.

(** A tiled image of [w] by [h] pixels with tiles of [tw] by [th] pixels: the
    four tags hold numbers, unsigned as TIFF stores them, and a tile is not
    empty. *)
Definition tiledImage (img : CogTiffImage) (w h tw th : Z) : Prop :=
  value img TiffTag.ImageWidth = Some (VNumber w) ∧
  value img TiffTag.ImageHeight = Some (VNumber h) ∧
  value img TiffTag.TileWidth = Some (VNumber tw) ∧
  value img TiffTag.TileHeight = Some (VNumber th) ∧
  0 ≤ w ∧ 0 ≤ h ∧ 0 < tw ∧ 0 < th.

(** The ceiling of [a / b], as [ceilDiv] computes it. *)
Definition ceiling (a b : Z) : Z := - ((- a) / b).

(** [(x, y)] names a tile of a grid of [nx] by [ny] tiles. *)
Definition inRange (nx ny x y : Z) : Prop := 0 ≤ x < nx ∧ 0 ≤ y < ny.

(** * Example inputs *)

(** A tag stored inline. *)
Definition inlineNumber (tag n : Z) : Tag := TagInline tag 1 (VNumber n).

(** A source that answers every request with as many zero bytes as asked
    for. *)
Definition zeroSource : Source :=
  {| fetch := λ _ n, Some (replicate (Z.to_nat n) 0) |}.

(** An image of the pyramid: a square of side [w]; the base image carries the
    pixel scale (1, 1, 0), an overview is a sub image without a scale. *)
Definition pyramidImage (i w : Z) : CogTiffImage :=
  {| tags :=
       <[TiffTag.ImageWidth := inlineNumber TiffTag.ImageWidth w]>
       (<[TiffTag.ImageHeight := inlineNumber TiffTag.ImageHeight w]>
       (if bool_decide (i = 0)
        then {[TiffTag.ModelPixelScale :=
                 TagInline TiffTag.ModelPixelScale 3 (VDoubles [1; 1; 0]%float)]}
        else {[TiffTag.NewSubFileType := inlineNumber TiffTag.NewSubFileType 1]}));
     id := i; isGeoTagsLoaded := true; tagsGeo := ∅ |}.

(** Four images with x resolutions 1, 2, 4 and 8. *)
Definition pyramid : CogTiff :=
  {| source := zeroSource;
     images := [pyramidImage 0 1024; pyramidImage 1 512;
                pyramidImage 2 256; pyramidImage 3 128];
     options := None; isLittleEndian := true |}.

(** A reader whose only image has no geo transformation. *)
Definition plainTiff : CogTiff :=
  {| source := zeroSource;
     images := [{| tags := {[TiffTag.ImageWidth := inlineNumber TiffTag.ImageWidth 256;
                             TiffTag.ImageHeight := inlineNumber TiffTag.ImageHeight 256]};
                   id := 0; isGeoTagsLoaded := true; tagsGeo := ∅ |}];
     options := None; isLittleEndian := true |}.

(** The imports of the examples: Compression 5 is LZW and 7 is JPEG; the tag
    reader and the byte reader are not called on inline tags and are left
    without an answer. *)
Definition exampleImports : Imports :=
  {| TiffCompression := λ c,
       if bool_decide (c = 5) then Some TiffMimeType.Lzw
       else if bool_decide (c = 7) then Some TiffMimeType.Jpeg
       else None;
     getValueAt := λ _ _ _, None;
     getUint := λ _ _ _ _, None;
     fetchLazy := λ _ _, None;
     fetchAllOffsets := λ _ _, None |}.

(** An array tag stored inline. *)
Definition inlineNumbers (tag : Z) (l : list Z) : Tag :=
  TagInline tag (Z.of_nat (length l)) (VNumbers l).

(** A tiled image with all its tags inline. *)
Definition tiledExample (w h tw th compression_ : Z) (offsets byteCounts : list Z)
  : CogTiffImage :=
  {| tags :=
       <[TiffTag.ImageWidth := inlineNumber TiffTag.ImageWidth w]>
       (<[TiffTag.ImageHeight := inlineNumber TiffTag.ImageHeight h]>
       (<[TiffTag.TileWidth := inlineNumber TiffTag.TileWidth tw]>
       (<[TiffTag.TileHeight := inlineNumber TiffTag.TileHeight th]>
       (<[TiffTag.Compression := inlineNumber TiffTag.Compression compression_]>
       (<[TiffTag.TileOffsets := inlineNumbers TiffTag.TileOffsets offsets]>
       (<[TiffTag.TileByteCounts := inlineNumbers TiffTag.TileByteCounts byteCounts]>
        ∅))))));
     id := 0; isGeoTagsLoaded := true; tagsGeo := ∅ |}.

(** 512 by 512 pixels in four LZW tiles of 256 by 256; the tiles 1 and 3 are
    recorded at offset 0, tile 3 with a byte count of 5. *)
Definition squareImage : CogTiffImage :=
  tiledExample 512 512 256 256 5 [1000; 0; 3000; 0] [10; 0; 30; 5].

(** 300 by 600 pixels in tiles of 256 by 256: two columns, three rows. *)
Definition raggedImage : CogTiffImage :=
  tiledExample 300 600 256 256 5
    [1000; 2000; 3000; 4000; 5000; 6000] [10; 20; 30; 40; 50; 60].

Definition readerOf (img : CogTiffImage) : CogTiff :=
  {| source := zeroSource; images := [img]; options := None;
     isLittleEndian := true |}.

(** The same reader with the GDAL tile leader of 4 bytes announced. *)
Definition leaderReaderOf (img : CogTiffImage) : CogTiff :=
  {| source := zeroSource; images := [img];
     options := Some {| tileLeaderByteSize := Some 4 |};
     isLittleEndian := true |}.

(** A striped image of 256 by 256 pixels with one LZW strip of 16 bytes at
    offset 8. *)
Definition stripedImage : CogTiffImage :=
  {| tags :=
       <[TiffTag.ImageWidth := inlineNumber TiffTag.ImageWidth 256]>
       (<[TiffTag.ImageHeight := inlineNumber TiffTag.ImageHeight 256]>
       (<[TiffTag.Compression := inlineNumber TiffTag.Compression 5]>
       (<[TiffTag.StripOffsets := inlineNumber TiffTag.StripOffsets 8]>
       (<[TiffTag.StripByteCounts := inlineNumber TiffTag.StripByteCounts 16]>
        ∅))));
     id := 0; isGeoTagsLoaded := true; tagsGeo := ∅ |}.

(** A source whose every range is a JPEG stream: SOI, zeros, EOI. *)
Definition jpegSource : Source :=
  {| fetch := λ _ n,
       Some ([255; 216] ++ replicate (Z.to_nat (n - 4)) 0 ++ [255; 217]) |}.

(** A JPEG image of one tile of 12 bytes, with JPEG tables of 6 bytes. *)
Definition jpegImage : CogTiffImage :=
  {| tags :=
       <[TiffTag.JPEGTables :=
           inlineNumbers TiffTag.JPEGTables [255; 216; 255; 219; 255; 217]]>
       (<[TiffTag.TileOffsets := inlineNumber TiffTag.TileOffsets 1000]>
       (<[TiffTag.TileByteCounts := inlineNumber TiffTag.TileByteCounts 12]>
       (tags (tiledExample 256 256 256 256 7 [] []))));
     id := 0; isGeoTagsLoaded := true; tagsGeo := ∅ |}.

Definition jpegReader : CogTiff :=
  {| source := jpegSource; images := [jpegImage]; options := None;
     isLittleEndian := true |}.

(** An image whose GeoKeyDirectory holds the one key
    (1026, 34737, 11, 0) and whose GeoAsciiParams is "WGS 84|foo|". *)
Definition geoImage : CogTiffImage :=
  {| tags :=
       <[TiffTag.GeoKeyDirectory :=
           inlineNumbers TiffTag.GeoKeyDirectory [1; 1; 0; 1; 1026; 34737; 11; 0]]>
       (<[TiffTag.GeoAsciiParams :=
           TagInline TiffTag.GeoAsciiParams 11 (VString "WGS 84|foo|")]> ∅);
     id := 0; isGeoTagsLoaded := false; tagsGeo := ∅ |}.

(** * Further operations of the reader and its images *)

(** ** [getMaxLength] *)

(** [getMaxLength(source, offset, length)] of [cog.tiff.ts]; [size] is
    [source.metadata?.size], with [None] when it is not known. *)
Definition getMaxLength (size : option Z) (offset length_ : Z) : Z :=
  match size with
  | None => length_
  | Some size => if offset + length_ >? size then size - offset else length_
  end.

(** ** Geo location of an image *)

(** The first two branches of the getter [origin]: from a ModelTiePoint of six
    numbers, else from ModelTransformation. *)
Definition originOwn (img : CogTiffImage) : option (Result Vec3) :=
  let fromTransformation :=
    match value img TiffTag.ModelTransformation with
    | Some (VDoubles t) => Some (Ok (t !! 3%nat, t !! 7%nat, t !! 11%nat))
    | Some _ => Some (Err IllTyped)
    | None => None
    end in
  match value img TiffTag.ModelTiePoint with
  | Some (VDoubles tiePoints) =>
      if bool_decide (length tiePoints = 6%nat)
      then Some (Ok (tiePoints !! 3%nat, tiePoints !! 4%nat, tiePoints !! 5%nat))
      else fromTransformation
  | Some (VNumbers l) =>
      if bool_decide (length l = 6%nat) then Some (Err IllTyped)
      else fromTransformation
  | Some (VString s) =>
      if bool_decide (String.length s = 6%nat) then Some (Err IllTyped)
      else fromTransformation
  | Some (VNumber _) | None => fromTransformation
  end.

(** The getter [origin]; a sub image without an origin of its own asks
    [images[0]], as [resolution] does. *)
Definition origin (tiff : CogTiff) (img : CogTiffImage) : Result Vec3 :=
  match originOwn img with
  | Some r => r
  | None =>
      if isSubImage img then
        match images tiff !! 0%nat with
        | None => Err JsTypeError
        | Some firstImg =>
            match originOwn firstImg with
            | Some r => r
            | None => if isSubImage firstImg then Err JsRangeError
                      else Err NoGeoTransform
            end
        end
      else Err NoGeoTransform
  end.

(** [this.value(ModelPixelScale) != null || this.value(ModelTransformation) != null] *)
Definition isImageLocated (img : CogTiffImage) : bool :=
  bool_decide (value img TiffTag.ModelPixelScale ≠ None
               ∨ value img TiffTag.ModelTransformation ≠ None).

(** The getter [isGeoLocated]. *)
Definition isGeoLocated (tiff : CogTiff) (img : CogTiffImage) : Result bool :=
  if isImageLocated img then Ok true
  else if isSubImage img then
    match images tiff !! 0%nat with
    | None => Err JsTypeError
    | Some firstImg =>
        if isImageLocated firstImg then Ok true
        else if isSubImage firstImg then Err JsRangeError
        else Ok false
    end
  else Ok false.

(** [Math.min(x, y)] and [Math.max(x, y)]: NaN when an argument is NaN, and
    -0 below +0. *)
Definition mathMin (x y : float) : float :=
  if is_nan x || is_nan y then nan
  else if (x <? y)%float then x
  else if (y <? x)%float then y
  else if get_sign x then x else y.

Definition mathMax (x y : float) : float :=
  if is_nan x || is_nan y then nan
  else if (x <? y)%float then y
  else if (y <? x)%float then x
  else if get_sign x then y else x.

(** The getter [bbox], as [(minX, minY, maxX, maxY)]. Its test
    [origin == null || size == null || resolution == null] never holds: the
    three getters return an array or an object, or throw. *)
Definition bbox (tiff : CogTiff) (img : CogTiffImage)
  : Result (float * float * float * float) :=
  let size := size img in
  '(ox, oy, _) ← origin tiff img;
  '(rx, ry, _) ← resolution tiff img;
  let x1 := to_number ox in
  let y1 := to_number oy in
  w ← as_float (width size);
  let x2 := (x1 + to_number rx * w)%float in
  h ← as_float (height size);
  let y2 := (y1 + to_number ry * h)%float in
  Ok (mathMin x1 x2, mathMin y1 y2, mathMax x1 x2, mathMax y1 y2).

(** ** EPSG code *)

(** [InvalidProjectionCode] *)
Definition InvalidProjectionCode : Z := 32767.

(** Modelled from the spec: the ids of the two GeoKeys that [epsg] reads, from
    [const/tiff.tag.id.ts]; the numbers are those of GeoTIFF. *)
Module GeoKey.
Definition GeographicTypeGeoKey : Z := 2048.
Definition ProjectedCSTypeGeoKey : Z := 3072.
End GeoKey.

(** What [epsg] returns: [null], or what [valueGeo] returned, with
    [GeoUndefined] for [undefined]. *)
Inductive EpsgCode : Type :=
  | EpsgNull
  | EpsgIs (v : GeoValue).

(** [!projection]: [undefined], 0 and the empty string are falsy. *)
Definition geoFalsy (v : GeoValue) : bool :=
  match v with
  | GeoUndefined => true
  | GeoNumber n => bool_decide (n = 0)
  | GeoString s => bool_decide (s = EmptyString)
  end.

(** The getter [epsg]. *)
Definition epsg (img : CogTiffImage) : Result EpsgCode :=
  projection ← default GeoUndefined <$> valueGeo img GeoKey.ProjectedCSTypeGeoKey;
  if geoFalsy projection || bool_decide (projection = GeoNumber InvalidProjectionCode)
  then
    projection ← default GeoUndefined <$> valueGeo img GeoKey.GeographicTypeGeoKey;
    if bool_decide (projection = GeoNumber InvalidProjectionCode) then Ok EpsgNull
    else Ok (EpsgIs projection)
  else Ok (EpsgIs projection).

(** ** [CogTiffImage.init] *)

(** Modelled from the spec: three more tag ids of [const/tiff.tag.id.ts], with
    their TIFF 6.0 numbers. *)
Module BaselineTag.
Definition BitsPerSample : Z := 258.
Definition SamplesPerPixel : Z := 277.
Definition SampleFormat : Z := 339.
End BaselineTag.

(** [await Promise.all(l)] on started [async] calls, for a list. *)
Fixpoint promiseAll {S A} (l : list (M S A)) : M S unit :=
  match l with
  | [] => mret tt
  | a :: l' => andAlso a (promiseAll l')
  end.

(** [init(loadGeoTags)] *)
Definition init `{Imports} (tiff : CogTiff) (loadGeoTags : bool)
  : M CogTiffImage unit :=
  let requiredTags :=
    fetchTag tiff <$>
      [BaselineTag.SamplesPerPixel; BaselineTag.SampleFormat;
       BaselineTag.BitsPerSample; TiffTag.Compression; TiffTag.ImageHeight;
       TiffTag.ImageWidth; TiffTag.ModelPixelScale; TiffTag.ModelTiePoint;
       TiffTag.ModelTransformation; TiffTag.TileHeight; TiffTag.TileWidth] in
  let requiredTags :=
    if loadGeoTags
    then requiredTags ++
         (fetchTag tiff <$>
            [TiffTag.GeoKeyDirectory; TiffTag.GeoAsciiParams; TiffTag.GeoDoubleParams])
    else requiredTags in
  promiseAll requiredTags;;
  if loadGeoTags then loadGeoTiffTags tiff else mret tt.

(** ** [CogTiff.readIfd] *)

(** Modelled from the spec: the widths of [read/tiff.ifd.config.ts] (spec 3):
    of the tag count ([offset]), of an entry ([ifd]) and of a pointer. *)
Record TiffIfdConfig : Type := { cfgOffset : Z; cfgIfd : Z; cfgPointer : Z }.

Definition TagTiffConfig : TiffIfdConfig :=
  {| cfgOffset := 2; cfgIfd := 12; cfgPointer := 4 |}.
Definition TagTiffBigConfig : TiffIfdConfig :=
  {| cfgOffset := 8; cfgIfd := 20; cfgPointer := 8 |}.

(** Modelled from the spec: [DataViewOffset] of [read/data.view.offset.ts], a
    view of bytes with the file offset of its first byte. *)
Record DataViewOffset : Type := { viewBytes : list Z; sourceOffset : Z }.

(** What [readIfd] imports beside [getUint]: [hasBytes] of
    [read/data.view.offset.ts] and [createTag] of [read/tiff.tag.factory.ts]. *)
Class IfdImports : Type := {
  hasBytes : DataViewOffset → Z → Z → bool;
  createTag : CogTiff → DataViewOffset → Z → option Tag;
}.

(** How a call of [readIfd] ends: with the offset of the next IFD, with
    'IFD out of range', or inside an imported function. *)
Inductive IfdOutcome : Type :=
  | IfdNext (nextOffsetIfd : Z)
  | IfdOutOfRange
  | IfdImportFailed.

(** The loop [for (let i = 0; i < tagCount; i++)] of [readIfd], over the
    indices [is_]: [tags.set(tag.id, tag)] for each entry. *)
Fixpoint readTags `{IfdImports} (tiff : CogTiff) (view : DataViewOffset)
    (startOffset ifdSize : Z) (is_ : list nat) (tags : gmap Z Tag)
  : option (gmap Z Tag) :=
  match is_ with
  | [] => Some tags
  | i :: is' =>
      match createTag tiff view (startOffset + Z.of_nat i * ifdSize) with
      | None => None
      | Some tag => readTags tiff view startOffset ifdSize is' (<[tag_id tag := tag]> tags)
      end
  end.

Definition pushImage (tiff : CogTiff) (img : CogTiffImage) : CogTiff :=
  {| source := source tiff; images := images tiff ++ [img];
     options := options tiff; isLittleEndian := isLittleEndian tiff |}.

(** [readIfd(offset, view)]; the reader's field [ifdConfig] is [cfg]. The
    outcome comes with the reader as the call leaves it. *)
Definition readIfd `{Imports} `{IfdImports} (cfg : TiffIfdConfig) (offset : Z)
    (view : DataViewOffset) (tiff : CogTiff) : IfdOutcome * CogTiff :=
  let viewOffset := offset - sourceOffset view in
  match getUint (viewBytes view) viewOffset (cfgOffset cfg) (isLittleEndian tiff) with
  | None => (IfdImportFailed, tiff)
  | Some tagCount =>
      let ifdBytes := tagCount * cfgIfd cfg in
      if negb (hasBytes view offset ifdBytes) then (IfdOutOfRange, tiff)
      else
        let ifdSize := cfgIfd cfg in
        let startOffset := viewOffset + cfgOffset cfg in
        match readTags tiff view startOffset ifdSize (seq 0 (Z.to_nat tagCount)) ∅ with
        | None => (IfdImportFailed, tiff)
        | Some tags =>
            let tiff' :=
              pushImage tiff
                {| tags := tags; id := Z.of_nat (length (images tiff));
                   isGeoTagsLoaded := false; tagsGeo := ∅ |} in
            match getUint (viewBytes view) (startOffset + tagCount * ifdSize)
                    (cfgPointer cfg) (isLittleEndian tiff) with
            | None => (IfdImportFailed, tiff')
            | Some next => (IfdNext next, tiff')
            end
        end
  end.

(** * More vocabulary *)

(** The pixel [(px, py)] lies in the rectangle [b]. *)
Definition inside (b : BoundingBox) (px py : Z) : Prop :=
  bx b ≤ px < bx b + bwidth b ∧ by_ b ≤ py < by_ b + bheight b.

(** Every image carries its position in [images] as its [id]. *)
Definition idsAreIndices (tiff : CogTiff) : Prop :=
  ∀ i img, images tiff !! i = Some img → id img = Z.of_nat i.

(** Every tag is stored under its own id. *)
Definition tagsKeyedById (tags : gmap Z Tag) : Prop :=
  ∀ k t, tags !! k = Some t → tag_id t = k.


(** * More example inputs *)

(** An image with four GeoKeys: two numbers (1024 is 2, 2048 is 4326), the
    citation in GeoAsciiParams, and a second entry for 2048 (4269). *)
Definition geoKeysImage : CogTiffImage :=
  {| tags :=
       <[TiffTag.GeoKeyDirectory :=
           inlineNumbers TiffTag.GeoKeyDirectory
             [1; 1; 0; 4;
              1024; 0; 1; 2;
              2048; 0; 1; 4326;
              1026; 34737; 7; 0;
              2048; 0; 1; 4269]]>
       (<[TiffTag.GeoAsciiParams :=
           TagInline TiffTag.GeoAsciiParams 7 (VString "WGS 84|")]> ∅);
     id := 0; isGeoTagsLoaded := false; tagsGeo := ∅ |}.

(** An image whose second GeoKey (2057, the semi-major axis) is kept in
    GeoDoubleParams. *)
Definition geoDoublesImage : CogTiffImage :=
  {| tags :=
       <[TiffTag.GeoKeyDirectory :=
           inlineNumbers TiffTag.GeoKeyDirectory
             [1; 1; 0; 2;
              2048; 0; 1; 4326;
              2057; 34736; 1; 0]]>
       (<[TiffTag.GeoDoubleParams :=
           TagInline TiffTag.GeoDoubleParams 1 (VDoubles [6378137]%float)]> ∅);
     id := 0; isGeoTagsLoaded := false; tagsGeo := ∅ |}.

(** The fields of an image that fetching tags leaves as they are. *)
Definition sameGeoState (s s' : CogTiffImage) : Prop :=
  isGeoTagsLoaded s' = isGeoTagsLoaded s ∧ tagsGeo s' = tagsGeo s ∧ id s' = id s.

(** An image of 1024 by 512 pixels at (100, 200) with pixels of 2 by 2,
    north up. *)
Definition locatedImage : CogTiffImage :=
  {| tags :=
       <[TiffTag.ImageWidth := inlineNumber TiffTag.ImageWidth 1024]>
       (<[TiffTag.ImageHeight := inlineNumber TiffTag.ImageHeight 512]>
       (<[TiffTag.ModelPixelScale :=
            TagInline TiffTag.ModelPixelScale 3 (VDoubles [2; 2; 0]%float)]>
       (<[TiffTag.ModelTiePoint :=
            TagInline TiffTag.ModelTiePoint 6
              (VDoubles [0; 0; 0; 100; 200; 0]%float)]> ∅)));
     id := 0; isGeoTagsLoaded := true; tagsGeo := ∅ |}.

(** Imports for an IFD read: the tag count and the pointers are read as one
    byte of the view, every range is in the view, and the entry at offset
    [o] is an inline tag whose id is the byte at [o]. *)
Definition byteImports : Imports :=
  {| TiffCompression := λ _, None;
     getValueAt := λ _ _ _, None;
     getUint := λ bytes o _ _, bytes !! Z.to_nat o;
     fetchLazy := λ _ _, None;
     fetchAllOffsets := λ _ _, None |}.

Definition byteIfdImports : IfdImports :=
  {| hasBytes := λ _ _ _, true;
     createTag := λ _ view o,
       id_ ← viewBytes view !! Z.to_nat o; Some (inlineNumber id_ 0) |}.

(** A view that starts at file offset 0, with an IFD of three entries at
    offset 0 whose ids are 254, 254 and 2; the next IFD is at 0. *)
Definition ifdView : DataViewOffset :=
  {| viewBytes := [3; 0; 254; 0; 0; 0; 0; 0; 0; 0; 0; 0; 0; 0;
                   254; 0; 0; 0; 0; 0; 0; 0; 0; 0; 0; 0;
                   2; 0; 0; 0; 0; 0; 0; 0; 0; 0; 0; 0; 0];
     sourceOffset := 0 |}.

(** * [CogTiff.readHeader] *)

(** Modelled from the spec: the byte-order mark and the version words of
    [const/tiff.endian.ts] and [const/tiff.version.ts] (spec 4.E: 0x4949 is
    little endian, 42 is classic TIFF, 43 is BigTIFF). *)
Module TiffEndian.
Definition Little : Z := 18761.
End TiffEndian.

Module TiffVersion.
Definition Tiff : Z := 42.
Definition BigTiff : Z := 43.
End TiffVersion.

(** [view.getUint16(offset, littleEndian)] of a [DataView]: a RangeError
    when the two bytes are not both in the view. *)
Definition getUint16 (bytes : list Z) (offset : Z) (littleEndian : bool) : Result Z :=
  if offset <? 0 then Err JsRangeError
  else
    match bytes !! Z.to_nat offset, bytes !! Z.to_nat (offset + 1) with
    | Some b0, Some b1 =>
        Ok (if littleEndian then b0 + 256 * b1 else 256 * b0 + b1)
    | _, _ => Err JsRangeError
    end.

(** What [readHeader] imports beside [getUint] and the imports of [readIfd]:
    the class [CogTifGhostOptions] of [read/tiff.gdal.ts], as the object
    [new CogTifGhostOptions()] and what [process] makes of it. *)
Class HeaderImports : Type := {
  newGhostOptions : CogTifGhostOptions;
  processGhost : DataViewOffset → Z → Z → option CogTifGhostOptions;
}.

(** The reader as [readHeader] sees it: the object of [CogTiff] with the
    fields that only the header reading uses, and the requests that
    [readHeader] has sent to [source.fetch], oldest first. *)
Record HeaderState : Type := {
  reader : CogTiff;
  fixedHeaderSize : option Z;
  defaultReadSize : Z;
  version : Z;
  ifdConfig : TiffIfdConfig;
  isInitialized : bool;
  sent : list (Z * Z);
}.

(** How [readHeader] ends other than by returning. *)
Inductive HeaderError : Type :=
  | OnlyLittleEndian        (* 'Only little endian is supported' *)
  | Only8BytePointers       (* 'Only 8byte pointers are supported' *)
  | InvalidBigTiffHeader    (* 'Invalid big tiff header' *)
  | OnlyTiffSupported       (* 'Only tiff supported version:' + version *)
  | IfdOutOfRangeError      (* 'IFD out of range @ ' *)
  | Raised (e : Error)      (* a RangeError of the DataView, or a rejection
                               by the source or inside an imported module *)
  | InitRejected (es : list Error)
                            (* [Promise.all] of the images' [init] rejected:
                               the rejections in the order of the images;
                               the one raised first is thrown *)
  | Unfinished.             (* not a throw: the IFD chain is longer than
                               the number of rounds the embedding ran *)

Inductive HeaderResult (A : Type) : Type :=
  | HOk (a : A)
  | HErr (e : HeaderError).
Arguments HOk {A} a.
Arguments HErr {A} e.

Definition HM (A : Type) : Type := HeaderState → HeaderResult A * HeaderState.

#[global] Instance HM_ret : MRet HM := λ A a st, (HOk a, st).
#[global] Instance HM_bind : MBind HM :=
  λ A B k c st, match c st with
                | (HOk a, st') => k a st'
                | (HErr e, st') => (HErr e, st')
                end.

Definition hget : HM HeaderState := λ st, (HOk st, st).
Definition hmodify (f : HeaderState → HeaderState) : HM unit := λ st, (HOk tt, f st).
Definition hthrow {A} (e : HeaderError) : HM A := λ st, (HErr e, st).
Definition hlift {A} (r : Result A) : HM A :=
  λ st, (match r with Ok a => HOk a | Err e => HErr (Raised e) end, st).

Definition setReader (f : CogTiff → CogTiff) (st : HeaderState) : HeaderState :=
  {| reader := f (reader st); fixedHeaderSize := fixedHeaderSize st;
     defaultReadSize := defaultReadSize st; version := version st;
     ifdConfig := ifdConfig st; isInitialized := isInitialized st; sent := sent st |}.

Definition setIsLittleEndian (b : bool) (tiff : CogTiff) : CogTiff :=
  {| source := source tiff; images := images tiff; options := options tiff;
     isLittleEndian := b |}.

Definition setOptions (o : option CogTifGhostOptions) (tiff : CogTiff) : CogTiff :=
  {| source := source tiff; images := images tiff; options := o;
     isLittleEndian := isLittleEndian tiff |}.

Definition setImages (imgs : list CogTiffImage) (tiff : CogTiff) : CogTiff :=
  {| source := source tiff; images := imgs; options := options tiff;
     isLittleEndian := isLittleEndian tiff |}.

Definition setVersion (v : Z) (st : HeaderState) : HeaderState :=
  {| reader := reader st; fixedHeaderSize := fixedHeaderSize st;
     defaultReadSize := defaultReadSize st; version := v;
     ifdConfig := ifdConfig st; isInitialized := isInitialized st; sent := sent st |}.

Definition setIfdConfig (cfg : TiffIfdConfig) (st : HeaderState) : HeaderState :=
  {| reader := reader st; fixedHeaderSize := fixedHeaderSize st;
     defaultReadSize := defaultReadSize st; version := version st;
     ifdConfig := cfg; isInitialized := isInitialized st; sent := sent st |}.

Definition setIsInitialized (b : bool) (st : HeaderState) : HeaderState :=
  {| reader := reader st; fixedHeaderSize := fixedHeaderSize st;
     defaultReadSize := defaultReadSize st; version := version st;
     ifdConfig := ifdConfig st; isInitialized := b; sent := sent st |}.

Definition addSent (request : Z * Z) (st : HeaderState) : HeaderState :=
  {| reader := reader st; fixedHeaderSize := fixedHeaderSize st;
     defaultReadSize := defaultReadSize st; version := version st;
     ifdConfig := ifdConfig st; isInitialized := isInitialized st;
     sent := sent st ++ [request] |}.

(** [new CogTiff(source, headerSize, tileSize)] *)
Definition newCogTiff (source_ : Source) (headerSize tileSize : option Z) : HeaderState :=
  {| reader := {| source := source_; images := []; options := None;
                  isLittleEndian := false |};
     fixedHeaderSize := headerSize;
     defaultReadSize := default (16 * 1024) tileSize;
     version := TiffVersion.Tiff;
     ifdConfig := TagTiffConfig;
     isInitialized := false;
     sent := [] |}.

(** [new DataView(await this.source.fetch(offset, length))] with its
    [sourceOffset] set to [offset]. *)
Definition fetchView (offset length_ : Z) : HM DataViewOffset :=
  hmodify (addSent (offset, length_));;
  st ← hget;
  match fetch (source (reader st)) offset length_ with
  | Some bytes => mret {| viewBytes := bytes; sourceOffset := offset |}
  | None => hthrow (Raised ExternalError)
  end.

(** The first part of [readHeader]: the request for the header, the
    byte-order mark, the version, the offset of the first IFD and the ghost
    options. It answers with the view read and the offset of the first
    IFD. *)
Definition readHeaderStart `{Imports} `{HeaderImports} : HM (DataViewOffset * Z) :=
  st ← hget;
  let readSize :=
    match fixedHeaderSize st with Some n => n | None => defaultReadSize st end in
  bytes ← fetchView 0 readSize;
  let offset := 0 in
  endian ← hlift (getUint16 (viewBytes bytes) offset (isLittleEndian (reader st)));
  let offset := offset + 2 in
  hmodify (setReader (setIsLittleEndian (bool_decide (endian = TiffEndian.Little))));;
  if negb (bool_decide (endian = TiffEndian.Little)) then hthrow OnlyLittleEndian
  else
    version_ ← hlift (getUint16 (viewBytes bytes) offset true);
    hmodify (setVersion version_);;
    let offset := offset + 2 in
    '(nextOffsetIfd, offset) ←
      (if bool_decide (version_ = TiffVersion.BigTiff) then
         hmodify (setIfdConfig TagTiffBigConfig);;
         pointerSize ← hlift (getUint16 (viewBytes bytes) offset true);
         let offset := offset + 2 in
         if negb (bool_decide (pointerSize = 8)) then hthrow Only8BytePointers
         else
           zeros ← hlift (getUint16 (viewBytes bytes) offset true);
           let offset := offset + 2 in
           if negb (bool_decide (zeros = 0)) then hthrow InvalidBigTiffHeader
           else
             next ← hlift (imported (getUint (viewBytes bytes) offset
                                       (cfgPointer TagTiffBigConfig) true));
             mret (next, offset + cfgPointer TagTiffBigConfig)
       else if bool_decide (version_ = TiffVersion.Tiff) then
         next ← hlift (imported (getUint (viewBytes bytes) offset
                                   (cfgPointer (ifdConfig st)) true));
         mret (next, offset + cfgPointer (ifdConfig st))
       else hthrow OnlyTiffSupported);
    let ghostSize := nextOffsetIfd - offset in
    (if (ghostSize >? 0) && (ghostSize <? 16 * 1024) then
       hmodify (setReader (setOptions (Some newGhostOptions)));;
       o ← hlift (imported (processGhost bytes offset ghostSize));
       hmodify (setReader (setOptions (Some o)))
     else mret tt);;
    mret (bytes, nextOffsetIfd).

(** [await this.readIfd(nextOffsetIfd, lastView)] on the reader of the
    state. *)
Definition readIfdStep `{Imports} `{IfdImports} (offset : Z) (view : DataViewOffset)
  : HM Z :=
  λ st, match readIfd (ifdConfig st) offset view (reader st) with
        | (IfdNext next, tiff') => (HOk next, setReader (λ _, tiff') st)
        | (IfdOutOfRange, tiff') =>
            (HErr IfdOutOfRangeError, setReader (λ _, tiff') st)
        | (IfdImportFailed, tiff') =>
            (HErr (Raised ExternalError), setReader (λ _, tiff') st)
        end.

(** [while (nextOffsetIfd !== 0)] of [readHeader], for at most [rounds]
    rounds; [sourceSize] is [source.metadata?.size]. *)
Fixpoint readIfds `{Imports} `{IfdImports} (sourceSize : option Z) (rounds : nat)
    (bytes : DataViewOffset) (nextOffsetIfd : Z) : HM unit :=
  if nextOffsetIfd =? 0 then mret tt
  else
    match rounds with
    | O => hthrow Unfinished
    | S rounds' =>
        st ← hget;
        lastView ←
          match fixedHeaderSize st with
          | None =>
              if negb (hasBytes bytes nextOffsetIfd 1024) then
                fetchView nextOffsetIfd
                  (getMaxLength sourceSize nextOffsetIfd (defaultReadSize st))
              else mret bytes
          | Some _ => mret bytes
          end;
        next ← readIfdStep nextOffsetIfd lastView;
        readIfds sourceSize rounds' bytes next
    end.

(** [await Promise.all(this.images.map((i) => i.init()))]: every image is
    initialised, with its GeoKeys; the imported readers are given the reader
    as it is when the calls start. *)
Definition initImages `{Imports} : HM unit :=
  st ← hget;
  let runs := (λ img, init (reader st) true img) <$> images (reader st) in
  hmodify (setReader (setImages (snd <$> runs)));;
  match omap (λ run : Result unit * CogTiffImage,
                match run.1 with Err e => Some e | Ok _ => None end) runs with
  | [] => mret tt
  | es => hthrow (InitRejected es)
  end.

(** [readHeader()] *)
Definition readHeader `{Imports} `{IfdImports} `{HeaderImports}
    (sourceSize : option Z) (rounds : nat) : HM unit :=
  st ← hget;
  if isInitialized st then mret tt
  else
    '(bytes, nextOffsetIfd) ← readHeaderStart;
    readIfds sourceSize rounds bytes nextOffsetIfd;;
    initImages;;
    hmodify (setIsInitialized true).

(** Imports for the header of the examples: ghost options without a tile
    leader. *)
Definition exampleHeaderImports : HeaderImports :=
  {| newGhostOptions := {| tileLeaderByteSize := None |};
     processGhost := λ _ _ _, Some {| tileLeaderByteSize := None |} |}.

(** A classic TIFF of 23 bytes: the header (II, 42, first IFD at 8) and one
    IFD with the one entry 254 and no successor. *)
Definition tinyTiffBytes : list Z :=
  [73; 73; 42; 0; 8; 0; 0; 0;
   1; 0; 254; 0; 0; 0; 0; 0; 0; 0; 0; 0; 0; 0; 0].

(** A source that holds [bytes] and answers with the range asked for, cut at
    its end. *)
Definition bytesSource (bytes : list Z) : Source :=
  {| fetch := λ o n, Some (take (Z.to_nat n) (drop (Z.to_nat o) bytes)) |}.

(** The fields that reading the header leaves as they are. *)
Definition sameSettings (st st' : HeaderState) : Prop :=
  fixedHeaderSize st' = fixedHeaderSize st ∧
  defaultReadSize st' = defaultReadSize st ∧
  source (reader st') = source (reader st).

(** The size of the first request of [readHeader]. *)
Definition readSizeOf (st : HeaderState) : Z :=
  match fixedHeaderSize st with Some n => n | None => defaultReadSize st end.

(** The version and the IFD widths agree: classic TIFF with the widths the
    reader had, or BigTIFF with the BigTIFF widths. *)
Definition versionRead (st st' : HeaderState) : Prop :=
  (version st' = TiffVersion.Tiff ∧ ifdConfig st' = ifdConfig st) ∨
  (version st' = TiffVersion.BigTiff ∧ ifdConfig st' = TagTiffBigConfig).

(** What the loop over the IFDs and the initialisation of the images keep
    of the reader. *)
Definition sameHeader (st st' : HeaderState) : Prop :=
  sameSettings st st' ∧
  version st' = version st ∧ ifdConfig st' = ifdConfig st ∧
  isLittleEndian (reader st') = isLittleEndian (reader st) ∧
  (idsAreIndices (reader st) → idsAreIndices (reader st')).

(** A request for an IFD that is not in the view: at the offset of the IFD,
    of the length [getMaxLength] gives. *)
Definition ifdRequest (sourceSize : option Z) (st : HeaderState) (q : Z * Z) : Prop :=
  q.1 ≠ 0 ∧ q.2 = getMaxLength sourceSize q.1 (defaultReadSize st).

(** A classic TIFF whose only IFD, at offset 8, names itself as the next
    IFD. *)
Definition cyclicTiffBytes : list Z :=
  [73; 73; 42; 0; 8; 0; 0; 0;
   1; 0; 254; 0; 0; 0; 0; 0; 0; 0; 0; 0; 0; 0; 8].



(** * Properties *)

(** ** Laws of the monad *)

Lemma bind_lift_Ok {S A B} (a : A) (k : A → M S B) : (lift (Ok a) ≫= k) = k a.
Proof. reflexivity. Qed.

Lemma bind_lift_Err {S A B} (e : Error) (k : A → M S B) :
  (lift (Err e) ≫= k) = throw e.
Proof. reflexivity. Qed.

Lemma bind_mret {S A B} (a : A) (k : A → M S B) : (mret a ≫= k) = k a.
Proof. reflexivity. Qed.

Lemma bind_throw {S A B} (e : Error) (k : A → M S B) : (throw e ≫= k) = throw e.
Proof. reflexivity. Qed.

Lemma throw_run {S A} (e : Error) (s : S) : @throw S A e s = (Err e, s).
Proof. reflexivity. Qed.

Lemma mret_run {S A} (a : A) (s : S) : (mret a : M S A) s = (Ok a, s).
Proof. reflexivity. Qed.

(** Running a bind: the first computation, then the second from its state. *)
Lemma bind_run {S A B} (c : M S A) (k : A → M S B) (s : S) :
  (c ≫= k) s =
    match c s with
    | (Ok a, s') => k a s'
    | (Err e, s') => (Err e, s')
    end.
Proof. reflexivity. Qed.

(** [msimpl] steps through the binds whose first computation is known. *)
Ltac msimpl :=
  repeat (rewrite ?bind_lift_Ok, ?bind_lift_Err, ?bind_mret, ?bind_throw);
  rewrite ?throw_run, ?mret_run; cbn [fst snd].

(** ** Image selection by resolution *)

(** With a numeric width the loop's number is the quotient by that width. *)
Lemma imgResolutionX_width base img w :
  value img TiffTag.ImageWidth = Some (VNumber w) →
  imgResolutionX base img = Ok (base / number_of_Z w)%float.
Proof.
  intros Hw. unfold imgResolutionX, as_float, as_int, size. cbn [width].
  by rewrite Hw.
Qed.

(** The loop from [i] down to 1 stops at the greatest index whose quotient is
    within the tolerance. *)
Lemma scanImages_spec imgs widths base r i :
  (i < length imgs)%nat →
  haveWidths imgs widths →
  ∃ found, scanImages imgs base r i = Ok found ∧
    match found with
    | Some (k, img) =>
        (0 < k ≤ i)%nat ∧ imgs !! k = Some img ∧
        (∃ w, widths !! k = Some w ∧
              withinTolerance (base / number_of_Z w) r = true) ∧
        ∀ j w, (k < j ≤ i)%nat → widths !! j = Some w →
               withinTolerance (base / number_of_Z w) r = false
    | None =>
        ∀ j w, (0 < j ≤ i)%nat → widths !! j = Some w →
               withinTolerance (base / number_of_Z w) r = false
    end.
Proof.
  intros Hi Hw. induction i as [|i IH].
  - exists None. split; [done|]. intros j w Hj. lia.
  - destruct (lookup_lt_is_Some_2 imgs (S i) Hi) as [img Himg].
    destruct (Forall2_lookup_l _ _ _ _ _ Hw Himg) as (w & Hwi & Hvalue).
    cbn [scanImages]. rewrite Himg, (imgResolutionX_width base img w Hvalue).
    cbn [mbind Result_bind].
    change (closeEnough (base / number_of_Z w) r)
      with (withinTolerance (base / number_of_Z w) r).
    destruct (withinTolerance (base / number_of_Z w) r) eqn:Hc.
    + exists (Some (S i, img)). split; [done|].
      split; [lia|]. split; [done|]. split; [by exists w|].
      intros j w' Hj. lia.
    + destruct IH as (found & Hf & Hspec); [lia|].
      exists found. split; [done|].
      destruct found as [[k img0]|].
      * destruct Hspec as (Hk & Hl & Hq & Hno).
        split; [lia|]. split; [done|]. split; [done|].
        intros j w' Hj Hl'.
        destruct (decide (j = S i)) as [->|Hne]; [congruence|].
        apply (Hno j); [lia|done].
      * intros j w' Hj Hl'.
        destruct (decide (j = S i)) as [->|Hne]; [congruence|].
        apply (Hspec j); [lia|done].
Qed.

(** C1, amended. On a reader with at least one image whose images all have a
    numeric ImageWidth: when the getter [resolution] of [images[0]] throws,
    [getImageByResolution r] throws the same error; when it returns
    [[resX, _, _]], [getImageByResolution r] returns an image of [images],
    with its position [k], where [k] is the greatest position above 0 whose
    x resolution in the units of the base image,
    [resX * width(images[0]) / width(images[k])], minus [r] is at most 0.01
    in binary64 arithmetic, and [k] is 0 exactly when no position above 0
    passes that test. *)
Theorem getImageByResolution_coarsest (tiff : CogTiff) (firstImage : CogTiffImage)
    (widths : list Z) (r : float) :
  images tiff !! 0%nat = Some firstImage →
  haveWidths (images tiff) widths →
  match resolution tiff firstImage with
  | Err e => getImageByResolution tiff r = Err e
  | Ok (resX, _, _) =>
      ∃ k img baseWidth,
        widths !! 0%nat = Some baseWidth ∧
        getImageByResolution tiff r = Ok (k, img) ∧
        images tiff !! k = Some img ∧
        ((0 < k)%nat →
         ∃ w, widths !! k = Some w ∧
              withinTolerance
                (xResolutionInBaseUnits (to_number resX) baseWidth w) r = true) ∧
        (∀ j w, (k < j)%nat → widths !! j = Some w →
                withinTolerance
                  (xResolutionInBaseUnits (to_number resX) baseWidth w) r = false)
  end.
Proof.
  intros Hfirst Hw.
  destruct (Forall2_lookup_l _ _ _ _ _ Hw Hfirst) as (baseWidth & Hw0 & Hvalue0).
  unfold getImageByResolution, resolutionBaseX. rewrite Hfirst.
  destruct (resolution tiff firstImage) as [[[resX resY] resZ]|e]; [|done].
  cbn [mbind Result_bind].
  unfold as_float, as_int, size. cbn [width]. rewrite Hvalue0.
  cbn [mbind Result_bind].
  assert (Hlen : (length (images tiff) - 1 < length (images tiff))%nat).
  { apply lookup_lt_Some in Hfirst. lia. }
  destruct (scanImages_spec (images tiff) widths
              (to_number resX * number_of_Z baseWidth) r _ Hlen Hw)
    as (found & -> & Hspec).
  cbn [mbind Result_bind]. unfold xResolutionInBaseUnits.
  pose proof (Forall2_length _ _ _ Hw) as Hlens.
  destruct found as [[k img]|].
  - destruct Hspec as (Hk & Hl & Hq & Hno).
    exists k, img, baseWidth. split; [done|]. split; [done|]. split; [done|].
    split; [intros _; exact Hq|].
    intros j w Hj Hl'. apply (Hno j); [|done].
    apply lookup_lt_Some in Hl'. lia.
  - exists 0%nat, firstImage, baseWidth.
    split; [done|]. split; [done|]. split; [done|]. split; [lia|].
    intros j w Hj Hl'. apply (Hspec j); [|done].
    apply lookup_lt_Some in Hl'. lia.
Qed.

Lemma getImageByResolution_coarsest_witness :
  ∃ k img baseWidth,
    [1024; 512; 256; 128] !! 0%nat = Some baseWidth ∧
    getImageByResolution pyramid 3.5 = Ok (k, img) ∧
    images pyramid !! k = Some img ∧
    ((0 < k)%nat →
     ∃ w, [1024; 512; 256; 128] !! k = Some w ∧
          withinTolerance (xResolutionInBaseUnits 1 baseWidth w) 3.5 = true) ∧
    (∀ j w, (k < j)%nat → [1024; 512; 256; 128] !! j = Some w →
            withinTolerance (xResolutionInBaseUnits 1 baseWidth w) 3.5 = false).
Proof.
  apply (getImageByResolution_coarsest pyramid (pyramidImage 0 1024)
           [1024; 512; 256; 128] 3.5).
  - reflexivity.
  - unfold haveWidths, pyramid. cbn [images].
    repeat (constructor; [reflexivity|]). constructor.
Defined.

(** C1, as stated, fails, on two counts. The reader [plainTiff] has one
    image, and [getImageByResolution] returns no image of it: it throws,
    because that image has no geo transformation. On the pyramid, the image
    at position 1 has the x resolution 2, which is at most [1.99 + 0.01],
    and [getImageByResolution 1.99] returns the image at position 0: the
    loop tests [2 - 1.99 <= 0.01], which is false in binary64 arithmetic. *)
Lemma getImageByResolution_not_r_plus_tolerance :
  length (images plainTiff) = 1%nat ∧
  getImageByResolution plainTiff 1 = Err NoGeoTransform ∧
  resolution pyramid (pyramidImage 1 512)
    = Ok (Some 2, Some (-2), Some 0)%float ∧
  xResolutionInBaseUnits 1 1024 512 = 2%float ∧
  atMostPlusTolerance 2 1.99 = true ∧
  withinTolerance 2 1.99 = false ∧
  getImageByResolution pyramid 1.99 = Ok (0%nat, pyramidImage 0 1024).
Proof. repeat split; vm_compute; reflexivity. Qed.

(** Without a pixel scale or a transformation on the base image the getter
    [resolution] throws, and so does [getImageByResolution]. *)
Lemma getImageByResolution_plainTiff r :
  getImageByResolution plainTiff r = Err NoGeoTransform.
Proof. reflexivity. Qed.

(** C6, as stated, fails: on the pyramid with x resolutions 1, 2, 4 and 8 the
    image returned for 3.5 is not the one at position 2; it is the one at
    position 1, of x resolution 2. *)
Lemma getImageByResolution_pyramid_not_index_2 :
  getResolutions pyramid =
    Ok [(Some 1, Some (-1), Some 0); (Some 2, Some (-2), Some 0);
        (Some 4, Some (-4), Some 0); (Some 8, Some (-8), Some 0)]%float ∧
  ¬ (∃ img, getImageByResolution pyramid 3.5 = Ok (2%nat, img)) ∧
  getImageByResolution pyramid 3.5 = Ok (1%nat, pyramidImage 1 512).
Proof.
  split; [vm_compute; reflexivity|].
  assert (H : getImageByResolution pyramid 3.5 = Ok (1%nat, pyramidImage 1 512))
    by (vm_compute; reflexivity).
  split; [|exact H].
  intros [img Himg]. rewrite H in Himg. discriminate.
Qed.

(** C6, amended. On a reader with four images, the base of x resolution 1 and
    the overviews of x resolutions 2, 4 and 8 in the units of the base,
    [getImageByResolution 3.5] returns the image of x resolution 2 (position
    1), [getImageByResolution 0.5] the base (position 0) and
    [getImageByResolution 100] the last image (position 3). *)
Theorem getImageByResolution_scenario (tiff : CogTiff) (i0 i1 i2 i3 : CogTiffImage)
    (resY resZ : option float) (fw : float) :
  images tiff = [i0; i1; i2; i3] →
  resolution tiff i0 = Ok (Some 1%float, resY, resZ) →
  as_float (width (size i0)) = Ok fw →
  imgResolutionX (1 * fw) i1 = Ok 2%float →
  imgResolutionX (1 * fw) i2 = Ok 4%float →
  imgResolutionX (1 * fw) i3 = Ok 8%float →
  getImageByResolution tiff 3.5 = Ok (1%nat, i1) ∧
  getImageByResolution tiff 0.5 = Ok (0%nat, i0) ∧
  getImageByResolution tiff 100 = Ok (3%nat, i3).
Proof.
  intros Himgs Hres Hfw H1 H2 H3.
  unfold getImageByResolution, resolutionBaseX.
  rewrite Himgs. cbn [lookup list_lookup length Nat.sub].
  rewrite Hres. cbn [mbind Result_bind]. rewrite Hfw. cbn [mbind Result_bind to_number].
  cbn [scanImages lookup list_lookup].
  rewrite H1, H2, H3. cbn [mbind Result_bind].
  repeat split; reflexivity.
Qed.

Lemma getImageByResolution_scenario_witness :
  getImageByResolution pyramid 3.5 = Ok (1%nat, pyramidImage 1 512) ∧
  getImageByResolution pyramid 0.5 = Ok (0%nat, pyramidImage 0 1024) ∧
  getImageByResolution pyramid 100 = Ok (3%nat, pyramidImage 3 128).
Proof.
  apply (getImageByResolution_scenario pyramid _ _ (pyramidImage 2 256) _
           (Some (-1)%float) (Some 0%float) 1024%float).
  - reflexivity.
  - vm_compute. reflexivity.
  - vm_compute. reflexivity.
  - vm_compute. reflexivity.
  - vm_compute. reflexivity.
  - vm_compute. reflexivity.
Defined.

(** ** Bounds of [getOffset] *)

Lemma getOffset_outOfBounds `{Imports} tiff x index :
  getOffset tiff x index = Err TagIndexOutOfBounds ↔
  (index < 0 ∨ index > tag_count x).
Proof.
  unfold getOffset. case_bool_decide as Hb.
  - split; [lia|done].
  - split; [|lia]. intros Hoob. exfalso.
    destruct x as [i c v|i c l b|i c v]; [|done..].
    destruct (c >? 1); destruct v; discriminate.
Qed.

Lemma getOffset_awaited `{Imports} tiff x index p :
  getOffset tiff x index = Ok p → p ≠ Err TagIndexOutOfBounds.
Proof.
  unfold getOffset. case_bool_decide as Hb; [done|].
  destruct x as [i c v|i c l b|i c v].
  - destruct (c >? 1); destruct v; intros [= <-]; done.
  - intros [= <-]. by destruct (getValueAt _ _ _).
  - intros [= <-]. by destruct (getValueAt _ _ _).
Qed.

(** What [getOffset] leaves of an index within the bounds check. *)
Lemma getOffset_within `{Imports} tiff x index :
  0 ≤ index ≤ tag_count x →
  ∃ r, getOffset tiff x index = r ∧ r ≠ Err TagIndexOutOfBounds ∧
       ∀ p, r = Ok p → p ≠ Err TagIndexOutOfBounds.
Proof.
  intros Hi. eexists. split; [reflexivity|]. split.
  - rewrite getOffset_outOfBounds. lia.
  - apply getOffset_awaited.
Qed.

(** C10. [getOffset] throws its out-of-bounds error exactly when the index is
    negative or greater than the count of the tag, and the answer it
    resolves to is never that error. An index equal to the count passes: with
    TileOffsets of count [n], and TileByteCounts, when present, of the same
    count, [getTileSize n] does not end in the out-of-bounds error. *)
Theorem getOffset_bounds `{Imports} (tiff : CogTiff) :
  (∀ x index,
     getOffset tiff x index = Err TagIndexOutOfBounds ↔
     (index < 0 ∨ index > tag_count x)) ∧
  (∀ x index p, getOffset tiff x index = Ok p → p ≠ Err TagIndexOutOfBounds) ∧
  (∀ img tileOffsets log,
     tags img !! TiffTag.TileOffsets = Some tileOffsets →
     0 ≤ tag_count tileOffsets →
     (∀ byteCounts, tags img !! TiffTag.TileByteCounts = Some byteCounts →
                    tag_count byteCounts = tag_count tileOffsets) →
     (getTileSize tiff img (tag_count tileOffsets) log).1 ≠ Err TagIndexOutOfBounds).
Proof.
  split; [apply getOffset_outOfBounds|].
  split; [apply getOffset_awaited|].
  intros img tileOffsets log Hto Hn Hbc.
  destruct (getOffset_within tiff tileOffsets (tag_count tileOffsets) ltac:(lia))
    as (r & Hr & Hr1 & Hr2).
  unfold getTileSize, tileOffset. rewrite Hto.
  destruct (truthy _) as [leaderBytes|].
  - rewrite bind_lift_Ok, Hr.
    destruct r as [p|e]; [|msimpl; congruence].
    rewrite bind_lift_Ok. specialize (Hr2 p eq_refl).
    destruct p as [[o|]|e]; [| |msimpl; congruence].
    + msimpl. destruct o as [|o|o]; [by msimpl|..].
      all: rewrite bind_run; unfold sourceFetch.
      all: destruct (fetch _ _ _) as [bytes|]; [|done]; cbn [imported].
      all: destruct (getUint _ _ _ _); by msimpl.
    + by msimpl.
  - destruct (tags img !! TiffTag.TileByteCounts) as [byteCounts|] eqn:Hb;
      [|by msimpl].
    specialize (Hbc _ eq_refl).
    destruct (getOffset_within tiff byteCounts (tag_count tileOffsets) ltac:(lia))
      as (r' & Hr' & Hr1' & Hr2').
    unfold promiseAll2. cbn [mbind Result_bind]. rewrite Hr, Hr'.
    destruct r as [p|e]; [|msimpl; congruence].
    destruct r' as [p'|e']; [|msimpl; congruence].
    specialize (Hr2 p eq_refl). specialize (Hr2' p' eq_refl).
    destruct p as [a|e]; [|msimpl; congruence].
    destruct p' as [a'|e']; [|msimpl; congruence].
    by msimpl.
Qed.

(** The tag TileOffsets of [squareImage] has count 4; [getTileSize 4] passes
    the bounds check and reads [undefined] past the end of both arrays. *)
Lemma getOffset_bounds_witness :
  (@getTileSize exampleImports (readerOf squareImage) squareImage
     (tag_count (inlineNumbers TiffTag.TileOffsets [1000; 0; 3000; 0])) []).1
  ≠ Err TagIndexOutOfBounds.
Proof.
  apply (proj2 (proj2 (@getOffset_bounds exampleImports (readerOf squareImage)))
           squareImage (inlineNumbers TiffTag.TileOffsets [1000; 0; 3000; 0]) []).
  - reflexivity.
  - vm_compute. discriminate.
  - intros byteCounts Hb. vm_compute in Hb. injection Hb as <-. reflexivity.
Defined.

(** ** Tile grid *)

Lemma ceiling_bounds a b : 0 < b → (ceiling a b - 1) * b < a ≤ ceiling a b * b.
Proof.
  intros Hb. unfold ceiling.
  pose proof (Z.div_mod (- a) b ltac:(lia)) as Hdm.
  pose proof (Z.mod_pos_bound (- a) b Hb) as Hm.
  nia.
Qed.

Lemma ceiling_nonneg a b : 0 ≤ a → 0 < b → 0 ≤ ceiling a b.
Proof. intros Ha Hb. pose proof (ceiling_bounds a b Hb). nia. Qed.

Lemma ceilDiv_ceiling a b : 0 < b → ceilDiv a b = Ok (ceiling a b).
Proof.
  intros Hb. unfold ceilDiv, ceiling.
  destruct (Z.eqb_spec b 0); [lia|done].
Qed.

Section TileGrid.

(** A tiled image of [w] by [h] pixels in tiles of [tw] by [th] pixels, and
    its grid of [nx] by [ny] tiles. *)
Context `{Imports} (tiff : CogTiff) (img : CogTiffImage) (w h tw th : Z).
Hypothesis Htiled : tiledImage img w h tw th.

Local Abbreviation nx := (ceiling w tw).
Local Abbreviation ny := (ceiling h th).

Lemma nx_nonneg : 0 ≤ nx.
Proof. unfold tiledImage in Htiled. apply ceiling_nonneg; lia. Qed.

Lemma ny_nonneg : 0 ≤ ny.
Proof. unfold tiledImage in Htiled. apply ceiling_nonneg; lia. Qed.

Lemma tileCount_tiledImage : tileCount img = Ok (nx, ny).
Proof.
  destruct Htiled as (Hw & Hh & Htw & Hth & _ & _ & Htw0 & Hth0).
  unfold tileCount, size, tileSize. cbn [width height].
  rewrite Hw, Hh, Htw, Hth. cbn.
  rewrite !ceilDiv_ceiling by done. done.
Qed.

(** The two counts as [getTile] and [hasTile] compute them. *)
Lemma nyTiles_tiledImage :
  (h ← as_int (height (size img)); th ← as_int (height (tileSize img)); ceilDiv h th)
  = Ok ny.
Proof.
  destruct Htiled as (Hw & Hh & Htw & Hth & _ & _ & Htw0 & Hth0).
  unfold size, tileSize. cbn [width height]. rewrite Hh, Hth. cbn.
  by apply ceilDiv_ceiling.
Qed.

Lemma nxTiles_tiledImage :
  (w ← as_int (width (size img)); tw ← as_int (width (tileSize img)); ceilDiv w tw)
  = Ok nx.
Proof.
  destruct Htiled as (Hw & Hh & Htw & Hth & _ & _ & Htw0 & Hth0).
  unfold size, tileSize. cbn [width height]. rewrite Hw, Htw. cbn.
  by apply ceilDiv_ceiling.
Qed.

(** Past its guards [getTile] is [getTileSize] at [y * nxTiles + x] followed
    by [getBytes]. *)
Lemma getTile_inRange x y :
  inRange nx ny x y →
  getTile tiff img x y =
    match compression img with
    | None => throw UnsupportedCompression
    | Some _ =>
        ts ← getTileSize tiff img (y * nx + x);
        getBytes tiff img (offset ts) (imageSize ts)
    end.
Proof.
  intros [Hx Hy]. unfold getTile.
  destruct (compression img); [|done].
  rewrite nyTiles_tiledImage, nxTiles_tiledImage, !bind_lift_Ok.
  rewrite bool_decide_eq_false_2 by lia.
  rewrite bool_decide_eq_false_2 by nia.
  done.
Qed.

(** C9. With [nx = ceil(width / tileWidth)] and [ny = ceil(height / tileHeight)]
    the index [y * nx + x] maps the tiles in range into [0, nx * ny), one to
    one and onto; and for a tile in range [getTile] passes both of its range
    guards: after the test of the compression it goes on to [getTileSize] at
    that index. *)
Theorem tile_index_bijection :
  tileCount img = Ok (nx, ny) ∧
  (∀ x y, inRange nx ny x y → 0 ≤ y * nx + x < nx * ny) ∧
  (∀ x y x' y', inRange nx ny x y → inRange nx ny x' y' →
     y * nx + x = y' * nx + x' → x = x' ∧ y = y') ∧
  (∀ i, 0 ≤ i < nx * ny → ∃ x y, inRange nx ny x y ∧ y * nx + x = i) ∧
  (∀ x y, inRange nx ny x y →
     getTile tiff img x y =
       match compression img with
       | None => throw UnsupportedCompression
       | Some _ =>
           ts ← getTileSize tiff img (y * nx + x);
           getBytes tiff img (offset ts) (imageSize ts)
       end).
Proof.
  pose proof nx_nonneg as Hnx. pose proof ny_nonneg as Hny.
  split; [apply tileCount_tiledImage|].
  split; [intros x y [Hx Hy]; nia|].
  split.
  { intros x y x' y' [Hx Hy] [Hx' Hy'] Heq.
    assert (y = y') by nia. subst. split; [lia|done]. }
  split.
  { intros i Hi. assert (0 < nx) by nia.
    exists (i mod nx), (i / nx).
    pose proof (Z.mod_pos_bound i nx ltac:(lia)).
    pose proof (Z.div_mod i nx ltac:(lia)).
    split; [|lia]. split; [lia|]. split; [apply Z.div_pos; lia|].
    apply Z.div_lt_upper_bound; lia. }
  apply getTile_inRange.
Qed.

(** C8, amended. For a tile in range [getTileBounds] returns the rectangle of
    the tile clamped to the image: it starts at [(x * tw, y * th)], lies
    inside the image, and is at most one tile wide and one tile high. In the
    last column the width is what is left of the image, [w - x * tw], which
    is less than the tile width exactly when [w] is not a multiple of it; in
    the last row the same holds of the height. *)
Theorem getTileBounds_clamped (x y : Z) :
  inRange nx ny x y →
  ∃ b, getTileBounds img x y = Ok b ∧
    bx b = x * tw ∧ by_ b = y * th ∧
    0 < bwidth b ≤ tw ∧ 0 < bheight b ≤ th ∧
    bx b + bwidth b ≤ w ∧ by_ b + bheight b ≤ h ∧
    (x = nx - 1 →
       bwidth b = w - x * tw ∧ (bwidth b < tw ↔ w mod tw ≠ 0)) ∧
    (y = ny - 1 →
       bheight b = h - y * th ∧ (bheight b < th ↔ h mod th ≠ 0)).
Proof.
  destruct Htiled as (Hw & Hh & Htw & Hth & Hw0 & Hh0 & Htw0 & Hth0).
  intros [Hx Hy].
  pose proof (ceiling_bounds w tw Htw0) as Hcw.
  pose proof (ceiling_bounds h th Hth0) as Hch.
  unfold getTileBounds, size, tileSize. cbn [width height].
  rewrite Hw, Hh, Htw, Hth. cbn.
  eexists. split; [reflexivity|]. cbn.
  assert (Hxw : x * tw < w) by nia.
  assert (Hyh : y * th < h) by nia.
  split; [done|]. split; [done|].
  split; [destruct (Z.leb_spec w (x * tw + tw)); lia|].
  split; [destruct (Z.leb_spec h (y * th + th)); lia|].
  split; [destruct (Z.leb_spec w (x * tw + tw)); lia|].
  split; [destruct (Z.leb_spec h (y * th + th)); lia|].
  split.
  - intros ->. destruct (Z.leb_spec w ((nx - 1) * tw + tw)); [|nia].
    split; [done|].
    rewrite Z.mod_divide by lia. split.
    + intros Hlt [q Hq].
      assert (nx - 1 < q) by nia. assert (q < nx) by nia. lia.
    + intros Hnd. destruct (decide (w = nx * tw)) as [Heq|Hne]; [|lia].
      exfalso. apply Hnd. by exists nx.
  - intros ->. destruct (Z.leb_spec h ((ny - 1) * th + th)); [|nia].
    split; [done|].
    rewrite Z.mod_divide by lia. split.
    + intros Hlt [q Hq].
      assert (ny - 1 < q) by nia. assert (q < ny) by nia. lia.
    + intros Hnd. destruct (decide (h = ny * th)) as [Heq|Hne]; [|lia].
      exfalso. apply Hnd. by exists ny.
Qed.

(** At or past the upper bounds [hasTile] answers false and asks nothing of
    the Source. *)
Lemma hasTile_beyond x y log :
  nx ≤ x ∨ ny ≤ y → hasTile tiff img x y log = (Ok false, log).
Proof.
  intros Hxy. unfold hasTile.
  rewrite nyTiles_tiledImage, nxTiles_tiledImage, !bind_lift_Ok.
  by rewrite bool_decide_eq_true_2 by lia.
Qed.

(** In range [hasTile] is the test [offset > 0] on what [getTileSize] gives. *)
Lemma hasTile_inRange x y :
  inRange nx ny x y →
  hasTile tiff img x y =
    (ret_ ← getTileSize tiff img (y * nx + x);
     mret (match offset ret_ with Some o => bool_decide (o > 0) | None => false end)).
Proof.
  intros [Hx Hy]. unfold hasTile.
  rewrite nyTiles_tiledImage, nxTiles_tiledImage, !bind_lift_Ok.
  by rewrite bool_decide_eq_false_2 by lia.
Qed.

(** Below the lower bounds nothing stops [hasTile]: with a negative index it
    ends in the out-of-bounds error of [getOffset]. *)
Lemma hasTile_negative_index x y tileOffsets log :
  x < nx → y < ny → y * nx + x < 0 →
  tags img !! TiffTag.TileOffsets = Some tileOffsets →
  is_Some (truthy (options tiff ≫= tileLeaderByteSize))
  ∨ is_Some (tags img !! TiffTag.TileByteCounts) →
  hasTile tiff img x y log = (Err TagIndexOutOfBounds, log).
Proof.
  intros Hx Hy Hidx Hto Hmode. unfold hasTile.
  rewrite nyTiles_tiledImage, nxTiles_tiledImage, !bind_lift_Ok.
  rewrite bool_decide_eq_false_2 by lia.
  assert (Hoob : getOffset tiff tileOffsets (y * nx + x) = Err TagIndexOutOfBounds)
    by (apply getOffset_outOfBounds; lia).
  rewrite bind_run. unfold getTileSize, tileOffset. rewrite Hto.
  destruct (truthy _) as [leaderBytes|].
  - by rewrite bind_lift_Ok, Hoob.
  - destruct Hmode as [[? [=]]|[byteCounts ->]].
    unfold promiseAll2. cbn [mbind Result_bind]. by rewrite Hoob.
Qed.

(** Where a recorded offset of 0 does give [null]: on a tiled image with a
    supported compression, for a tile in range whose recorded offset is 0
    and, when no tile leader is announced, whose recorded byte count is 0 as
    well, [getTile] returns [null] without an error and sends neither a
    leader read nor a body read. *)
Lemma getTile_sparse (x y : Z) (mime : TiffMimeType) (tileOffsets : Tag)
    (log : FetchLog) :
  compression img = Some mime →
  inRange nx ny x y →
  let idx := y * nx + x in
  tags img !! TiffTag.TileOffsets = Some tileOffsets →
  getOffset tiff tileOffsets idx = Ok (Ok (Some 0)) →
  (truthy (options tiff ≫= tileLeaderByteSize) = None →
   ∃ byteCounts, tags img !! TiffTag.TileByteCounts = Some byteCounts ∧
                 getOffset tiff byteCounts idx = Ok (Ok (Some 0))) →
  getTile tiff img x y log = (Ok None, log).
Proof.
  intros Hc Hxy idx Hto Hoff Hbc.
  rewrite (getTile_inRange x y Hxy), Hc.
  fold idx. unfold getTileSize, tileOffset. rewrite Hto.
  destruct (truthy _) as [leaderBytes|].
  - rewrite bind_lift_Ok, Hoff. msimpl.
    unfold getBytes. cbn [offset imageSize]. by rewrite Hc.
  - destruct Hbc as (byteCounts & -> & Hcnt); [done|].
    unfold promiseAll2. cbn [mbind Result_bind]. rewrite Hoff, Hcnt. msimpl.
    unfold getBytes. cbn [offset imageSize]. by rewrite Hc.
Qed.

End TileGrid.

Lemma tile_index_bijection_witness :
  let nx := ceiling 300 256 in
  let ny := ceiling 600 256 in
  tileCount raggedImage = Ok (nx, ny) ∧
  (∀ x y, inRange nx ny x y → 0 ≤ y * nx + x < nx * ny) ∧
  (∀ x y x' y', inRange nx ny x y → inRange nx ny x' y' →
     y * nx + x = y' * nx + x' → x = x' ∧ y = y') ∧
  (∀ i, 0 ≤ i < nx * ny → ∃ x y, inRange nx ny x y ∧ y * nx + x = i) ∧
  (∀ x y, inRange nx ny x y →
     @getTile exampleImports (readerOf raggedImage) raggedImage x y =
       match @compression exampleImports raggedImage with
       | None => throw UnsupportedCompression
       | Some _ =>
           ts ← @getTileSize exampleImports (readerOf raggedImage) raggedImage
                  (y * nx + x);
           @getBytes exampleImports (readerOf raggedImage) raggedImage
             (offset ts) (imageSize ts)
       end).
Proof.
  apply (@tile_index_bijection exampleImports (readerOf raggedImage) raggedImage
           300 600 256 256).
  repeat split; try reflexivity; lia.
Defined.

(** ** Tile bounds *)

(** C8, as stated, fails: the image of 512 by 512 pixels is a whole number of
    tiles of 256 by 256, and the tile (1, 1), in the last column and the last
    row, has the full tile width and height. *)
Lemma getTileBounds_full_edge_tile :
  tiledImage squareImage 512 512 256 256 ∧
  tileCount squareImage = Ok (2, 2) ∧
  getTileBounds squareImage 1 1 =
    Ok {| bx := 256; by_ := 256; bwidth := 256; bheight := 256 |} ∧
  ¬ (∃ b, getTileBounds squareImage 1 1 = Ok b ∧ bwidth b < 256 ∧ bheight b < 256).
Proof.
  split; [repeat split; try reflexivity; lia|].
  split; [reflexivity|].
  split; [reflexivity|].
  intros (b & Hb & Hlt & _).
  vm_compute in Hb. injection Hb as <-. cbn in Hlt. lia.
Qed.

(** A tile of the last column above the last row keeps the full tile height. *)
Example getTileBounds_last_column :
  getTileBounds raggedImage 1 0 =
    Ok {| bx := 256; by_ := 0; bwidth := 44; bheight := 256 |}.
Proof. reflexivity. Qed.

Lemma getTileBounds_clamped_witness :
  ∃ b, getTileBounds raggedImage 1 2 = Ok b ∧
    bx b = 1 * 256 ∧ by_ b = 2 * 256 ∧
    0 < bwidth b ≤ 256 ∧ 0 < bheight b ≤ 256 ∧
    bx b + bwidth b ≤ 300 ∧ by_ b + bheight b ≤ 600 ∧
    (1 = ceiling 300 256 - 1 →
       bwidth b = 300 - 1 * 256 ∧ (bwidth b < 256 ↔ 300 mod 256 ≠ 0)) ∧
    (2 = ceiling 600 256 - 1 →
       bheight b = 600 - 2 * 256 ∧ (bheight b < 256 ↔ 600 mod 256 ≠ 0)).
Proof.
  apply (getTileBounds_clamped raggedImage 300 600 256 256).
  - repeat split; try reflexivity; lia.
  - vm_compute. repeat split; discriminate.
Defined.

(** ** [hasTile] *)

(** C5 at negative coordinates. [raggedImage] has two columns and three rows
    of tiles, all with data. The tile (-1, 0) is out of range, and [hasTile]
    ends in the out-of-bounds error of [getOffset]; the tile (-1, 1) is out
    of range, and [hasTile] answers true, from the entry of the tile (1, 0). *)
Theorem hasTile_negative_x :
  tiledImage raggedImage 300 600 256 256 ∧
  tileCount raggedImage = Ok (2, 3) ∧
  ¬ inRange 2 3 (-1) 0 ∧ ¬ inRange 2 3 (-1) 1 ∧
  @hasTile exampleImports (readerOf raggedImage) raggedImage (-1) 0 []
    = (Err TagIndexOutOfBounds, []) ∧
  @hasTile exampleImports (readerOf raggedImage) raggedImage (-1) 1 []
    = (Ok true, []).
Proof.
  split; [repeat split; try reflexivity; lia|].
  split; [reflexivity|].
  split; [unfold inRange; lia|]. split; [unfold inRange; lia|].
  split; reflexivity.
Qed.

(** ** Body reads *)

(** [getBytes] past its two guards. *)
Lemma getBytes_nonzero `{Imports} tiff img o c mime :
  compression img = Some mime →
  c ≠ 0 →
  getBytes tiff img (Some o) (Some c) =
    (bytes ← sourceFetch tiff ImageBytes o c;
     if Z.of_nat (length bytes) <? c then throw FailedToFetchBytes
     else if bool_decide (compression img = Some TiffMimeType.Jpeg) then
       b ← lift (getJpegHeader img bytes); mret (Some (mime, b))
     else mret (Some (mime, bytes))).
Proof. intros Hc Hnz. unfold getBytes. rewrite Hc. by destruct c. Qed.

(** [getBytes] with a supported compression and a byte count other than 0:
    one body request, then the bytes, spliced when the image is JPEG. *)
Lemma getBytes_fetch `{Imports} tiff img off cnt mime bytes log :
  compression img = Some mime →
  cnt ≠ 0 →
  fetch (source tiff) off cnt = Some bytes →
  cnt ≤ Z.of_nat (length bytes) →
  getBytes tiff img (Some off) (Some cnt) log =
    ((if bool_decide (mime = TiffMimeType.Jpeg)
      then b ← getJpegHeader img bytes; Ok (Some (mime, b))
      else Ok (Some (mime, bytes))),
     log ++ [{| site := ImageBytes; fetchOffset := off; fetchLength := cnt |}]).
Proof.
  intros Hc Hnz Hfetch Hlen.
  assert (Hstep : getBytes tiff img (Some off) (Some cnt) =
    (bytes ← sourceFetch tiff ImageBytes off cnt;
     if Z.of_nat (length bytes) <? cnt then throw FailedToFetchBytes
     else if bool_decide (compression img = Some TiffMimeType.Jpeg) then
       b ← lift (getJpegHeader img bytes); mret (Some (mime, b))
     else mret (Some (mime, bytes)))).
  { unfold getBytes. rewrite Hc. by destruct cnt. }
  rewrite Hstep, bind_run. unfold sourceFetch. rewrite Hfetch. cbn [imported].
  destruct (Z.ltb_spec (Z.of_nat (length bytes)) cnt) as [|_]; [lia|].
  rewrite Hc.
  destruct (decide (mime = TiffMimeType.Jpeg)) as [->|Hne].
  - rewrite !bool_decide_eq_true_2 by done.
    destruct (getJpegHeader img bytes); by msimpl.
  - rewrite !bool_decide_eq_false_2 by congruence. done.
Qed.

(** ** Sparse tiles *)

Section SparseTile.

Context `{Imports} (tiff : CogTiff) (img : CogTiffImage) (w h tw th : Z).
Hypothesis Htiled : tiledImage img w h tw th.

Local Abbreviation nx := (ceiling w tw).
Local Abbreviation ny := (ceiling h th).

(** C2. A recorded offset of 0 does not make [getTile] return [null]. On a
    tiled image with a supported compression and no tile leader announced,
    for a tile in range whose recorded offset is 0 and whose recorded byte
    count [c] is not 0: [hasTile] answers false, yet [getTile] sends the body
    read of [c] bytes at offset 0 and does not return [null]; when the Source
    delivers the range it returns these bytes, the first of the file, as the
    tile. With a tile leader announced, [getTile] returns [null] for the
    same tile and sends neither a leader read nor a body read. *)
Theorem getTile_offset_zero_fetches (x y : Z) (mime : TiffMimeType)
    (tileOffsets byteCounts : Tag) (c : Z) (log : FetchLog) :
  compression img = Some mime →
  inRange nx ny x y →
  let idx := y * nx + x in
  tags img !! TiffTag.TileOffsets = Some tileOffsets →
  tags img !! TiffTag.TileByteCounts = Some byteCounts →
  getOffset tiff tileOffsets idx = Ok (Ok (Some 0)) →
  getOffset tiff byteCounts idx = Ok (Ok (Some c)) →
  c ≠ 0 →
  truthy (options tiff ≫= tileLeaderByteSize) = None →
  hasTile tiff img x y log = (Ok false, log) ∧
  (getTile tiff img x y log).2 =
    log ++ [{| site := ImageBytes; fetchOffset := 0; fetchLength := c |}] ∧
  (getTile tiff img x y log).1 ≠ Ok None ∧
  (∀ bytes, fetch (source tiff) 0 c = Some bytes →
            c ≤ Z.of_nat (length bytes) →
            mime ≠ TiffMimeType.Jpeg →
            (getTile tiff img x y log).1 = Ok (Some (mime, bytes))) ∧
  (∀ leaderTiff : CogTiff,
     is_Some (truthy (options leaderTiff ≫= tileLeaderByteSize)) →
     getOffset leaderTiff tileOffsets idx = Ok (Ok (Some 0)) →
     getTile leaderTiff img x y log = (Ok None, log)).
Proof.
  intros Hc Hxy idx Hto Hbc Hoff Hcnt Hnz Hleader.
  assert (Hsize : getTileSize tiff img idx log =
            (Ok {| offset := Some 0; imageSize := Some c |}, log)).
  { unfold getTileSize, tileOffset. rewrite Hleader, Hbc, Hto.
    unfold promiseAll2. cbn [mbind Result_bind]. rewrite Hoff, Hcnt.
    by msimpl. }
  assert (Htile : getTile tiff img x y log =
            getBytes tiff img (Some 0) (Some c) log).
  { rewrite (getTile_inRange tiff img w h tw th Htiled x y Hxy), Hc.
    fold idx. by rewrite bind_run, Hsize. }
  split.
  { rewrite (hasTile_inRange tiff img w h tw th Htiled x y Hxy).
    fold idx. rewrite bind_run, Hsize. cbn [offset].
    by rewrite bool_decide_eq_false_2 by lia. }
  split_and!.
  - rewrite Htile, (getBytes_nonzero tiff img 0 c mime Hc Hnz), bind_run.
    unfold sourceFetch. destruct (fetch (source tiff) 0 c) as [bytes|]; [|done].
    cbn [imported]. destruct (Z.of_nat (length bytes) <? c); [done|].
    case_bool_decide; [|done]. by destruct (getJpegHeader img bytes).
  - rewrite Htile, (getBytes_nonzero tiff img 0 c mime Hc Hnz), bind_run.
    unfold sourceFetch. destruct (fetch (source tiff) 0 c) as [bytes|]; [|done].
    cbn [imported]. destruct (Z.of_nat (length bytes) <? c); [done|].
    case_bool_decide; [|done]. by destruct (getJpegHeader img bytes).
  - intros bytes Hfetch Hlen Hne.
    rewrite Htile, (getBytes_fetch tiff img 0 c mime bytes log Hc Hnz Hfetch Hlen).
    cbn [fst]. by rewrite bool_decide_eq_false_2 by done.
  - intros leaderTiff [l Hl] Hoff'.
    apply (getTile_sparse leaderTiff img w h tw th Htiled x y mime tileOffsets log);
      try done.
    intros Hnone. by rewrite Hl in Hnone.
Qed.

End SparseTile.

Lemma getTile_offset_zero_fetches_witness :
  @hasTile exampleImports (readerOf squareImage) squareImage 1 1 []
    = (Ok false, []) ∧
  (@getTile exampleImports (readerOf squareImage) squareImage 1 1 []).2 =
    [] ++ [{| site := ImageBytes; fetchOffset := 0; fetchLength := 5 |}] ∧
  (@getTile exampleImports (readerOf squareImage) squareImage 1 1 []).1 ≠ Ok None ∧
  (∀ bytes, fetch (source (readerOf squareImage)) 0 5 = Some bytes →
            5 ≤ Z.of_nat (length bytes) →
            TiffMimeType.Lzw ≠ TiffMimeType.Jpeg →
            (@getTile exampleImports (readerOf squareImage) squareImage 1 1 []).1
              = Ok (Some (TiffMimeType.Lzw, bytes))) ∧
  (∀ leaderTiff : CogTiff,
     is_Some (truthy (options leaderTiff ≫= tileLeaderByteSize)) →
     @getOffset exampleImports leaderTiff
       (inlineNumbers TiffTag.TileOffsets [1000; 0; 3000; 0])
       (1 * ceiling 512 256 + 1) = Ok (Ok (Some 0)) →
     @getTile exampleImports leaderTiff squareImage 1 1 [] = (Ok None, [])).
Proof.
  apply (@getTile_offset_zero_fetches exampleImports (readerOf squareImage)
           squareImage 512 512 256 256
           ltac:(repeat split; try reflexivity; lia)
           1 1 TiffMimeType.Lzw
           (inlineNumbers TiffTag.TileOffsets [1000; 0; 3000; 0])
           (inlineNumbers TiffTag.TileByteCounts [10; 0; 30; 5]) 5 []).
  - reflexivity.
  - vm_compute. repeat split; discriminate.
  - reflexivity.
  - reflexivity.
  - reflexivity.
  - reflexivity.
  - lia.
  - reflexivity.
Defined.

(** The same tile of [squareImage], evaluated: without a tile leader the
    first five bytes of the file come back as the tile; with the tile leader
    announced the answer is [null] and neither read is sent. *)
Example getTile_offset_zero_evaluated :
  @getTile exampleImports (readerOf squareImage) squareImage 1 1 []
    = (Ok (Some (TiffMimeType.Lzw, [0; 0; 0; 0; 0])),
       [{| site := ImageBytes; fetchOffset := 0; fetchLength := 5 |}]) ∧
  @getTile exampleImports (leaderReaderOf squareImage) squareImage 1 1 []
    = (Ok None, []).
Proof. split; reflexivity. Qed.

(** Tile (1, 0) of [squareImage], recorded at offset 0 with a byte count of
    0, is answered with [null]. *)
Example getTile_sparse_example :
  @getTile exampleImports (readerOf squareImage) squareImage 1 0 [] = (Ok None, []).
Proof.
  apply (@getTile_sparse exampleImports (readerOf squareImage) squareImage
           512 512 256 256 ltac:(repeat split; try reflexivity; lia)
           1 0 TiffMimeType.Lzw
           (inlineNumbers TiffTag.TileOffsets [1000; 0; 3000; 0]) []).
  - reflexivity.
  - vm_compute. repeat split; discriminate.
  - reflexivity.
  - reflexivity.
  - intros _. exists (inlineNumbers TiffTag.TileByteCounts [10; 0; 30; 5]).
    split; reflexivity.
Qed.

(** ** Strips *)



(** The LZW strip of [stripedImage], evaluated: one body read of 16 bytes at
    offset 8, and the 16 bytes delivered come back. *)
Example getStrip_fetch_evaluated :
  @getStrip exampleImports (readerOf stripedImage) stripedImage 0 []
    = (Ok (Some (TiffMimeType.Lzw, replicate 16 0)),
       [{| site := ImageBytes; fetchOffset := 8; fetchLength := 16 |}]).
Proof. reflexivity. Qed.


(** ** JPEG header splicing *)

Lemma slice_take {A} (l : list A) (n : Z) :
  0 ≤ n ≤ Z.of_nat (length l) → slice l 0 n = take (Z.to_nat n) l.
Proof.
  intros Hn. unfold slice, relativeIndex. cbn [Z.ltb Z.compare].
  destruct (Z.ltb_spec n 0); [lia|].
  rewrite Z.min_l, Z.min_l by lia. cbn [Z.to_nat drop]. by rewrite Z.sub_0_r.
Qed.

Lemma slice_drop {A} (l : list A) (n : Z) :
  0 ≤ n ≤ Z.of_nat (length l) →
  slice l n (Z.of_nat (length l)) = drop (Z.to_nat n) l.
Proof.
  intros Hn. unfold slice, relativeIndex.
  destruct (Z.ltb_spec n 0); [lia|].
  destruct (Z.ltb_spec (Z.of_nat (length l)) 0); [lia|].
  rewrite Z.min_l, Z.min_l by lia.
  apply take_ge. rewrite length_drop. lia.
Qed.

Lemma typedArraySet_fits (dst src : list Z) (offset : Z) :
  0 ≤ offset →
  offset + Z.of_nat (length src) ≤ Z.of_nat (length dst) →
  typedArraySet dst src offset =
    Ok (take (Z.to_nat offset) dst ++ src
        ++ drop (Z.to_nat offset + length src) dst).
Proof.
  intros Ho Hfit. unfold typedArraySet.
  destruct (Z.ltb_spec (Z.of_nat (length dst)) (offset + Z.of_nat (length src)));
    [lia|done].
Qed.

(** [dst.set(src, 0)] then [dst.set(src', |src|)] on a fresh array of
    [|src| + |src'|] elements gives [src ++ src']. *)
Lemma typedArraySet_twice (src src' : list Z) :
  (dst ← newUint8Array (Z.of_nat (length src) + Z.of_nat (length src'));
   dst ← typedArraySet dst src 0;
   typedArraySet dst src' (Z.of_nat (length src))) = Ok (src ++ src').
Proof.
  unfold newUint8Array.
  destruct (Z.ltb_spec (Z.of_nat (length src) + Z.of_nat (length src')) 0); [lia|].
  cbn [mbind Result_bind].
  rewrite typedArraySet_fits by (rewrite ?length_replicate; lia).
  cbn [mbind Result_bind Z.to_nat take Nat.add app].
  rewrite typedArraySet_fits
    by (rewrite ?length_app, ?length_drop, ?length_replicate; lia).
  change (Z.to_nat 0) with 0%nat. rewrite !take_0. cbn [app Nat.add].
  rewrite Nat2Z.id, take_app_length.
  rewrite drop_ge; [by rewrite app_nil_r|].
  rewrite length_app, length_drop, length_replicate. lia.
Qed.

(** [getJpegHeader]: the tables without their last two bytes, then the bytes
    without their first two. *)
Lemma getJpegHeader_splice img tables bytes :
  value img TiffTag.JPEGTables = Some (VNumbers tables) →
  (2 ≤ length tables)%nat →
  (2 ≤ length bytes)%nat →
  getJpegHeader img bytes =
    Ok ((toUint8 <$> take (length tables - 2) tables) ++ drop 2 bytes).
Proof.
  intros Hv Ht Hb. unfold getJpegHeader. rewrite Hv.
  rewrite slice_take by lia. rewrite slice_drop by lia.
  replace (Z.to_nat (Z.of_nat (length tables) - 2)) with (length tables - 2)%nat by lia.
  change (Z.to_nat 2) with 2%nat.
  set (src := toUint8 <$> take (length tables - 2) tables).
  set (src' := drop 2 bytes).
  pose proof (typedArraySet_twice src src') as Htwice.
  assert (Hs : length src = length (take (length tables - 2) tables))
    by (unfold src; apply length_fmap).
  assert (Hs' : length src' = (length bytes - 2)%nat)
    by (unfold src'; apply length_drop).
  rewrite <- Hs.
  replace (Z.of_nat (length bytes) + Z.of_nat (length src) - 2)
    with (Z.of_nat (length src) + Z.of_nat (length src')) by lia.
  destruct (newUint8Array _) as [d0|e]; [|done]. cbn [mbind Result_bind] in *.
  destruct (typedArraySet d0 src 0) as [d1|e]; [|done]. cbn [mbind Result_bind] in *.
  by destruct (typedArraySet d1 src' _).
Qed.

(** C7. On a JPEG image whose JPEG tables begin with SOI (FF D8) and go on for
    at least two more bytes, for a payload that has at least two bytes before
    its final EOI (FF D9), [getBytes] returns the tables without their last
    two bytes followed by the payload without its first two: [L + T - 4]
    bytes that begin with FF D8 and end with FF D9. *)
Theorem getBytes_jpeg `{Imports} (tiff : CogTiff) (img : CogTiffImage)
    (off cnt : Z) (tables payload tmid body : list Z) (e1 e2 s1 s2 : Z)
    (log : FetchLog) :
  compression img = Some TiffMimeType.Jpeg →
  value img TiffTag.JPEGTables = Some (VNumbers tables) →
  tables = [255; 216] ++ tmid ++ [e1; e2] →
  cnt ≠ 0 →
  fetch (source tiff) off cnt = Some payload →
  cnt ≤ Z.of_nat (length payload) →
  payload = [s1; s2] ++ body ++ [255; 217] →
  ∃ out,
    getBytes tiff img (Some off) (Some cnt) log =
      (Ok (Some (TiffMimeType.Jpeg, out)),
       log ++ [{| site := ImageBytes; fetchOffset := off; fetchLength := cnt |}]) ∧
    out = (toUint8 <$> take (length tables - 2) tables) ++ drop 2 payload ∧
    Z.of_nat (length out) = Z.of_nat (length tables) + Z.of_nat (length payload) - 4 ∧
    take 2 out = [255; 216] ∧
    drop (length out - 2) out = [255; 217].
Proof.
  intros Hc Hv Htab Hnz Hfetch Hlen Hpay.
  assert (Htl : length tables = (length tmid + 4)%nat)
    by (subst tables; rewrite !length_app; cbn; lia).
  assert (Hpl : length payload = (length body + 4)%nat)
    by (subst payload; rewrite !length_app; cbn; lia).
  eexists. split.
  { rewrite (getBytes_fetch tiff img off cnt _ payload log) by done.
    rewrite bool_decide_eq_true_2 by done.
    rewrite (getJpegHeader_splice img tables payload) by (done || lia).
    reflexivity. }
  split; [done|].
  assert (Htake : take (length tables - 2) tables = [255; 216] ++ tmid).
  { rewrite Htl. subst tables. rewrite app_assoc.
    apply take_app_length'. rewrite length_app. cbn. lia. }
  assert (Hdrop : drop 2 payload = body ++ [255; 217]) by (by subst payload).
  rewrite Htake, Hdrop. split; [|split].
  - rewrite length_app, length_fmap, !length_app. cbn. lia.
  - done.
  - rewrite app_assoc. apply drop_app_length'.
    rewrite !length_app, length_fmap, !length_app. cbn. lia.
Qed.

Lemma getBytes_jpeg_witness :
  ∃ out,
    @getBytes exampleImports jpegReader jpegImage (Some 1000) (Some 12) [] =
      (Ok (Some (TiffMimeType.Jpeg, out)),
       [] ++ [{| site := ImageBytes; fetchOffset := 1000; fetchLength := 12 |}]) ∧
    out = (toUint8 <$> take (length [255; 216; 255; 219; 255; 217] - 2)
                         [255; 216; 255; 219; 255; 217])
          ++ drop 2 ([255; 216] ++ replicate 8 0 ++ [255; 217]) ∧
    Z.of_nat (length out) =
      Z.of_nat (length [255; 216; 255; 219; 255; 217])
      + Z.of_nat (length ([255; 216] ++ replicate 8 0 ++ [255; 217])) - 4 ∧
    take 2 out = [255; 216] ∧
    drop (length out - 2) out = [255; 217].
Proof.
  apply (@getBytes_jpeg exampleImports jpegReader jpegImage 1000 12
           [255; 216; 255; 219; 255; 217]
           ([255; 216] ++ replicate 8 0 ++ [255; 217])
           [255; 219] (replicate 8 0) 255 217 255 216 []).
  - reflexivity.
  - reflexivity.
  - reflexivity.
  - discriminate.
  - reflexivity.
  - vm_compute. discriminate.
  - reflexivity.
Defined.

(** The same tile through [getTile]: 6 + 12 - 4 bytes. *)
Example getTile_jpeg :
  @getTile exampleImports jpegReader jpegImage 0 0 [] =
    (Ok (Some (TiffMimeType.Jpeg,
               [255; 216; 255; 219; 0; 0; 0; 0; 0; 0; 0; 0; 255; 217])),
     [{| site := ImageBytes; fetchOffset := 1000; fetchLength := 12 |}]).
Proof. vm_compute. reflexivity. Qed.

(** ** GeoKeys *)

(** C4, as stated, fails: with the key (1026, 34737, 11, 0) and GeoAsciiParams
    "WGS 84|foo|", [loadGeoTiffTags] completes and [valueGeo] of
    GTCitationGeoKey is "WGS 84|foo", the first ten characters, not "WGS 84". *)
Lemma valueGeo_citation_not_WGS84 :
  let run := @loadGeoTiffTags exampleImports (readerOf geoImage) geoImage in
  run.1 = Ok tt ∧
  valueGeo run.2 TiffTagGeo.GTCitationGeoKey = Ok (Some (GeoString "WGS 84|foo")) ∧
  valueGeo run.2 TiffTagGeo.GTCitationGeoKey ≠ Ok (Some (GeoString "WGS 84")).
Proof.
  assert (Hrun : valueGeo (@loadGeoTiffTags exampleImports (readerOf geoImage) geoImage).2
                   TiffTagGeo.GTCitationGeoKey = Ok (Some (GeoString "WGS 84|foo")))
    by (vm_compute; reflexivity).
  cbv zeta. split; [vm_compute; reflexivity|]. split; [exact Hrun|].
  rewrite Hrun. discriminate.
Qed.

Lemma forEach_app {S A} (l1 l2 : list A) (body : A → M S unit) (s : S) :
  forEach (l1 ++ l2) body s =
    match forEach l1 body s with
    | (Ok _, s1) => forEach l2 body s1
    | (Err e, s1) => (Err e, s1)
    end.
Proof.
  revert s. induction l1 as [|a l1 IH]; intros s; [done|].
  cbn [app forEach]. rewrite !bind_run.
  destruct (body a s) as [[[]|e] s1]; [apply IH|done].
Qed.

(** A step of the loop writes [tagsGeo] only, and only at its own key. *)
Lemma geoKeyStep_frame geoTags i s r s' key :
  geoKeyStep geoTags i s = (r, s') →
  tags s' = tags s ∧ isGeoTagsLoaded s' = isGeoTagsLoaded s ∧
  (geoTags !! i ≠ Some key → tagsGeo s' !! key = tagsGeo s !! key).
Proof.
  unfold geoKeyStep.
  destruct (geoTags !! (i + 1)%nat) as [loc|]; [|by intros [= <- <-]].
  destruct (geoTags !! i) as [k|];
    [|by destruct loc; intros [= <- <-]].
  assert (Hset : ∀ v, tags (setTagGeo k v s) = tags s ∧
            isGeoTagsLoaded (setTagGeo k v s) = isGeoTagsLoaded s ∧
            (Some k ≠ Some key → tagsGeo (setTagGeo k v s) !! key = tagsGeo s !! key)).
  { intros v. split; [done|]. split; [done|].
    intros Hk. cbn. apply lookup_insert_ne. congruence. }
  destruct loc as [|p|p].
  - intros [= <- <-]. apply Hset.
  - rewrite bind_run. cbn [get].
    destruct (tags s !! Z.pos p ≫= tag_value) as [[]|]; intros [= <- <-];
      solve [done | apply Hset].
  - rewrite bind_run. cbn [get].
    destruct (tags s !! Z.neg p ≫= tag_value) as [[]|]; intros [= <- <-];
      solve [done | apply Hset].
Qed.

Lemma geoKeyLoop_frame geoTags (ks : list nat) s r s' key :
  forEach ((λ k, 4 * k)%nat <$> ks) (geoKeyStep geoTags) s = (r, s') →
  tags s' = tags s ∧ isGeoTagsLoaded s' = isGeoTagsLoaded s ∧
  (Forall (λ k, geoTags !! (4 * k)%nat ≠ Some key) ks →
   tagsGeo s' !! key = tagsGeo s !! key).
Proof.
  revert s. induction ks as [|k ks IH]; intros s.
  - intros [= <- <-]. done.
  - cbn [fmap list_fmap forEach]. rewrite bind_run.
    destruct (geoKeyStep geoTags (4 * k) s) as [r1 s1] eqn:Hstep.
    destruct (geoKeyStep_frame _ _ _ _ _ key Hstep) as (Ht & Hl & Hk).
    destruct r1 as [[]|e].
    + intros Hrest. destruct (IH _ Hrest) as (Ht' & Hl' & Hk').
      split; [congruence|]. split; [congruence|].
      intros Hall. apply Forall_cons in Hall as [Hk0 Hall].
      rewrite Hk' by done. by apply Hk.
    + intros [= <- <-]. split; [done|]. split; [done|].
      intros Hall. apply Forall_cons in Hall as [Hk0 Hall]. by apply Hk.
Qed.

(** The step at the key (1026, 34737, 11, 0) with GeoAsciiParams
    "WGS 84|foo|" stores "WGS 84|foo". *)
Lemma geoKeyStep_citation geoTags i s asciiTag :
  geoTags !! i = Some 1026 →
  geoTags !! (i + 1)%nat = Some 34737 →
  geoTags !! (i + 2)%nat = Some 11 →
  geoTags !! (i + 3)%nat = Some 0 →
  tags s !! TiffTag.GeoAsciiParams = Some asciiTag →
  tag_value asciiTag = Some (VString "WGS 84|foo|") →
  geoKeyStep geoTags i s =
    (Ok tt, setTagGeo 1026 (GeoString "WGS 84|foo") s).
Proof.
  intros H0 H1 H2 H3 Ha Hv. unfold geoKeyStep.
  rewrite H0, H1, H2, H3. rewrite bind_run. cbn [get].
  change 34737 with TiffTag.GeoAsciiParams. rewrite Ha. cbn [mbind option_bind].
  rewrite Hv. reflexivity.
Qed.

(** C4, amended. When the GeoKeyDirectory holds, among the keys it counts,
    the key (1026, 34737, 11, 0), no later key has the id 1026, GeoAsciiParams
    is "WGS 84|foo|" and [loadGeoTiffTags] completes, [valueGeo] of
    GTCitationGeoKey is "WGS 84|foo": characters 0 to 10 of the string, which
    drops the final pipe only. *)
Theorem loadGeoTiffTags_citation `{Imports} (tiff : CogTiff) (img img' : CogTiffImage)
    (dirTag asciiTag : Tag) (geoTags : list Z) (n : Z) (k : nat) :
  isGeoTagsLoaded img = false →
  tags img !! TiffTag.GeoKeyDirectory = Some dirTag →
  tag_value dirTag = Some (VNumbers geoTags) →
  tags img !! TiffTag.GeoAsciiParams = Some asciiTag →
  tag_value asciiTag = Some (VString "WGS 84|foo|") →
  geoTags !! 3%nat = Some n →
  (1 ≤ k ≤ Z.to_nat n)%nat →
  geoTags !! (4 * k)%nat = Some 1026 →
  geoTags !! (4 * k + 1)%nat = Some 34737 →
  geoTags !! (4 * k + 2)%nat = Some 11 →
  geoTags !! (4 * k + 3)%nat = Some 0 →
  (∀ j, (k < j ≤ Z.to_nat n)%nat → geoTags !! (4 * j)%nat ≠ Some 1026) →
  loadGeoTiffTags tiff img = (Ok tt, img') →
  valueGeo img' TiffTagGeo.GTCitationGeoKey = Ok (Some (GeoString "WGS 84|foo")).
Proof.
  intros Hl Hd Hdv Ha Hav Hn Hk H0 H1 H2 H3 Hlater.
  unfold loadGeoTiffTags. rewrite bind_run. cbn [get]. rewrite Hl, Hd.
  assert (Hnofetch :
    (match dirTag with
     | TagLazy _ _ None =>
         andAlso (fetchTag tiff TiffTag.GeoKeyDirectory)
           (andAlso (fetchTag tiff TiffTag.GeoAsciiParams)
              (fetchTag tiff TiffTag.GeoDoubleParams))
     | _ => mret tt
     end) = (mret tt : M CogTiffImage unit)).
  { destruct dirTag as [| |? ? []]; done. }
  rewrite Hnofetch, bind_mret, bind_run. cbn [modify].
  rewrite bind_run. cbn [get].
  change (tags (setGeoTagsLoaded img)) with (tags img).
  rewrite Hd. cbn [mbind option_bind]. rewrite Hdv.
  unfold geoKeyIndices. rewrite Hn. change (default 0 (Some n)) with n.
  replace (seq 1 (Z.to_nat n))
    with (seq 1 (k - 1) ++ [k] ++ seq (S k) (Z.to_nat n - k)).
  2:{ replace (Z.to_nat n) with ((k - 1) + (1 + (Z.to_nat n - k)))%nat at 2 by lia.
      rewrite !seq_app. cbn [seq app]. do 3 f_equal; lia. }
  rewrite !fmap_app, !forEach_app.
  set (s0 := setGeoTagsLoaded img).
  destruct (forEach _ _ s0) as [r1 s1] eqn:Hpre.
  destruct (geoKeyLoop_frame _ _ _ _ _ 1026 Hpre) as (Ht1 & Hl1 & _).
  destruct r1 as [[]|e]; [|done].
  cbn [fmap list_fmap app forEach]. rewrite bind_run.
  rewrite (geoKeyStep_citation geoTags (4 * k) s1 asciiTag)
    by (done || by rewrite Ht1).
  set (s2 := setTagGeo 1026 (GeoString "WGS 84|foo") s1).
  destruct (forEach _ _ s2) as [r3 s3] eqn:Hpost.
  destruct (geoKeyLoop_frame _ _ _ _ _ 1026 Hpost) as (Ht3 & Hl3 & Hk3).
  intros [= -> ->].
  unfold valueGeo. rewrite Hl3. cbn [s2 setTagGeo isGeoTagsLoaded].
  rewrite Hl1. cbn [s0 setGeoTagsLoaded isGeoTagsLoaded].
  f_equal. change TiffTagGeo.GTCitationGeoKey with 1026. rewrite Hk3.
  - apply lookup_insert_eq.
  - apply Forall_forall. intros j Hj. apply Hlater.
    apply elem_of_seq in Hj. lia.
Qed.

Lemma loadGeoTiffTags_citation_witness :
  valueGeo (@loadGeoTiffTags exampleImports (readerOf geoImage) geoImage).2
    TiffTagGeo.GTCitationGeoKey = Ok (Some (GeoString "WGS 84|foo")).
Proof.
  apply (@loadGeoTiffTags_citation exampleImports (readerOf geoImage) geoImage _
           (inlineNumbers TiffTag.GeoKeyDirectory [1; 1; 0; 1; 1026; 34737; 11; 0])
           (TagInline TiffTag.GeoAsciiParams 11 (VString "WGS 84|foo|"))
           [1; 1; 0; 1; 1026; 34737; 11; 0] 1 1).
  - reflexivity.
  - reflexivity.
  - reflexivity.
  - reflexivity.
  - reflexivity.
  - reflexivity.
  - vm_compute. split; constructor.
  - reflexivity.
  - reflexivity.
  - reflexivity.
  - reflexivity.
  - intros j Hj. vm_compute in Hj. lia.
  - vm_compute. reflexivity.
Defined.

(** * Further properties *)

(** ** Length of a header read *)

(** X1. With the size of the source known, the length [getMaxLength] returns
    never goes past the end of the source, is never more than the length
    asked for, and is the length asked for when that fits; with the size
    unknown it is the length asked for. *)
Theorem getMaxLength_within (size offset length_ : Z) :
  offset + getMaxLength (Some size) offset length_ ≤ size ∧
  getMaxLength (Some size) offset length_ ≤ length_ ∧
  (offset + length_ ≤ size → getMaxLength (Some size) offset length_ = length_) ∧
  getMaxLength None offset length_ = length_.
Proof.
  unfold getMaxLength.
  destruct (Z.gtb_spec (offset + length_) size); repeat split; lia.
Qed.

(** ** Requests of the tile operations *)

(** [mcase] takes the next [lift] of a bind apart. *)
Ltac mcase :=
  match goal with
  | |- context [(lift ?r ≫= _) _] =>
      let e := fresh "e" in
      destruct r as [?|e] eqn:?; [rewrite bind_lift_Ok|rewrite bind_lift_Err, throw_run]
  end.

(** Closes the side goals on the shape of a list of requests. *)
Ltac requests_shape :=
  repeat split; try done; try (cbn; lia); try (repeat constructor).

(** [getTileSize] itself sends nothing, or the one leader read. *)
Lemma getTileSize_requests `{Imports} tiff img index log :
  ∃ l, (getTileSize tiff img index log).2 = log ++ l ∧
    (l = [] ∨
     ∃ leaderBytes o,
       truthy (options tiff ≫= tileLeaderByteSize) = Some leaderBytes ∧
       l = [{| site := TileLeader; fetchOffset := o - leaderBytes;
               fetchLength := leaderBytes |}]).
Proof.
  assert (Hnil : ∀ r : Result TileSizeInfo,
            ∃ l, (r, log).2 = log ++ l ∧
              (l = [] ∨ ∃ leaderBytes o,
                 truthy (options tiff ≫= tileLeaderByteSize) = Some leaderBytes ∧
                 l = [{| site := TileLeader; fetchOffset := o - leaderBytes;
                         fetchLength := leaderBytes |}])).
  { intros r. exists []. split; [by rewrite app_nil_r|by left]. }
  unfold getTileSize.
  destruct (truthy _) as [leaderBytes|] eqn:Hleader.
  - mcase; [|apply Hnil]. mcase; [|apply Hnil]. mcase; [|apply Hnil].
    lazymatch goal with |- context [match ?v with Some _ => _ | None => _ end] =>
      destruct v as [o|] end; [|apply Hnil].
    assert (Hfetch : ∃ l,
      ((bytes ← sourceFetch tiff TileLeader (o - leaderBytes) leaderBytes;
        sz ← lift (imported (getUint bytes 0 leaderBytes (isLittleEndian tiff)));
        mret {| offset := Some o; imageSize := Some sz |}) log).2 = log ++ l ∧
      (l = [] ∨ ∃ leaderBytes0 o0,
         Some leaderBytes = Some leaderBytes0 ∧
         l = [{| site := TileLeader; fetchOffset := o0 - leaderBytes0;
                 fetchLength := leaderBytes0 |}])).
    { eexists. split; [|right; by eexists _, _].
      rewrite bind_run. unfold sourceFetch.
      destruct (fetch _ _ _) as [bytes|]; [|done]. cbn [imported].
      by destruct (getUint _ _ _ _). }
    destruct o as [|p|p]; [apply Hnil|exact Hfetch|exact Hfetch].
  - destruct (tags img !! TiffTag.TileByteCounts) as [byteCounts|]; [|apply Hnil].
    unfold promiseAll2. rewrite bind_run.
    mcase; [|apply Hnil]. mcase; [|apply Hnil].
    mcase; [|apply Hnil]. mcase; [|apply Hnil]. apply Hnil.
Qed.

(** [getBytes] sends nothing, or the one body read. *)
Lemma getBytes_requests `{Imports} tiff img off cnt log :
  (getBytes tiff img off cnt log).2 = log ∨
  ∃ o c, off = Some o ∧ cnt = Some c ∧
    (getBytes tiff img off cnt log).2 =
      log ++ [{| site := ImageBytes; fetchOffset := o; fetchLength := c |}].
Proof.
  unfold getBytes.
  destruct (compression img) as [mimeType|]; [|by left].
  destruct cnt as [c|]; [|by left].
  destruct c as [|p|p]; [by left|..].
  all: destruct off as [o|]; [rewrite bind_lift_Ok|by left].
  all: right; exists o; eexists; split; [done|]; split; [done|].
  all: rewrite bind_run; unfold sourceFetch.
  all: destruct (fetch _ _ _) as [bytes|]; [|done]; cbn [imported].
  all: destruct (Z.of_nat (length bytes) <? _); [done|].
  all: case_bool_decide; [|done].
  all: by destruct (getJpegHeader img bytes).
Qed.

(** X2. Whatever the image and the coordinates, [hasTile] itself sends no
    body read and at most one read of a tile leader, and no leader read
    either when no tile leader is announced. What the imported tag reader
    requests to load the offset arrays is not counted: the log does not hold
    it. *)
Theorem hasTile_requests `{Imports} (tiff : CogTiff) (img : CogTiffImage)
    (x y : Z) (log : FetchLog) :
  ∃ l, (hasTile tiff img x y log).2 = log ++ l ∧
    Forall (λ q, site q = TileLeader) l ∧
    (length l ≤ 1)%nat ∧
    (truthy (options tiff ≫= tileLeaderByteSize) = None → l = []).
Proof.
  assert (Hnil : ∀ r : Result bool,
            ∃ l, (r, log).2 = log ++ l ∧ Forall (λ q, site q = TileLeader) l ∧
              (length l ≤ 1)%nat ∧
              (truthy (options tiff ≫= tileLeaderByteSize) = None → l = [])).
  { intros r. exists []. split; [by rewrite app_nil_r|]. requests_shape. }
  unfold hasTile. mcase; [|apply Hnil]. mcase; [|apply Hnil].
  case_bool_decide; [apply Hnil|].
  rewrite bind_run.
  destruct (getTileSize_requests tiff img (y * a0 + x) log) as (l & Hl & Hshape).
  destruct (getTileSize _ _ _ _) as [[ts|e] log1]; cbn [snd] in Hl; subst log1.
  all: exists l; split; [done|].
  all: destruct Hshape as [->|(leaderBytes & o & Hleader & ->)].
  all: requests_shape.
  all: by rewrite Hleader.
Qed.

(** X3. Whatever the image and the coordinates, [getTile] sends at most one
    read of a tile leader and, after it, at most one body read; read of a
    leader happens only when a tile leader is announced. *)
Theorem getTile_requests `{Imports} (tiff : CogTiff) (img : CogTiffImage)
    (x y : Z) (log : FetchLog) :
  ∃ leaders bodies,
    (getTile tiff img x y log).2 = log ++ leaders ++ bodies ∧
    Forall (λ q, site q = TileLeader) leaders ∧ (length leaders ≤ 1)%nat ∧
    Forall (λ q, site q = ImageBytes) bodies ∧ (length bodies ≤ 1)%nat ∧
    (truthy (options tiff ≫= tileLeaderByteSize) = None → leaders = []).
Proof.
  assert (Hnil : ∀ r : Result ImageData,
            ∃ leaders bodies,
              (r, log).2 = log ++ leaders ++ bodies ∧
              Forall (λ q, site q = TileLeader) leaders ∧ (length leaders ≤ 1)%nat ∧
              Forall (λ q, site q = ImageBytes) bodies ∧ (length bodies ≤ 1)%nat ∧
              (truthy (options tiff ≫= tileLeaderByteSize) = None → leaders = [])).
  { intros r. exists [], []. split; [by rewrite app_nil_r|]. requests_shape. }
  unfold getTile. destruct (compression img) as [mime|] eqn:Hc; [|apply Hnil].
  mcase; [|apply Hnil]. mcase; [|apply Hnil].
  case_bool_decide; [apply Hnil|]. case_bool_decide; [apply Hnil|].
  rewrite bind_run.
  destruct (getTileSize_requests tiff img (y * a0 + x) log) as (l & Hl & Hshape).
  destruct (getTileSize _ _ _ _) as [[ts|e] log1]; cbn [snd] in Hl; subst log1.
  - destruct (getBytes_requests tiff img (offset ts) (imageSize ts) (log ++ l))
      as [Hb|(o & c & _ & _ & Hb)]; rewrite Hb.
    + exists l, []. rewrite app_nil_r. split; [done|].
      destruct Hshape as [->|(leaderBytes & o' & Hleader & ->)].
      all: requests_shape.
      all: by rewrite Hleader.
    + exists l, [{| site := ImageBytes; fetchOffset := o; fetchLength := c |}].
      rewrite <- app_assoc. split; [done|].
      destruct Hshape as [->|(leaderBytes & o' & Hleader & ->)].
      all: requests_shape.
      all: by rewrite Hleader.
  - exists l, []. rewrite app_nil_r. split; [done|].
    destruct Hshape as [->|(leaderBytes & o' & Hleader & ->)].
    all: requests_shape.
    all: by rewrite Hleader.
Qed.

(** X4. With a tile leader announced [getTileSize] reads the image through
    its TileOffsets tag only: two images with the same TileOffsets tag give
    the same answer, whatever their TileByteCounts, present or not. *)
Theorem getTileSize_leader_ignores_byteCounts `{Imports} (tiff : CogTiff)
    (img img' : CogTiffImage) (index leaderBytes : Z) :
  truthy (options tiff ≫= tileLeaderByteSize) = Some leaderBytes →
  tags img' !! TiffTag.TileOffsets = tags img !! TiffTag.TileOffsets →
  getTileSize tiff img' index = getTileSize tiff img index.
Proof.
  intros Hleader Hto. unfold getTileSize, tileOffset. by rewrite Hleader, Hto.
Qed.

Lemma getTileSize_leader_ignores_byteCounts_witness :
  @getTileSize exampleImports (leaderReaderOf squareImage)
    (setTags (delete TiffTag.TileByteCounts) squareImage) 2
  = @getTileSize exampleImports (leaderReaderOf squareImage) squareImage 2.
Proof.
  apply (@getTileSize_leader_ignores_byteCounts exampleImports
           (leaderReaderOf squareImage) squareImage
           (setTags (delete TiffTag.TileByteCounts) squareImage) 2 4).
  - reflexivity.
  - vm_compute. reflexivity.
Defined.

Section TileGridMore.

Context `{Imports} (tiff : CogTiff) (img : CogTiffImage) (w h tw th : Z).
Hypothesis Htiled : tiledImage img w h tw th.

Local Abbreviation nx := (ceiling w tw).
Local Abbreviation ny := (ceiling h th).

(** X5. At or past the upper bound of a coordinate [getTile] throws before it
    sends any request: 'Unsupported compression' when the compression is not
    supported, 'Tile index is outside of range' otherwise. *)
Theorem getTile_beyond (x y : Z) (log : FetchLog) :
  nx ≤ x ∨ ny ≤ y →
  getTile tiff img x y log =
    (Err (match compression img with
          | Some _ => TileOutsideRange
          | None => UnsupportedCompression
          end), log).
Proof.
  intros Hxy. unfold getTile. destruct (compression img); [|done].
  rewrite (nyTiles_tiledImage img w h tw th Htiled),
    (nxTiles_tiledImage img w h tw th Htiled), !bind_lift_Ok.
  by rewrite bool_decide_eq_true_2 by lia.
Qed.

(** X6. Below their upper bounds the coordinates reach [getTile] and [hasTile]
    only through the index [y * nx + x]: two coordinates with the same index
    get the same answer, also when one of them is negative. *)
Theorem getTile_by_index (x y x' y' : Z) :
  x < nx → y < ny → x' < nx → y' < ny →
  y * nx + x = y' * nx + x' →
  getTile tiff img x y = getTile tiff img x' y' ∧
  hasTile tiff img x y = hasTile tiff img x' y'.
Proof.
  intros Hx Hy Hx' Hy' Hidx. unfold getTile, hasTile.
  rewrite (nyTiles_tiledImage img w h tw th Htiled),
    (nxTiles_tiledImage img w h tw th Htiled), !bind_lift_Ok.
  rewrite !(bool_decide_eq_false_2 (_ >= nx ∨ _ >= ny)) by lia.
  rewrite Hidx. done.
Qed.

(** The rectangle of a tile, for any coordinates. *)
Lemma getTileBounds_tiledImage (x y : Z) :
  getTileBounds img x y =
    Ok {| bx := x * tw; by_ := y * th;
          bwidth := if w <=? x * tw + tw then w - x * tw else tw;
          bheight := if h <=? y * th + th then h - y * th else th |}.
Proof.
  destruct Htiled as (Hw & Hh & Htw & Hth & _).
  unfold getTileBounds, size, tileSize. cbn [width height].
  by rewrite Hw, Hh, Htw, Hth.
Qed.

(** X7. The rectangles of [getTileBounds] tile the image: a pixel of the image
    lies in the rectangle of the tile [(px / tw, py / th)], which is in
    range, and in the rectangle of no other coordinates. *)
Theorem getTileBounds_partition (px py : Z) :
  0 ≤ px < w → 0 ≤ py < h →
  inRange nx ny (px / tw) (py / th) ∧
  ∀ x y, (∃ b, getTileBounds img x y = Ok b ∧ inside b px py)
         ↔ (x = px / tw ∧ y = py / th).
Proof.
  intros Hpx Hpy.
  destruct Htiled as (_ & _ & _ & _ & Hw0 & Hh0 & Htw0 & Hth0).
  pose proof (ceiling_bounds w tw Htw0) as Hcw.
  pose proof (ceiling_bounds h th Hth0) as Hch.
  pose proof (Z.div_mod px tw ltac:(lia)) as Hdx.
  pose proof (Z.mod_pos_bound px tw Htw0) as Hmx.
  pose proof (Z.div_mod py th ltac:(lia)) as Hdy.
  pose proof (Z.mod_pos_bound py th Hth0) as Hmy.
  split.
  { split; (split; [apply Z.div_pos; lia|]).
    - apply Z.div_lt_upper_bound; [lia|]. nia.
    - apply Z.div_lt_upper_bound; [lia|]. nia. }
  intros x y. rewrite getTileBounds_tiledImage. split.
  - intros (b & [= <-] & [Hin_x Hin_y]). cbn in Hin_x, Hin_y.
    destruct (Z.leb_spec w (x * tw + tw)), (Z.leb_spec h (y * th + th)).
    all: split;
      [apply Z.div_unique with (r := px - x * tw); lia
      |apply Z.div_unique with (r := py - y * th); lia].
  - intros [-> ->]. eexists. split; [reflexivity|].
    unfold inside. cbn.
    destruct (Z.leb_spec w (px / tw * tw + tw)),
      (Z.leb_spec h (py / th * th + th)); lia.
Qed.

(** X8. For coordinates that are not negative, the rectangle of
    [getTileBounds] has a positive width and a positive height exactly when
    the tile is in range; [getTileBounds] itself checks no range. *)
Theorem getTileBounds_positive_iff_inRange (x y : Z) :
  0 ≤ x → 0 ≤ y →
  ∃ b, getTileBounds img x y = Ok b ∧
    ((0 < bwidth b ∧ 0 < bheight b) ↔ inRange nx ny x y).
Proof.
  intros Hx Hy. rewrite getTileBounds_tiledImage. eexists. split; [reflexivity|].
  destruct Htiled as (_ & _ & _ & _ & Hw0 & Hh0 & Htw0 & Hth0).
  pose proof (ceiling_bounds w tw Htw0) as Hcw.
  pose proof (ceiling_bounds h th Hth0) as Hch.
  unfold inRange. cbn.
  destruct (Z.leb_spec w (x * tw + tw)), (Z.leb_spec h (y * th + th)).
  all: split; [intros [Hbw Hbh]|intros [Hix Hiy]]; nia.
Qed.

End TileGridMore.

Lemma getTile_beyond_witness :
  @getTile exampleImports (readerOf raggedImage) raggedImage 2 0 [] =
    (Err (match @compression exampleImports raggedImage with
          | Some _ => TileOutsideRange
          | None => UnsupportedCompression
          end), []).
Proof.
  apply (@getTile_beyond exampleImports (readerOf raggedImage) raggedImage
           300 600 256 256).
  - repeat split; try reflexivity; lia.
  - left. vm_compute. discriminate.
Defined.

Lemma getTile_by_index_witness :
  @getTile exampleImports (readerOf raggedImage) raggedImage (-1) 1
  = @getTile exampleImports (readerOf raggedImage) raggedImage 1 0 ∧
  @hasTile exampleImports (readerOf raggedImage) raggedImage (-1) 1
  = @hasTile exampleImports (readerOf raggedImage) raggedImage 1 0.
Proof.
  apply (@getTile_by_index exampleImports (readerOf raggedImage) raggedImage
           300 600 256 256).
  - repeat split; try reflexivity; lia.
  - reflexivity.
  - reflexivity.
  - reflexivity.
  - reflexivity.
  - reflexivity.
Defined.

Lemma getTileBounds_partition_witness :
  inRange (ceiling 300 256) (ceiling 600 256) (299 / 256) (599 / 256) ∧
  ∀ x y, (∃ b, getTileBounds raggedImage x y = Ok b ∧ inside b 299 599)
         ↔ (x = 299 / 256 ∧ y = 599 / 256).
Proof.
  apply (getTileBounds_partition raggedImage 300 600 256 256).
  - repeat split; try reflexivity; lia.
  - lia.
  - lia.
Defined.

Lemma getTileBounds_positive_iff_inRange_witness :
  ∃ b, getTileBounds raggedImage 2 0 = Ok b ∧
    ((0 < bwidth b ∧ 0 < bheight b)
     ↔ inRange (ceiling 300 256) (ceiling 600 256) 2 0).
Proof.
  apply (getTileBounds_positive_iff_inRange raggedImage 300 600 256 256).
  - repeat split; try reflexivity; lia.
  - lia.
  - lia.
Defined.

(** ** Strips and bytes, at the edges *)

(** X9. On a striped image, for an index outside [0, stripCount), [getStrip]
    throws and sends no request; at or past [stripCount], when the tag
    StripByteCounts is there, the error is 'index out of bounds'. *)
Theorem getStrip_outside `{Imports} (tiff : CogTiff) (img : CogTiffImage)
    (index : Z) (log : FetchLog) :
  isTiled img = false →
  index < 0 ∨ stripCount img ≤ index →
  ∃ e, getStrip tiff img index log = (Err e, log) ∧
       (is_Some (tags img !! TiffTag.StripByteCounts) → stripCount img ≤ index →
        e = StripOutOfBounds).
Proof.
  intros Htiled Hout. unfold getStrip, stripCount in *. rewrite Htiled.
  destruct (tags img !! TiffTag.StripByteCounts) as [byteCounts|];
    [|eexists; split; [reflexivity|]; by intros [? [=]]].
  case_bool_decide as Hge; [eexists; split; [reflexivity|done]|].
  assert (Hneg : index < 0) by lia.
  unfold promiseAll2.
  destruct (tags img !! TiffTag.StripOffsets) as [offsets|].
  - rewrite (proj2 (getOffset_outOfBounds tiff offsets index)) by lia.
    eexists. split; [reflexivity|]. intros _ Hle. lia.
  - eexists. split; [reflexivity|]. intros _ Hle. lia.
Qed.

Lemma getStrip_outside_witness :
  ∃ e, @getStrip exampleImports (readerOf stripedImage) stripedImage 1 []
         = (Err e, []) ∧
       (is_Some (tags stripedImage !! TiffTag.StripByteCounts) →
        stripCount stripedImage ≤ 1 → e = StripOutOfBounds).
Proof.
  apply (@getStrip_outside exampleImports (readerOf stripedImage) stripedImage 1 []).
  - reflexivity.
  - right. vm_compute. discriminate.
Defined.

(** X10. What [getBytes] resolves to tells what it did. [null] comes from a
    byte count of 0 and no request. An answer with bytes comes from exactly
    one body read, at the offset and of the length given, that delivered at
    least that many bytes; the bytes are those delivered, or, on a JPEG image,
    their splice with the JPEG tables. *)
Theorem getBytes_resolved `{Imports} (tiff : CogTiff) (img : CogTiffImage)
    (off cnt : option Z) (log log' : FetchLog) (data : ImageData) :
  getBytes tiff img off cnt log = (Ok data, log') →
  match data with
  | None => cnt = Some 0 ∧ log' = log
  | Some (mime, out) =>
      ∃ o c bytes,
        off = Some o ∧ cnt = Some c ∧ c ≠ 0 ∧
        compression img = Some mime ∧
        fetch (source tiff) o c = Some bytes ∧
        c ≤ Z.of_nat (length bytes) ∧
        log' = log ++ [{| site := ImageBytes; fetchOffset := o; fetchLength := c |}] ∧
        (if decide (mime = TiffMimeType.Jpeg)
         then getJpegHeader img bytes = Ok out
         else out = bytes)
  end.
Proof.
  unfold getBytes.
  destruct (compression img) as [mimeType|] eqn:Hc; [|done].
  destruct cnt as [c|]; [|done].
  destruct (decide (c = 0)) as [->|Hc0]; [by intros [= <- <-]|].
  assert (Hrun :
    (match c with
     | 0 => mret None
     | _ =>
         offset_ ← lift (match off with Some o => Ok o | None => Err IllTyped end);
         bytes ← sourceFetch tiff ImageBytes offset_ c;
         if Z.of_nat (length bytes) <? c then throw FailedToFetchBytes
         else if bool_decide (Some mimeType = Some TiffMimeType.Jpeg) then
           b ← lift (getJpegHeader img bytes); mret (Some (mimeType, b))
         else mret (Some (mimeType, bytes))
     end : M FetchLog ImageData) =
    (offset_ ← lift (match off with Some o => Ok o | None => Err IllTyped end);
     bytes ← sourceFetch tiff ImageBytes offset_ c;
     if Z.of_nat (length bytes) <? c then throw FailedToFetchBytes
     else if bool_decide (Some mimeType = Some TiffMimeType.Jpeg) then
       b ← lift (getJpegHeader img bytes); mret (Some (mimeType, b))
     else mret (Some (mimeType, bytes)))) by (by destruct c).
  rewrite Hrun. clear Hrun.
  destruct off as [o|]; [rewrite bind_lift_Ok|done].
  rewrite bind_run. unfold sourceFetch.
  destruct (fetch (source tiff) o c) as [bytes|] eqn:Hfetch; [|done].
  cbn [imported].
  destruct (Z.ltb_spec (Z.of_nat (length bytes)) c) as [|Hlen]; [done|].
  case_bool_decide as Hj.
  - destruct (getJpegHeader img bytes) as [b|e] eqn:Hb; [|done].
    rewrite bind_lift_Ok. intros [= <- <-].
    exists o, c, bytes. repeat split; try done.
    injection Hj as ->. by rewrite decide_True.
  - intros [= <- <-]. exists o, c, bytes. repeat split; try done.
    rewrite decide_False; [done|congruence].
Qed.

Lemma getBytes_resolved_witness :
  ∃ o c bytes,
    Some 8 = Some o ∧ Some 16 = Some c ∧ c ≠ 0 ∧
    @compression exampleImports stripedImage = Some TiffMimeType.Lzw ∧
    fetch (source (readerOf stripedImage)) o c = Some bytes ∧
    c ≤ Z.of_nat (length bytes) ∧
    [{| site := ImageBytes; fetchOffset := 8; fetchLength := 16 |}] =
      [] ++ [{| site := ImageBytes; fetchOffset := o; fetchLength := c |}] ∧
    (if decide (TiffMimeType.Lzw = TiffMimeType.Jpeg)
     then getJpegHeader stripedImage bytes = Ok (replicate 16 0)
     else replicate 16 0 = bytes).
Proof.
  apply (@getBytes_resolved exampleImports (readerOf stripedImage) stripedImage
           (Some 8) (Some 16) []
           [{| site := ImageBytes; fetchOffset := 8; fetchLength := 16 |}]
           (Some (TiffMimeType.Lzw, replicate 16 0))).
  reflexivity.
Defined.

(** X11. When the Source answers a body read with fewer bytes than asked for,
    [getBytes] throws 'Failed to fetch bytes', on a JPEG image as on any
    other; when the Source rejects the read, so does [getBytes]. Either way
    the request has been sent. *)
Theorem getBytes_short_read `{Imports} (tiff : CogTiff) (img : CogTiffImage)
    (o c : Z) (mime : TiffMimeType) (log : FetchLog) :
  compression img = Some mime →
  c ≠ 0 →
  let sent := log ++ [{| site := ImageBytes; fetchOffset := o; fetchLength := c |}] in
  (fetch (source tiff) o c = None →
   getBytes tiff img (Some o) (Some c) log = (Err ExternalError, sent)) ∧
  (∀ bytes, fetch (source tiff) o c = Some bytes →
            Z.of_nat (length bytes) < c →
            getBytes tiff img (Some o) (Some c) log = (Err FailedToFetchBytes, sent)).
Proof.
  intros Hc Hnz sent.
  rewrite (getBytes_nonzero tiff img o c mime Hc Hnz), bind_run.
  unfold sourceFetch. split.
  - by intros ->.
  - intros bytes -> Hlt. cbn [imported].
    by destruct (Z.ltb_spec (Z.of_nat (length bytes)) c); [|lia].
Qed.

(** Against a source that answers every request with a single byte. *)
Lemma getBytes_short_read_witness :
  let shortReader :=
    {| source := {| fetch := λ _ _, Some [0] |}; images := [stripedImage];
       options := None; isLittleEndian := true |} in
  let sent := [] ++ [{| site := ImageBytes; fetchOffset := 8; fetchLength := 16 |}] in
  (fetch (source shortReader) 8 16 = None →
   @getBytes exampleImports shortReader stripedImage (Some 8) (Some 16) []
     = (Err ExternalError, sent)) ∧
  (∀ bytes, fetch (source shortReader) 8 16 = Some bytes →
            Z.of_nat (length bytes) < 16 →
            @getBytes exampleImports shortReader stripedImage (Some 8) (Some 16) []
              = (Err FailedToFetchBytes, sent)).
Proof.
  intros shortReader.
  apply (@getBytes_short_read exampleImports shortReader stripedImage 8 16
           TiffMimeType.Lzw []).
  - reflexivity.
  - discriminate.
Defined.

(** [tables.slice(0, tables.length - 2)], also for fewer than two elements. *)
Lemma slice_all_but_two {A} (l : list A) :
  slice l 0 (Z.of_nat (length l) - 2) = take (length l - 2) l.
Proof.
  destruct (decide (2 ≤ length l)%nat) as [Hge|Hlt].
  - rewrite slice_take by lia. f_equal. lia.
  - replace (length l - 2)%nat with 0%nat by lia. rewrite take_0.
    unfold slice, relativeIndex. cbn [Z.ltb Z.compare].
    destruct (Z.ltb_spec (Z.of_nat (length l) - 2) 0); [|lia].
    rewrite Z.min_l by lia.
    replace (Z.to_nat (Z.max (Z.of_nat (length l) + (Z.of_nat (length l) - 2)) 0 - 0))
      with 0%nat by lia.
    apply take_0.
Qed.

(** X12. With JPEG tables in the image, [getJpegHeader] fails on fewer than
    two bytes with a RangeError and otherwise returns the tables without
    their last two elements, each reduced to a byte, followed by the bytes
    without their first two; when what it is given are bytes, so is what it
    returns. *)
Theorem getJpegHeader_total (img : CogTiffImage) (tables bytes : list Z) :
  value img TiffTag.JPEGTables = Some (VNumbers tables) →
  getJpegHeader img bytes =
    (if decide (length bytes < 2)%nat then Err JsRangeError
     else Ok ((toUint8 <$> take (length tables - 2) tables) ++ drop 2 bytes)) ∧
  (∀ out, getJpegHeader img bytes = Ok out →
          Forall (λ b, 0 ≤ b < 256) bytes → Forall (λ b, 0 ≤ b < 256) out).
Proof.
  intros Hv.
  assert (Hget : getJpegHeader img bytes =
    (if decide (length bytes < 2)%nat then Err JsRangeError
     else Ok ((toUint8 <$> take (length tables - 2) tables) ++ drop 2 bytes))).
  { unfold getJpegHeader. rewrite Hv, slice_all_but_two.
    set (src := toUint8 <$> take (length tables - 2) tables).
    assert (Hs : length (take (length tables - 2) tables) = length src)
      by (unfold src; by rewrite length_fmap).
    rewrite Hs.
    destruct (decide (length bytes < 2)%nat) as [Hlt|Hge].
    - unfold newUint8Array.
      destruct (Z.ltb_spec (Z.of_nat (length bytes) + Z.of_nat (length src) - 2) 0);
        [done|].
      cbn [mbind Result_bind].
      assert (Hset : ∀ n, (n < length src)%nat →
                typedArraySet (replicate n 0) src 0 = Err JsRangeError).
      { intros n Hn. unfold typedArraySet. rewrite length_replicate.
        destruct (Z.ltb_spec (Z.of_nat n) (0 + Z.of_nat (length src))); [done|lia]. }
      by rewrite Hset by lia.
    - rewrite slice_drop by lia. change (Z.to_nat 2) with 2%nat.
      pose proof (typedArraySet_twice src (drop 2 bytes)) as Htwice.
      rewrite length_drop in Htwice.
      replace (Z.of_nat (length bytes) + Z.of_nat (length src) - 2)
        with (Z.of_nat (length src) + Z.of_nat (length bytes - 2)) by lia.
      destruct (newUint8Array _) as [d0|e]; [|done].
      cbn [mbind Result_bind] in *.
      destruct (typedArraySet d0 src 0) as [d1|e]; [|done].
      cbn [mbind Result_bind] in *.
      by destruct (typedArraySet d1 (drop 2 bytes) _). }
  split; [exact Hget|].
  intros out Hout Hbytes. rewrite Hget in Hout.
  destruct (decide (length bytes < 2)%nat); [done|]. injection Hout as <-.
  apply Forall_app. split.
  - apply Forall_fmap, Forall_forall. intros t _. unfold toUint8. cbn.
    apply Z.mod_pos_bound. lia.
  - by apply Forall_drop.
Qed.

Lemma getJpegHeader_total_witness :
  getJpegHeader jpegImage [255] =
    (if decide (length [255] < 2)%nat then Err JsRangeError
     else Ok ((toUint8 <$> take (length [255; 216; 255; 219; 255; 217] - 2)
                             [255; 216; 255; 219; 255; 217]) ++ drop 2 [255])) ∧
  (∀ out, getJpegHeader jpegImage [255] = Ok out →
          Forall (λ b, 0 ≤ b < 256) [255] → Forall (λ b, 0 ≤ b < 256) out).
Proof.
  apply (getJpegHeader_total jpegImage [255; 216; 255; 219; 255; 217] [255]).
  reflexivity.
Defined.

(** ** GeoKeys in general *)

(** With the directory loaded, [loadGeoTiffTags] sets the flag and runs the
    loop. *)
Lemma loadGeoTiffTags_loaded `{Imports} tiff img dirTag geoTags :
  isGeoTagsLoaded img = false →
  tags img !! TiffTag.GeoKeyDirectory = Some dirTag →
  tag_value dirTag = Some (VNumbers geoTags) →
  loadGeoTiffTags tiff img =
    forEach (geoKeyIndices geoTags) (geoKeyStep geoTags) (setGeoTagsLoaded img).
Proof.
  intros Hl Hd Hdv.
  unfold loadGeoTiffTags. rewrite bind_run. cbn [get]. rewrite Hl, Hd.
  assert (Hnofetch :
    (match dirTag with
     | TagLazy _ _ None =>
         andAlso (fetchTag tiff TiffTag.GeoKeyDirectory)
           (andAlso (fetchTag tiff TiffTag.GeoAsciiParams)
              (fetchTag tiff TiffTag.GeoDoubleParams))
     | _ => mret tt
     end) = (mret tt : M CogTiffImage unit)).
  { destruct dirTag as [| |? ? []]; done. }
  rewrite Hnofetch, bind_mret, bind_run. cbn [modify].
  rewrite bind_run. cbn [get].
  change (tags (setGeoTagsLoaded img)) with (tags img).
  rewrite Hd. cbn [mbind option_bind]. by rewrite Hdv.
Qed.

(** What one step of the loop does at an entry with key [key] located in
    [loc]. *)
Lemma geoKeyStep_entry geoTags i s key loc :
  geoTags !! i = Some key →
  geoTags !! (i + 1)%nat = Some loc →
  (loc = 0 →
   geoKeyStep geoTags i s =
     (Ok tt, setTagGeo key (from_option GeoNumber GeoUndefined (geoTags !! (i + 3)%nat)) s)) ∧
  (∀ t v, loc ≠ 0 → tags s !! loc = Some t → tag_value t = Some v →
     geoKeyStep geoTags i s =
       match v with
       | VString str =>
           (Ok tt,
            setTagGeo key
              (GeoString (sliceTrim str (default 0 (geoTags !! (i + 3)%nat))
                 (default 0 (o ← geoTags !! (i + 3)%nat;
                             c ← geoTags !! (i + 2)%nat; Some (o + c - 1))))) s)
       | _ => (Err FailedToExtractGeoTiffTags, s)
       end).
Proof.
  intros Hk Hloc. unfold geoKeyStep. rewrite Hk, Hloc. split.
  - by intros ->.
  - intros t v Hne Ht Hv.
    destruct loc as [|p|p]; [done| |]; rewrite bind_run; cbn [get];
      rewrite Ht; cbn [mbind option_bind]; rewrite Hv; by destruct v.
Qed.

(** The loop up to and after the entry [k]. *)
Lemma geoKeyIndices_split geoTags n k :
  geoTags !! 3%nat = Some n → (1 ≤ k ≤ Z.to_nat n)%nat →
  geoKeyIndices geoTags =
    ((λ j, 4 * j)%nat <$> seq 1 (k - 1)) ++ [(4 * k)%nat]
      ++ ((λ j, 4 * j)%nat <$> seq (S k) (Z.to_nat n - k)).
Proof.
  intros Hn Hk. unfold geoKeyIndices. rewrite Hn.
  change (default 0 (Some n)) with n.
  replace (Z.to_nat n) with ((k - 1) + (1 + (Z.to_nat n - k)))%nat at 1 by lia.
  rewrite !seq_app, !fmap_app. cbn [seq fmap list_fmap app].
  replace (1 + (k - 1))%nat with k by lia.
  replace (k + 1)%nat with (S k) by lia.
  reflexivity.
Qed.

(** When the step at entry [k] stores [v] under [key] and no later entry
    names [key], the loop, if it completes, leaves [v] under [key]. *)
Lemma geoKeyLoop_last geoTags n k key v s s' :
  geoTags !! 3%nat = Some n → (1 ≤ k ≤ Z.to_nat n)%nat →
  (∀ s1, tags s1 = tags s →
         geoKeyStep geoTags (4 * k) s1 = (Ok tt, setTagGeo key v s1)) →
  (∀ j, (k < j ≤ Z.to_nat n)%nat → geoTags !! (4 * j)%nat ≠ Some key) →
  forEach (geoKeyIndices geoTags) (geoKeyStep geoTags) s = (Ok tt, s') →
  tagsGeo s' !! key = Some v ∧ isGeoTagsLoaded s' = isGeoTagsLoaded s.
Proof.
  intros Hn Hk Hstep Hlater.
  rewrite (geoKeyIndices_split geoTags n k Hn Hk), !forEach_app.
  destruct (forEach _ _ s) as [r1 s1] eqn:Hpre.
  destruct (geoKeyLoop_frame _ _ _ _ _ key Hpre) as (Ht1 & Hl1 & _).
  destruct r1 as [[]|e]; [|done].
  cbn [app forEach]. rewrite bind_run, (Hstep s1 Ht1).
  destruct (forEach _ _ (setTagGeo key v s1)) as [r3 s3] eqn:Hpost.
  destruct (geoKeyLoop_frame _ _ _ _ _ key Hpost) as (Ht3 & Hl3 & Hk3).
  intros [= -> ->]. split.
  - rewrite Hk3; [apply lookup_insert_eq|].
    apply Forall_forall. intros j Hj. apply Hlater.
    apply elem_of_seq in Hj. lia.
  - by rewrite Hl3.
Qed.

(** X13. After [loadGeoTiffTags] has completed on a loaded directory,
    [valueGeo(key)] is what the last counted entry with that key says: for an
    entry located in the directory (location 0) the number in its fourth
    field, for an entry located in a tag that holds a string, the characters
    [offset] to [offset + count - 1] of the string, trimmed. *)
Theorem loadGeoTiffTags_last_entry `{Imports} (tiff : CogTiff)
    (img img' : CogTiffImage) (dirTag : Tag) (geoTags : list Z)
    (n key loc count off : Z) (k : nat) :
  isGeoTagsLoaded img = false →
  tags img !! TiffTag.GeoKeyDirectory = Some dirTag →
  tag_value dirTag = Some (VNumbers geoTags) →
  geoTags !! 3%nat = Some n →
  (1 ≤ k ≤ Z.to_nat n)%nat →
  geoTags !! (4 * k)%nat = Some key →
  geoTags !! (4 * k + 1)%nat = Some loc →
  geoTags !! (4 * k + 2)%nat = Some count →
  geoTags !! (4 * k + 3)%nat = Some off →
  (∀ j, (k < j ≤ Z.to_nat n)%nat → geoTags !! (4 * j)%nat ≠ Some key) →
  loadGeoTiffTags tiff img = (Ok tt, img') →
  (loc = 0 → valueGeo img' key = Ok (Some (GeoNumber off))) ∧
  (∀ t str, loc ≠ 0 → tags img !! loc = Some t →
     tag_value t = Some (VString str) →
     valueGeo img' key =
       Ok (Some (GeoString (sliceTrim str off (off + count - 1))))).
Proof.
  intros Hl Hd Hdv Hn Hk Hkey Hloc Hcount Hoff Hlater.
  rewrite (loadGeoTiffTags_loaded tiff img dirTag geoTags Hl Hd Hdv).
  intros Hrun. unfold valueGeo. split.
  - intros ->.
    destruct (geoKeyLoop_last geoTags n k key (GeoNumber off)
                (setGeoTagsLoaded img) img' Hn Hk) as [Hv Hflag];
      [|done|done|by rewrite Hflag, Hv].
    intros s1 _.
    rewrite (proj1 (geoKeyStep_entry geoTags (4 * k) s1 key 0 Hkey Hloc) eq_refl).
    by rewrite Hoff.
  - intros t str Hne Ht Htv.
    destruct (geoKeyLoop_last geoTags n k key
                (GeoString (sliceTrim str off (off + count - 1)))
                (setGeoTagsLoaded img) img' Hn Hk) as [Hv Hflag];
      [|done|done|by rewrite Hflag, Hv].
    intros s1 Hs1.
    destruct (geoKeyStep_entry geoTags (4 * k) s1 key loc Hkey Hloc) as [_ Hstr].
    rewrite (Hstr t (VString str)) by (done || by rewrite Hs1).
    by rewrite Hoff, Hcount.
Qed.

Lemma loadGeoTiffTags_last_entry_witness :
  let img' := (@loadGeoTiffTags exampleImports (readerOf geoKeysImage) geoKeysImage).2 in
  (valueGeo img' 2048 = Ok (Some (GeoNumber 4269))) ∧
  (valueGeo img' 1026 = Ok (Some (GeoString (sliceTrim "WGS 84|" 0 (0 + 7 - 1))))).
Proof.
  intros img'. split.
  - refine (proj1 (@loadGeoTiffTags_last_entry exampleImports (readerOf geoKeysImage)
             geoKeysImage img'
             (inlineNumbers TiffTag.GeoKeyDirectory
                [1; 1; 0; 4; 1024; 0; 1; 2; 2048; 0; 1; 4326;
                 1026; 34737; 7; 0; 2048; 0; 1; 4269])
             [1; 1; 0; 4; 1024; 0; 1; 2; 2048; 0; 1; 4326;
              1026; 34737; 7; 0; 2048; 0; 1; 4269]
             4 2048 0 1 4269 4 _ _ _ _ _ _ _ _ _ _ _) _);
      try reflexivity.
    + vm_compute. split; repeat constructor.
    + intros j Hj. vm_compute in Hj. lia.
  - refine (proj2 (@loadGeoTiffTags_last_entry exampleImports (readerOf geoKeysImage)
             geoKeysImage img'
             (inlineNumbers TiffTag.GeoKeyDirectory
                [1; 1; 0; 4; 1024; 0; 1; 2; 2048; 0; 1; 4326;
                 1026; 34737; 7; 0; 2048; 0; 1; 4269])
             [1; 1; 0; 4; 1024; 0; 1; 2; 2048; 0; 1; 4326;
              1026; 34737; 7; 0; 2048; 0; 1; 4269]
             4 1026 34737 7 0 3 _ _ _ _ _ _ _ _ _ _ _)
             (TagInline TiffTag.GeoAsciiParams 7 (VString "WGS 84|")) "WGS 84|" _ _ _);
      try reflexivity; try done.
    + vm_compute. split; repeat constructor.
    + intros j Hj. destruct (decide (j = 4%nat)) as [->|]; [done|].
      vm_compute in Hj. lia.
Defined.

(** The loop throws nothing but 'Failed to extract GeoTiffTags'. *)
Lemma geoKeyLoop_error geoTags (is_ : list nat) s e s' :
  forEach is_ (geoKeyStep geoTags) s = (Err e, s') →
  e = FailedToExtractGeoTiffTags.
Proof.
  revert s. induction is_ as [|i is_ IH]; intros s; [done|].
  cbn [forEach]. rewrite bind_run.
  destruct (geoKeyStep geoTags i s) as [[[]|e1] s1] eqn:Hstep; [apply IH|].
  intros [= -> ->]. revert Hstep. unfold geoKeyStep.
  destruct (geoTags !! (i + 1)%nat) as [[|p|p]|], (geoTags !! i) as [key|];
    try done; rewrite bind_run; cbn [get];
    by destruct (tags s !! _ ≫= tag_value) as [[]|]; intros [= <- <-].
Qed.

(** X14. When a counted entry of a loaded directory is located in a tag
    that holds a value other than a string, as the keys kept in
    GeoDoubleParams are, [loadGeoTiffTags] throws 'Failed to extract
    GeoTiffTags', with the flag set. *)
Theorem loadGeoTiffTags_non_string `{Imports} (tiff : CogTiff) (img : CogTiffImage)
    (dirTag t : Tag) (geoTags : list Z) (n key loc : Z) (k : nat) (v : TagValue) :
  isGeoTagsLoaded img = false →
  tags img !! TiffTag.GeoKeyDirectory = Some dirTag →
  tag_value dirTag = Some (VNumbers geoTags) →
  geoTags !! 3%nat = Some n →
  (1 ≤ k ≤ Z.to_nat n)%nat →
  geoTags !! (4 * k)%nat = Some key →
  geoTags !! (4 * k + 1)%nat = Some loc →
  loc ≠ 0 →
  tags img !! loc = Some t →
  tag_value t = Some v →
  (∀ str, v ≠ VString str) →
  (loadGeoTiffTags tiff img).1 = Err FailedToExtractGeoTiffTags ∧
  isGeoTagsLoaded (loadGeoTiffTags tiff img).2 = true.
Proof.
  intros Hl Hd Hdv Hn Hk Hkey Hloc Hne Ht Htv Hv.
  rewrite (loadGeoTiffTags_loaded tiff img dirTag geoTags Hl Hd Hdv).
  destruct (forEach _ _ _) as [r s'] eqn:Hrun. cbn [fst snd].
  destruct (geoKeyLoop_frame geoTags (seq 1 (Z.to_nat (default 0 (geoTags !! 3%nat))))
              _ _ _ key Hrun) as (_ & Hflag & _).
  split; [|by rewrite Hflag].
  destruct r as [[]|e]; [|f_equal; eapply geoKeyLoop_error, Hrun].
  exfalso. revert Hrun.
  rewrite (geoKeyIndices_split geoTags n k Hn Hk), !forEach_app.
  destruct (forEach _ _ (setGeoTagsLoaded img)) as [r1 s1] eqn:Hpre.
  destruct (geoKeyLoop_frame _ _ _ _ _ key Hpre) as (Ht1 & _).
  destruct r1 as [[]|e]; [|done].
  cbn [app forEach]. rewrite bind_run.
  destruct (geoKeyStep_entry geoTags (4 * k) s1 key loc Hkey Hloc) as [_ Hstep].
  rewrite (Hstep t v) by (done || by rewrite Ht1).
  destruct v as [| | |str]; try done. by destruct (Hv str).
Qed.

Lemma loadGeoTiffTags_non_string_witness :
  (@loadGeoTiffTags exampleImports (readerOf geoDoublesImage) geoDoublesImage).1
    = Err FailedToExtractGeoTiffTags ∧
  isGeoTagsLoaded
    (@loadGeoTiffTags exampleImports (readerOf geoDoublesImage) geoDoublesImage).2
    = true.
Proof.
  apply (@loadGeoTiffTags_non_string exampleImports (readerOf geoDoublesImage)
           geoDoublesImage
           (inlineNumbers TiffTag.GeoKeyDirectory
              [1; 1; 0; 2; 2048; 0; 1; 4326; 2057; 34736; 1; 0])
           (TagInline TiffTag.GeoDoubleParams 1 (VDoubles [6378137]%float))
           [1; 1; 0; 2; 2048; 0; 1; 4326; 2057; 34736; 1; 0]
           2 2057 34736 2 (VDoubles [6378137]%float));
    try reflexivity; try done.
  vm_compute. split; repeat constructor.
Defined.

(** ** What fetching a tag leaves alone *)

Lemma modify_mret_run {S A} (f : S → S) (a : A) (s : S) :
  (modify f;; mret a) s = (Ok a, f s).
Proof. reflexivity. Qed.

(** [fetch(tag)] changes no field but [tags], and rejects only from inside
    the imported readers. *)
Lemma fetchTag_frame `{Imports} tiff tag s r s' :
  fetchTag tiff tag s = (r, s') →
  sameGeoState s s' ∧ (∀ e, r = Err e → e = ExternalError).
Proof.
  unfold fetchTag. rewrite bind_run. cbn [get].
  destruct (tags s !! tag) as [[i c v|i c l [|]|i c v]|];
    try (by intros [= <- <-]; split).
  - destruct (imported (fetchAllOffsets tiff (TagOffset i c l false))) as [l'|e] eqn:Himp.
    + rewrite bind_lift_Ok, modify_mret_run. intros [= <- <-]. by split.
    + rewrite bind_lift_Err, throw_run. intros [= <- <-]. split; [done|].
      intros e' [= <-]. revert Himp. unfold imported. destruct (fetchAllOffsets _ _); by intros [=].
  - destruct (imported (fetchLazy (TagLazy i c v) tiff)) as [l'|e] eqn:Himp.
    + rewrite bind_lift_Ok, modify_mret_run. intros [= <- <-]. by split.
    + rewrite bind_lift_Err, throw_run. intros [= <- <-]. split; [done|].
      intros e' [= <-]. revert Himp. unfold imported. destruct (fetchLazy _ _); by intros [=].
Qed.

(** [Promise.all] of two calls keeps what both keep. *)
Lemma andAlso_frame {S A B} (P : S → S → Prop) (E : Error → Prop)
    (a : M S A) (b : M S B) :
  (∀ s1 s2 s3, P s1 s2 → P s2 s3 → P s1 s3) →
  (∀ s r s', a s = (r, s') → P s s' ∧ ∀ e, r = Err e → E e) →
  (∀ s r s', b s = (r, s') → P s s' ∧ ∀ e, r = Err e → E e) →
  ∀ s r s', andAlso a b s = (r, s') → P s s' ∧ ∀ e, r = Err e → E e.
Proof.
  intros Htrans Ha Hb s r s'. unfold andAlso.
  destruct (a s) as [ra s1] eqn:Hra. destruct (b s1) as [rb s2] eqn:Hrb.
  destruct (Ha _ _ _ Hra) as [HPa HEa]. destruct (Hb _ _ _ Hrb) as [HPb HEb].
  intros [= <- <-]. split; [by eapply Htrans|].
  destruct ra as [x|ea]; [destruct rb as [y|eb]|].
  - done.
  - intros e [= <-]. by apply HEb.
  - intros e [= <-]. by apply HEa.
Qed.

Lemma sameGeoState_trans s1 s2 s3 :
  sameGeoState s1 s2 → sameGeoState s2 s3 → sameGeoState s1 s3.
Proof. unfold sameGeoState. intros (? & ? & ?) (? & ? & ?). repeat split; congruence. Qed.

Lemma promiseAll_fetch_frame `{Imports} tiff (l : list Z) s r s' :
  promiseAll (fetchTag tiff <$> l) s = (r, s') →
  sameGeoState s s' ∧ ∀ e, r = Err e → e = ExternalError.
Proof.
  revert s r s'. induction l as [|tag l IH]; intros s r s'.
  - intros [= <- <-]. done.
  - cbn [fmap list_fmap promiseAll].
    apply (andAlso_frame sameGeoState (λ e, e = ExternalError)).
    + apply sameGeoState_trans.
    + intros ? ? ?. apply fetchTag_frame.
    + apply IH.
Qed.

(** ** Calling [loadGeoTiffTags] again *)

Lemma loadGeoTiffTags_done `{Imports} tiff s :
  isGeoTagsLoaded s = true → loadGeoTiffTags tiff s = (Ok tt, s).
Proof.
  intros Hl. unfold loadGeoTiffTags. rewrite bind_run. cbn [get]. by rewrite Hl.
Qed.

(** However [loadGeoTiffTags] ends, unless it is rejected from inside an
    imported reader, the flag is set. *)
Lemma loadGeoTiffTags_outcome `{Imports} tiff img img' (r : Result unit) :
  loadGeoTiffTags tiff img = (r, img') →
  (r ≠ Err ExternalError → isGeoTagsLoaded img' = true) ∧
  (r = Err ExternalError →
   isGeoTagsLoaded img' = isGeoTagsLoaded img ∧ tagsGeo img' = tagsGeo img).
Proof.
  assert (Hset : ∀ s (r0 : Result unit), isGeoTagsLoaded s = true → r0 ≠ Err ExternalError →
    (r0 ≠ Err ExternalError → isGeoTagsLoaded s = true) ∧
    (r0 = Err ExternalError →
     isGeoTagsLoaded s = isGeoTagsLoaded img ∧ tagsGeo s = tagsGeo img)).
  { intros s r0 Hs Hr0. by split. }
  unfold loadGeoTiffTags at 1. rewrite bind_run. cbn [get].
  destruct (isGeoTagsLoaded img) eqn:Hl.
  { intros [= <- <-]. by apply Hset. }
  destruct (tags img !! TiffTag.GeoKeyDirectory) as [dirTag|] eqn:Hd.
  2:{ intros [= <- <-]. by apply Hset. }
  rewrite bind_run.
  set (fetchPhase := match dirTag with TagLazy _ _ None => _ | _ => _ end).
  destruct (fetchPhase img) as [rf s1] eqn:Hf.
  assert (Hframe : sameGeoState img s1 ∧ ∀ e, rf = Err e → e = ExternalError).
  { revert Hf. unfold fetchPhase.
    destruct dirTag as [| |? ? []]; try (by intros [= <- <-]; split).
    apply (andAlso_frame sameGeoState (λ e, e = ExternalError));
      [apply sameGeoState_trans|intros ? ? ?; apply fetchTag_frame|].
    apply (andAlso_frame sameGeoState (λ e, e = ExternalError));
      [apply sameGeoState_trans|intros ? ? ?; apply fetchTag_frame..]. }
  destruct Hframe as [(Hl1 & Hg1 & _) Herr].
  destruct rf as [[]|e].
  - rewrite bind_run. cbn [modify]. rewrite bind_run. cbn [get].
    destruct (tags (setGeoTagsLoaded s1) !! TiffTag.GeoKeyDirectory ≫= tag_value)
      as [[n|geoTags|d|str]|]; try (by intros [= <- <-]; apply Hset).
    intros Hrun.
    destruct (geoKeyLoop_frame geoTags
                (seq 1 (Z.to_nat (default 0 (geoTags !! 3%nat))))
                _ _ _ 0 Hrun) as (_ & Hflag & _).
    apply Hset; [by rewrite Hflag|].
    intros ->. by apply geoKeyLoop_error in Hrun.
  - intros [= <- <-]. rewrite (Herr e eq_refl). split; [done|].
    intros _. by rewrite Hl1, Hg1.
Qed.

(** X15. However a call of [loadGeoTiffTags] ends, unless it is rejected from
    inside an imported reader, the flag is set, so that a second call
    resolves at once and changes nothing, also after 'Invalid geo tags found'
    or 'Failed to extract GeoTiffTags'. A call rejected from inside an
    imported reader leaves the flag and the GeoKeys as they were. *)
Theorem loadGeoTiffTags_retry `{Imports} (tiff : CogTiff) (img img' : CogTiffImage)
    (r : Result unit) :
  loadGeoTiffTags tiff img = (r, img') →
  (r ≠ Err ExternalError →
   isGeoTagsLoaded img' = true ∧ loadGeoTiffTags tiff img' = (Ok tt, img')) ∧
  (r = Err ExternalError →
   isGeoTagsLoaded img' = isGeoTagsLoaded img ∧ tagsGeo img' = tagsGeo img).
Proof.
  intros Hrun.
  destruct (loadGeoTiffTags_outcome tiff img img' r Hrun) as [Hset Hkept].
  split; [|done]. intros Hr. split; [by apply Hset|].
  apply loadGeoTiffTags_done. by apply Hset.
Qed.

Lemma loadGeoTiffTags_retry_witness :
  let tiff := readerOf geoDoublesImage in
  let img' := (@loadGeoTiffTags exampleImports tiff geoDoublesImage).2 in
  (@Err unit FailedToExtractGeoTiffTags ≠ Err ExternalError →
   isGeoTagsLoaded img' = true ∧
   @loadGeoTiffTags exampleImports tiff img' = (Ok tt, img')) ∧
  (@Err unit FailedToExtractGeoTiffTags = Err ExternalError →
   isGeoTagsLoaded img' = isGeoTagsLoaded geoDoublesImage ∧
   tagsGeo img' = tagsGeo geoDoublesImage).
Proof.
  intros tiff img'.
  apply (@loadGeoTiffTags_retry exampleImports tiff geoDoublesImage img'
           (Err FailedToExtractGeoTiffTags)).
  vm_compute. reflexivity.
Defined.

(** ** EPSG code *)

(** X16. [epsg] never returns the invalid projection code 32767; it throws
    only 'loadGeoTiffTags() has not been called', and exactly when the
    GeoKeys are not loaded; it returns [null] only when GeographicTypeGeoKey
    is 32767; it returns a ProjectedCSTypeGeoKey that is a number other than
    0 and 32767; and with neither key present it returns [undefined], not
    [null]. *)
Theorem epsg_never_invalid (img : CogTiffImage) :
  epsg img ≠ Ok (EpsgIs (GeoNumber InvalidProjectionCode)) ∧
  (∀ e, epsg img = Err e ↔ e = GeoTagsNotLoaded ∧ isGeoTagsLoaded img = false) ∧
  (epsg img = Ok EpsgNull →
   tagsGeo img !! GeoKey.GeographicTypeGeoKey
     = Some (GeoNumber InvalidProjectionCode)) ∧
  (∀ p, isGeoTagsLoaded img = true →
        tagsGeo img !! GeoKey.ProjectedCSTypeGeoKey = Some (GeoNumber p) →
        p ≠ 0 → p ≠ InvalidProjectionCode →
        epsg img = Ok (EpsgIs (GeoNumber p))) ∧
  (isGeoTagsLoaded img = true →
   tagsGeo img !! GeoKey.ProjectedCSTypeGeoKey = None →
   tagsGeo img !! GeoKey.GeographicTypeGeoKey = None →
   epsg img = Ok (EpsgIs GeoUndefined)).
Proof.
  unfold epsg, valueGeo.
  destruct (isGeoTagsLoaded img).
  2:{ cbn. split_and!; try done.
      intros e. split; [by intros [= <-]|by intros [-> _]]. }
  cbn [fmap Result_fmap mbind Result_bind].
  destruct (tagsGeo img !! GeoKey.ProjectedCSTypeGeoKey) as [proj|],
           (tagsGeo img !! GeoKey.GeographicTypeGeoKey) as [geo|];
    cbn [default Datatypes.id].
  all: repeat match goal with
       | |- context [bool_decide ?P] => destruct (bool_decide_reflect P)
       | |- context [geoFalsy ?v] => destruct v eqn:?; cbn [geoFalsy orb]
       end; cbn [orb].
  all: split_and!; try done; try (intros ?; split; [done|by intros [_ [=]]]).
  all: try (intros p _ [= ->] ? ?; congruence).
  all: try congruence.
Qed.

(** ** Geo location *)

(** An image is located exactly when it has a resolution of its own. *)
Lemma isImageLocated_resolutionOwn img :
  isImageLocated img = false ↔ resolutionOwn img = None.
Proof.
  unfold isImageLocated, resolutionOwn. rewrite bool_decide_eq_false.
  destruct (value img TiffTag.ModelPixelScale) as [[]|],
           (value img TiffTag.ModelTransformation) as [[]|];
    (split;
     [intros Hn; try done; exfalso; apply Hn; (by left) || (by right)
     |intros Hn; try done; intros [?|?]; done]).
Qed.

Lemma resolutionOwn_error img e :
  resolutionOwn img = Some (Err e) → e = IllTyped.
Proof.
  unfold resolutionOwn.
  destruct (value img TiffTag.ModelPixelScale) as [[]|],
           (value img TiffTag.ModelTransformation) as [[]|]; congruence.
Qed.

(** The two cases of an image with respect to its own transformation. *)
Lemma located_cases img :
  (isImageLocated img = true ∧
   ∃ r, resolutionOwn img = Some r ∧ ∀ e, r = Err e → e = IllTyped) ∨
  (isImageLocated img = false ∧ resolutionOwn img = None).
Proof.
  pose proof (isImageLocated_resolutionOwn img) as [Hown1 Hown2].
  destruct (isImageLocated img), (resolutionOwn img) as [r|] eqn:Hr.
  - left. split; [done|]. exists r. split; [done|].
    intros e ->. by apply resolutionOwn_error in Hr.
  - by specialize (Hown2 eq_refl).
  - by specialize (Hown1 eq_refl).
  - by right.
Qed.

(** X17. [isGeoLocated] answers false exactly when [resolution] throws
    'Image does not have a geo transformation.', and the two getters throw
    the RangeError of the endless delegation and the TypeError of a missing
    first image together. *)
Theorem isGeoLocated_resolution (tiff : CogTiff) (img : CogTiffImage) :
  (isGeoLocated tiff img = Ok false ↔ resolution tiff img = Err NoGeoTransform) ∧
  (isGeoLocated tiff img = Err JsRangeError ↔ resolution tiff img = Err JsRangeError) ∧
  (isGeoLocated tiff img = Err JsTypeError ↔ resolution tiff img = Err JsTypeError).
Proof.
  unfold isGeoLocated, resolution.
  destruct (located_cases img) as [(-> & r & -> & Hr)|(-> & ->)].
  { destruct r as [v|e]; [done|]. rewrite (Hr e eq_refl). done. }
  destruct (isSubImage img); [|done].
  destruct (images tiff !! 0%nat) as [firstImg|]; [|done].
  destruct (located_cases firstImg) as [(-> & r & -> & Hr)|(-> & ->)].
  2:{ by destruct (isSubImage firstImg). }
  destruct r as [[[resX resY] resZ]|e]; [|by rewrite (Hr e eq_refl)].
  cbn [mbind Result_bind].
  unfold as_float, as_int.
  destruct (width (size firstImg)) as [[]|], (width (size img)) as [[]|],
           (height (size firstImg)) as [[]|], (height (size img)) as [[]|]; done.
Qed.

(** X18. [bbox] needs an origin and a resolution, and [isGeoLocated] looks at
    the resolution only. On an image that is not a sub image and has no
    ModelTransformation: with a ModelPixelScale and no ModelTiePoint,
    [isGeoLocated] is true while [origin] and [bbox] throw 'Image does not
    have a geo transformation.'; with a ModelTiePoint of six numbers and no
    ModelPixelScale, [origin] returns the tie point while [isGeoLocated] is
    false and [bbox] throws the same error. *)
Theorem bbox_needs_both (tiff : CogTiff) (img : CogTiffImage) :
  isSubImage img = false →
  value img TiffTag.ModelTransformation = None →
  (∀ scale, value img TiffTag.ModelPixelScale = Some (VDoubles scale) →
            value img TiffTag.ModelTiePoint = None →
            isGeoLocated tiff img = Ok true ∧
            origin tiff img = Err NoGeoTransform ∧
            bbox tiff img = Err NoGeoTransform) ∧
  (∀ tie, value img TiffTag.ModelTiePoint = Some (VDoubles tie) →
          length tie = 6%nat →
          value img TiffTag.ModelPixelScale = None →
          isGeoLocated tiff img = Ok false ∧
          origin tiff img = Ok (tie !! 3%nat, tie !! 4%nat, tie !! 5%nat) ∧
          bbox tiff img = Err NoGeoTransform).
Proof.
  intros Hsub Htr. split.
  - intros scale Hscale Htie.
    assert (Horigin : origin tiff img = Err NoGeoTransform).
    { unfold origin, originOwn. by rewrite Htie, Htr, Hsub. }
    split_and!; [|done|].
    + unfold isGeoLocated, isImageLocated. rewrite Hscale.
      by rewrite bool_decide_eq_true_2 by (by left).
    + unfold bbox. by rewrite Horigin.
  - intros tie Htie Hlen Hscale.
    assert (Horigin : origin tiff img = Ok (tie !! 3%nat, tie !! 4%nat, tie !! 5%nat)).
    { unfold origin, originOwn. rewrite Htie.
      by rewrite bool_decide_eq_true_2 by done. }
    split_and!; [|done|].
    + unfold isGeoLocated, isImageLocated. rewrite Hscale, Htr, Hsub.
      by rewrite bool_decide_eq_false_2 by (by intros [?|?]).
    + unfold bbox. rewrite Horigin. cbn [mbind Result_bind].
      unfold resolution, resolutionOwn. by rewrite Hscale, Htr, Hsub.
Qed.

Lemma bbox_needs_both_witness :
  let img := pyramidImage 0 1024 in
  (∀ scale, value img TiffTag.ModelPixelScale = Some (VDoubles scale) →
            value img TiffTag.ModelTiePoint = None →
            isGeoLocated pyramid img = Ok true ∧
            origin pyramid img = Err NoGeoTransform ∧
            bbox pyramid img = Err NoGeoTransform) ∧
  (∀ tie, value img TiffTag.ModelTiePoint = Some (VDoubles tie) →
          length tie = 6%nat →
          value img TiffTag.ModelPixelScale = None →
          isGeoLocated pyramid img = Ok false ∧
          origin pyramid img = Ok (tie !! 3%nat, tie !! 4%nat, tie !! 5%nat) ∧
          bbox pyramid img = Err NoGeoTransform).
Proof.
  intros img. apply (bbox_needs_both pyramid img); reflexivity.
Defined.

(** ** Bounding box *)

(** The comparison of two floats the other way round. *)
Lemma SFcompare_antisym (a b : spec_float) :
  SFcompare b a = option_map CompOpp (SFcompare a b).
Proof.
  destruct a as [[]|[]| |[] m1 e1], b as [[]|[]| |[] m2 e2]; cbn;
    try done; f_equal.
  - rewrite (Z.compare_antisym e1 e2).
    destruct (e1 ?= e2)%Z; cbn; try done.
    pose proof (Pos.compare_cont_antisym m1 m2 Eq) as Hm. cbn [CompOpp] in Hm.
    by rewrite <- Hm.
  - rewrite (Z.compare_antisym e1 e2).
    destruct (e1 ?= e2)%Z; cbn; try done.
    pose proof (Pos.compare_cont_antisym m1 m2 Eq) as Hm. cbn [CompOpp] in Hm.
    by rewrite <- Hm.
Qed.

(** Two numbers that are not NaN compare. *)
Lemma SFcompare_not_nan (x y : float) :
  is_nan x = false → is_nan y = false →
  ∃ c, SFcompare (Prim2SF x) (Prim2SF y) = Some c.
Proof.
  unfold is_nan. rewrite !FloatAxioms.eqb_spec. unfold SFeqb.
  destruct (Prim2SF x) as [| | |], (Prim2SF y) as [| | |]; cbn; try done; eauto.
Qed.

(** [Math.min] and [Math.max] of the same two numbers: both NaN or neither,
    and in order. *)
Lemma mathMin_le_mathMax (x y : float) :
  is_nan (mathMin x y) = is_nan (mathMax x y) ∧
  (is_nan (mathMin x y) = false → (mathMin x y <=? mathMax x y)%float = true).
Proof.
  unfold mathMin, mathMax.
  destruct (is_nan x) eqn:Hx; [done|]. destruct (is_nan y) eqn:Hy; [done|].
  cbn [orb].
  destruct (SFcompare_not_nan x y Hx Hy) as [c Hc].
  pose proof (SFcompare_antisym (Prim2SF x) (Prim2SF y)) as Hanti.
  rewrite Hc in Hanti. cbn [option_map] in Hanti.
  rewrite !FloatAxioms.ltb_spec. unfold SFltb. rewrite Hc, Hanti.
  destruct c; cbn [CompOpp].
  - destruct (get_sign x); rewrite ?Hx, ?Hy; (split; [done|intros _]);
      rewrite FloatAxioms.leb_spec; unfold SFleb; by rewrite ?Hc, ?Hanti.
  - rewrite Hx, Hy. split; [done|intros _].
    rewrite FloatAxioms.leb_spec. unfold SFleb. by rewrite Hc.
  - rewrite Hx, Hy. split; [done|intros _].
    rewrite FloatAxioms.leb_spec. unfold SFleb. by rewrite Hanti.
Qed.

(** X19. The bounding box [bbox] returns is ordered, whatever the signs of
    the resolution: its minimum and its maximum in x are NaN together, and
    otherwise the minimum is at most the maximum; the same in y. *)
Theorem bbox_ordered (tiff : CogTiff) (img : CogTiffImage) (minX minY maxX maxY : float) :
  bbox tiff img = Ok (minX, minY, maxX, maxY) →
  (is_nan minX = is_nan maxX ∧ (is_nan minX = false → (minX <=? maxX)%float = true)) ∧
  (is_nan minY = is_nan maxY ∧ (is_nan minY = false → (minY <=? maxY)%float = true)).
Proof.
  unfold bbox.
  destruct (origin tiff img) as [[[ox oy] oz]|e]; [|done].
  cbn [mbind Result_bind].
  destruct (resolution tiff img) as [[[rx ry] rz]|e]; [|done].
  cbn [mbind Result_bind].
  destruct (as_float (width (size img))) as [w|e]; [|done].
  cbn [mbind Result_bind].
  destruct (as_float (height (size img))) as [h|e]; [|done].
  cbn [mbind Result_bind].
  intros [= <- <- <- <-]. split; apply mathMin_le_mathMax.
Qed.

Lemma bbox_ordered_witness :
  bbox (readerOf locatedImage) locatedImage = Ok (100, -824, 2148, 200)%float ∧
  (is_nan 100 = is_nan 2148 ∧ (is_nan 100 = false → (100 <=? 2148)%float = true)) ∧
  (is_nan (-824) = is_nan 200 ∧
   (is_nan (-824) = false → (-824 <=? 200)%float = true)).
Proof.
  split; [vm_compute; reflexivity|].
  apply (bbox_ordered (readerOf locatedImage) locatedImage 100 (-824) 2148 200).
  vm_compute. reflexivity.
Defined.

(** ** The list of resolutions *)

(** [getResolutions] returns the resolution of each image, in order. *)
Lemma resolutionsOf_lookup tiff imgs rs :
  resolutionsOf tiff imgs = Ok rs →
  length rs = length imgs ∧
  ∀ i img, imgs !! i = Some img →
           ∃ r, rs !! i = Some r ∧ resolution tiff img = Ok r.
Proof.
  revert rs. induction imgs as [|img0 imgs IH]; intros rs.
  - intros [= <-]. split; [done|]. intros i img. by rewrite lookup_nil.
  - cbn [resolutionsOf].
    destruct (resolution tiff img0) as [r0|e] eqn:Hr0; [|done].
    cbn [mbind Result_bind].
    destruct (resolutionsOf tiff imgs) as [rs'|e]; [|done].
    cbn [mbind Result_bind]. intros [= <-].
    destruct (IH rs' eq_refl) as [Hlen Hall]. split; [cbn; by rewrite Hlen|].
    intros [|i] img; cbn.
    + intros [= <-]. eauto.
    + apply Hall.
Qed.

(** X20. [getResolutions] lists one resolution for each image, and for an
    image without a pixel scale or transformation of its own the x
    resolution it lists is the number that [getImageByResolution] compares
    for that image: the x resolution of the first image times its width,
    divided by the width of the image. *)
Theorem getResolutions_selection (tiff : CogTiff) (rs : list Vec3)
    (first img : CogTiffImage) (base : float) (i : nat) :
  getResolutions tiff = Ok rs →
  images tiff !! 0%nat = Some first →
  resolutionBaseX tiff first = Ok base →
  images tiff !! i = Some img →
  resolutionOwn img = None →
  length rs = length (images tiff) ∧
  ∃ rx ry rz, rs !! i = Some (Some rx, ry, rz) ∧ imgResolutionX base img = Ok rx.
Proof.
  intros Hrs Hfirst Hbase Hi Hown.
  destruct (resolutionsOf_lookup tiff (images tiff) rs Hrs) as [Hlen Hall].
  split; [done|].
  destruct (Hall i img Hi) as (r & Hr & Hres).
  revert Hres Hbase. unfold resolution at 1. rewrite Hown.
  destruct (isSubImage img); [|done]. rewrite Hfirst.
  unfold resolutionBaseX, resolution.
  destruct (resolutionOwn first) as [[[[resX resY] resZ]|e]|]; try done.
  2:{ by destruct (isSubImage first). }
  cbn [mbind Result_bind]. unfold imgResolutionX.
  destruct (as_float (width (size first))) as [fw|e]; [|done].
  cbn [mbind Result_bind].
  destruct (as_float (width (size img))) as [iw|e]; [|done].
  cbn [mbind Result_bind].
  destruct (as_float (height (size first))) as [fh|e]; [|done].
  cbn [mbind Result_bind].
  destruct (as_float (height (size img))) as [ih|e]; [|done].
  cbn [mbind Result_bind].
  intros [= <-] [= <-]. eauto.
Qed.

Lemma getResolutions_selection_witness :
  length [(Some 1, Some (-1), Some 0); (Some 2, Some (-2), Some 0);
          (Some 4, Some (-4), Some 0); (Some 8, Some (-8), Some 0)]%float
    = length (images pyramid) ∧
  ∃ rx ry rz,
    [(Some 1, Some (-1), Some 0); (Some 2, Some (-2), Some 0);
     (Some 4, Some (-4), Some 0); (Some 8, Some (-8), Some 0)]%float !! 2%nat
      = Some (Some rx, ry, rz) ∧
    imgResolutionX 1024 (pyramidImage 2 256) = Ok rx.
Proof.
  apply (getResolutions_selection pyramid _ (pyramidImage 0 1024)
           (pyramidImage 2 256) 1024 2).
  - vm_compute. reflexivity.
  - reflexivity.
  - vm_compute. reflexivity.
  - reflexivity.
  - reflexivity.
Defined.

(** ** [init] *)

(** X21. [init(false)] leaves the flag and the GeoKeys of the image as they
    were, so that on a fresh image [valueGeo] keeps throwing, and it is
    rejected only from inside an imported reader. After [init(true)], unless
    it was rejected from inside an imported reader, the flag is set and
    [valueGeo] does not throw. *)
Theorem init_geo `{Imports} (tiff : CogTiff) (img img' : CogTiffImage)
    (loadGeoTags : bool) (r : Result unit) :
  init tiff loadGeoTags img = (r, img') →
  (loadGeoTags = false →
   isGeoTagsLoaded img' = isGeoTagsLoaded img ∧ tagsGeo img' = tagsGeo img ∧
   (∀ e, r = Err e → e = ExternalError) ∧
   (isGeoTagsLoaded img = false → ∀ key, valueGeo img' key = Err GeoTagsNotLoaded)) ∧
  (loadGeoTags = true → r ≠ Err ExternalError →
   isGeoTagsLoaded img' = true ∧ ∀ key, valueGeo img' key = Ok (tagsGeo img' !! key)).
Proof.
  unfold init. rewrite bind_run.
  destruct loadGeoTags.
  - destruct (promiseAll _ img) as [rp s1] eqn:Hp.
    apply (promiseAll_fetch_frame tiff
             [BaselineTag.SamplesPerPixel; BaselineTag.SampleFormat;
              BaselineTag.BitsPerSample; TiffTag.Compression; TiffTag.ImageHeight;
              TiffTag.ImageWidth; TiffTag.ModelPixelScale; TiffTag.ModelTiePoint;
              TiffTag.ModelTransformation; TiffTag.TileHeight; TiffTag.TileWidth;
              TiffTag.GeoKeyDirectory; TiffTag.GeoAsciiParams;
              TiffTag.GeoDoubleParams]) in Hp.
    destruct Hp as [_ Herr].
    destruct rp as [[]|e].
    + intros Hrun. split; [done|]. intros _ Hr.
      destruct (loadGeoTiffTags_outcome tiff s1 img' r Hrun) as [Hset _].
      unfold valueGeo. by rewrite (Hset Hr).
    + intros [= <- <-]. split; [done|]. intros _ Hr.
      by rewrite (Herr e eq_refl) in Hr.
  - destruct (promiseAll _ img) as [rp s1] eqn:Hp.
    apply (promiseAll_fetch_frame tiff
             [BaselineTag.SamplesPerPixel; BaselineTag.SampleFormat;
              BaselineTag.BitsPerSample; TiffTag.Compression; TiffTag.ImageHeight;
              TiffTag.ImageWidth; TiffTag.ModelPixelScale; TiffTag.ModelTiePoint;
              TiffTag.ModelTransformation; TiffTag.TileHeight; TiffTag.TileWidth])
      in Hp.
    destruct Hp as [(Hl & Hg & _) Herr].
    intros Hrun.
    assert (r = rp ∧ img' = s1) as [-> ->].
    { destruct rp as [[]|e]; by injection Hrun as <- <-. }
    split; [|done]. intros _. split_and!; [done|done|done|].
    intros Hfresh key. unfold valueGeo. by rewrite Hl, Hfresh.
Qed.

Lemma init_geo_witness :
  let r := (@init exampleImports (readerOf geoKeysImage) true geoKeysImage).1 in
  let img' := (@init exampleImports (readerOf geoKeysImage) true geoKeysImage).2 in
  (true = false →
   isGeoTagsLoaded img' = isGeoTagsLoaded geoKeysImage ∧
   tagsGeo img' = tagsGeo geoKeysImage ∧
   (∀ e, r = Err e → e = ExternalError) ∧
   (isGeoTagsLoaded geoKeysImage = false →
    ∀ key, valueGeo img' key = Err GeoTagsNotLoaded)) ∧
  (true = true → r ≠ Err ExternalError →
   isGeoTagsLoaded img' = true ∧ ∀ key, valueGeo img' key = Ok (tagsGeo img' !! key)).
Proof.
  intros r img'.
  apply (@init_geo exampleImports (readerOf geoKeysImage) geoKeysImage img' true r).
  vm_compute. reflexivity.
Defined.

(** ** [readIfd] *)

(** The loop of [readIfd] keeps every tag under its own id. *)
Lemma readTags_keyed `{IfdImports} tiff view startOffset ifdSize is_ tags0 tags1 :
  tagsKeyedById tags0 →
  readTags tiff view startOffset ifdSize is_ tags0 = Some tags1 →
  tagsKeyedById tags1.
Proof.
  revert tags0. induction is_ as [|i is_ IH]; intros tags0 Hkeyed; cbn [readTags].
  - by intros [= <-].
  - destruct (createTag tiff view _) as [tag|]; [|done].
    apply IH. intros k t. destruct (decide (k = tag_id tag)) as [->|Hne].
    + rewrite lookup_insert_eq. by intros [= <-].
    + rewrite lookup_insert_ne by done. apply Hkeyed.
Qed.

(** X22. When [readIfd] returns the offset of the next IFD it has appended
    exactly one image to [images]: its id is its index, its tags are each
    stored under their own id, its GeoKeys are not loaded; the other fields
    of the reader are unchanged, and if every earlier image carried its index
    as id, every image does. When it throws 'IFD out of range' the reader is
    unchanged. *)
Theorem readIfd_appends `{Imports} `{IfdImports} (cfg : TiffIfdConfig) (offset : Z)
    (view : DataViewOffset) (tiff tiff' : CogTiff) (outcome : IfdOutcome) :
  readIfd cfg offset view tiff = (outcome, tiff') →
  (∀ next, outcome = IfdNext next →
     ∃ img, images tiff' = images tiff ++ [img] ∧
            id img = Z.of_nat (length (images tiff)) ∧
            tagsKeyedById (tags img) ∧
            isGeoTagsLoaded img = false ∧ tagsGeo img = ∅ ∧
            source tiff' = source tiff ∧ options tiff' = options tiff ∧
            isLittleEndian tiff' = isLittleEndian tiff ∧
            (idsAreIndices tiff → idsAreIndices tiff')) ∧
  (outcome = IfdOutOfRange → tiff' = tiff).
Proof.
  unfold readIfd.
  destruct (getUint _ _ (cfgOffset cfg) _) as [tagCount|];
    [|by intros [= <- <-]].
  destruct (hasBytes view offset _); cbn [negb]; [|by intros [= <- <-]].
  destruct (readTags _ _ _ _ _ ∅) as [tags1|] eqn:Htags;
    [|by intros [= <- <-]].
  assert (Hkeyed : tagsKeyedById tags1).
  { eapply readTags_keyed; [|exact Htags]. intros k t. by rewrite lookup_empty. }
  destruct (getUint _ _ (cfgPointer cfg) _) as [next|];
    [|by intros [= <- <-]].
  intros [= <- <-]. split; [|done]. intros ? _.
  eexists. split; [reflexivity|]. cbn. split_and!; try done.
  intros Hids i img. cbn [images pushImage].
  destruct (decide (i < length (images tiff))%nat) as [Hlt|Hge].
  - rewrite lookup_app_l by done. apply Hids.
  - rewrite lookup_app_r by lia.
    destruct (i - length (images tiff))%nat as [|d] eqn:Hd; [|done].
    intros [= <-]. cbn. f_equal. lia.
Qed.

Lemma readIfd_appends_witness :
  let run := @readIfd byteImports byteIfdImports TagTiffConfig 0 ifdView
               (readerOf squareImage) in
  run.1 = IfdNext 0 ∧
  (∀ next, run.1 = IfdNext next →
     ∃ img, images run.2 = images (readerOf squareImage) ++ [img] ∧
            id img = Z.of_nat (length (images (readerOf squareImage))) ∧
            tagsKeyedById (tags img) ∧
            isGeoTagsLoaded img = false ∧ tagsGeo img = ∅ ∧
            source run.2 = source (readerOf squareImage) ∧
            options run.2 = options (readerOf squareImage) ∧
            isLittleEndian run.2 = isLittleEndian (readerOf squareImage) ∧
            (idsAreIndices (readerOf squareImage) → idsAreIndices run.2)) ∧
  (run.1 = IfdOutOfRange → run.2 = readerOf squareImage).
Proof.
  intros run. split; [vm_compute; reflexivity|].
  apply (@readIfd_appends byteImports byteIfdImports TagTiffConfig 0 ifdView
           (readerOf squareImage) run.2 run.1).
  vm_compute. reflexivity.
Defined.

(** ** [readHeader] *)

Lemma hbind_run {A B} (c : HM A) (k : A → HM B) (st : HeaderState) :
  (c ≫= k) st =
    match c st with
    | (HOk a, st') => k a st'
    | (HErr e, st') => (HErr e, st')
    end.
Proof. reflexivity. Qed.

Lemma hlift_run {A} (r : Result A) (st : HeaderState) :
  hlift r st = (match r with Ok a => HOk a | Err e => HErr (Raised e) end, st).
Proof. reflexivity. Qed.

Lemma hmret_run {A} (a : A) (st : HeaderState) :
  (mret a : HM A) st = (HOk a, st).
Proof. reflexivity. Qed.

(** A request is noted, then answered or rejected. *)
Lemma fetchView_run (offset length_ : Z) (st : HeaderState) :
  fetchView offset length_ st =
    (match fetch (source (reader st)) offset length_ with
     | Some bytes => HOk {| viewBytes := bytes; sourceOffset := offset |}
     | None => HErr (Raised ExternalError)
     end, addSent (offset, length_) st).
Proof.
  unfold fetchView. rewrite hbind_run. cbn [hmodify]. rewrite hbind_run.
  cbn [hget]. change (source (reader (addSent (offset, length_) st)))
    with (source (reader st)).
  by destruct (fetch (source (reader st)) offset length_).
Qed.

(** The byte-order mark is 0x4949 exactly when both bytes are 0x49, in
    whichever order they are read. *)
Lemma getUint16_mark (b0 b1 : Z) (rest : list Z) (littleEndian : bool) :
  0 ≤ b0 < 256 → 0 ≤ b1 < 256 →
  ∃ endian, getUint16 (b0 :: b1 :: rest) 0 littleEndian = Ok endian ∧
            (endian = TiffEndian.Little ↔ b0 = 73 ∧ b1 = 73).
Proof.
  intros H0 H1. unfold getUint16, TiffEndian.Little. cbn.
  eexists. split; [reflexivity|]. destruct littleEndian; lia.
Qed.

(** X23. A header is turned down after the one request for it, with no
    image read and the reader not initialised: when its first two bytes are
    not both 0x49, with 'Only little endian is supported'; when they are and
    the version word, bytes 2 and 3 read little endian, is neither 42 nor
    43, with 'Only tiff supported version:'. *)
Theorem readHeader_rejects `{Imports} `{IfdImports} `{HeaderImports}
    (sourceSize : option Z) (rounds : nat) (st : HeaderState)
    (b0 b1 b2 b3 : Z) (rest : list Z) :
  let readSize :=
    match fixedHeaderSize st with Some n => n | None => defaultReadSize st end in
  isInitialized st = false →
  fetch (source (reader st)) 0 readSize = Some (b0 :: b1 :: b2 :: b3 :: rest) →
  0 ≤ b0 < 256 → 0 ≤ b1 < 256 →
  (¬ (b0 = 73 ∧ b1 = 73) →
   readHeader sourceSize rounds st =
     (HErr OnlyLittleEndian,
      setReader (setIsLittleEndian false) (addSent (0, readSize) st))) ∧
  (b0 = 73 → b1 = 73 → b2 + 256 * b3 ≠ 42 → b2 + 256 * b3 ≠ 43 →
   readHeader sourceSize rounds st =
     (HErr OnlyTiffSupported,
      setVersion (b2 + 256 * b3)
        (setReader (setIsLittleEndian true) (addSent (0, readSize) st)))).
Proof.
  intros readSize Hinit Hfetch Hb0 Hb1.
  destruct (getUint16_mark b0 b1 (b2 :: b3 :: rest)
              (isLittleEndian (reader st)) Hb0 Hb1) as (endian & Hendian & Hmark).
  unfold readHeader. rewrite hbind_run. cbn [hget]. rewrite Hinit.
  rewrite hbind_run. unfold readHeaderStart. rewrite hbind_run. cbn [hget].
  fold readSize. rewrite hbind_run, fetchView_run, Hfetch.
  cbn [viewBytes]. rewrite hbind_run.
  rewrite hlift_run, Hendian. rewrite hbind_run. cbn [hmodify].
  split.
  - intros Hnot.
    assert (Hne : endian ≠ TiffEndian.Little) by (intros ?; by apply Hnot, Hmark).
    rewrite (bool_decide_eq_false_2 _ Hne). reflexivity.
  - intros -> -> Hv1 Hv2.
    assert (He : endian = TiffEndian.Little) by (by apply Hmark).
    rewrite (bool_decide_eq_true_2 _ He).
    cbn [negb]. rewrite hbind_run, hlift_run.
    change (getUint16 (73 :: 73 :: b2 :: b3 :: rest) (0 + 2) true)
      with (@Ok Z (b2 + 256 * b3)).
    cbv beta iota. rewrite hbind_run. cbn [hmodify]. rewrite hbind_run.
    rewrite !bool_decide_eq_false_2 by done.
    reflexivity.
Qed.

Lemma readHeader_rejects_witness :
  let st := newCogTiff zeroSource None None in
  (¬ (0 = 73 ∧ 0 = 73) →
   @readHeader byteImports byteIfdImports exampleHeaderImports None 5 st =
     (HErr OnlyLittleEndian,
      setReader (setIsLittleEndian false) (addSent (0, 16384) st))) ∧
  (0 = 73 → 0 = 73 → 0 + 256 * 0 ≠ 42 → 0 + 256 * 0 ≠ 43 →
   @readHeader byteImports byteIfdImports exampleHeaderImports None 5 st =
     (HErr OnlyTiffSupported,
      setVersion (0 + 256 * 0)
        (setReader (setIsLittleEndian true) (addSent (0, 16384) st)))).
Proof.
  intros st.
  apply (@readHeader_rejects byteImports byteIfdImports exampleHeaderImports None 5 st
           0 0 0 0 (replicate (Z.to_nat 16380) 0)).
  - reflexivity.
  - reflexivity.
  - lia.
  - lia.
Defined.

(** [hrun] runs the binds of a header computation whose first step is
    known. *)
Ltac hrun :=
  repeat first
    [ rewrite hbind_run
    | rewrite fetchView_run
    | rewrite hlift_run
    | rewrite hmret_run
    | progress cbn [hmodify hget hthrow mret HM_ret negb]
    | progress cbv beta iota ].

(** [hcase] takes the next test of a header computation apart. *)
Ltac hcase :=
  match goal with
  | |- context [fetch ?s ?o ?l] => destruct (fetch s o l) eqn:?
  | |- context [getUint16 ?b ?o ?e] => destruct (getUint16 b o e) eqn:?
  | |- context [imported ?x] => destruct (imported x) eqn:?
  | |- context [bool_decide ?P] => destruct (bool_decide P) eqn:?
  | |- context [andb ?a ?b] => destruct (andb a b) eqn:?
  end.

(** The first part of [readHeader] sends the one request for the header and
    reads no image. *)
Lemma readHeaderStart_frame `{Imports} `{HeaderImports} st r st' :
  readHeaderStart st = (r, st') →
  sameSettings st st' ∧
  sent st' = sent st ++ [(0, readSizeOf st)] ∧
  images (reader st') = images (reader st) ∧
  isInitialized st' = isInitialized st ∧
  (∀ a, r = HOk a → isLittleEndian (reader st') = true ∧ versionRead st st').
Proof.
  unfold readHeaderStart, sameSettings, versionRead, readSizeOf.
  repeat (hrun; try hcase); hrun;
    intros [= <- <-]; cbn; split_and!; try done.
  all: repeat match goal with
       | Hd : bool_decide _ = true |- _ => apply bool_decide_eq_true_1 in Hd
       end.
  all: intros ? _; split; [done|]; (by left) || (by right).
Qed.

(** The loop of [loadGeoTiffTags] keeps the id of the image. *)
Lemma geoKeyLoop_id geoTags (is_ : list nat) s r s' :
  forEach is_ (geoKeyStep geoTags) s = (r, s') → id s' = id s.
Proof.
  revert s. induction is_ as [|i is_ IH]; intros s; [by intros [= <- <-]|].
  cbn [forEach]. rewrite bind_run.
  destruct (geoKeyStep geoTags i s) as [r1 s1] eqn:Hstep.
  assert (Hid : id s1 = id s).
  { revert Hstep. unfold geoKeyStep.
    destruct (geoTags !! (i + 1)%nat) as [[|p|p]|], (geoTags !! i) as [key|];
      try (by intros [= <- <-]); rewrite bind_run; cbn [get];
      by destruct (tags s !! _ ≫= tag_value) as [[]|]; intros [= <- <-]. }
  destruct r1 as [[]|e].
  - intros Hrest. by rewrite (IH _ Hrest).
  - by intros [= <- <-].
Qed.

Lemma loadGeoTiffTags_id `{Imports} tiff img img' (r : Result unit) :
  loadGeoTiffTags tiff img = (r, img') → id img' = id img.
Proof.
  unfold loadGeoTiffTags. rewrite bind_run. cbn [get].
  destruct (isGeoTagsLoaded img); [by intros [= <- <-]|].
  destruct (tags img !! TiffTag.GeoKeyDirectory) as [dirTag|];
    [|by intros [= <- <-]].
  rewrite bind_run.
  set (fetchPhase := match dirTag with TagLazy _ _ None => _ | _ => _ end).
  destruct (fetchPhase img) as [rf s1] eqn:Hf.
  assert (Hframe : sameGeoState img s1 ∧ ∀ e, rf = Err e → e = ExternalError).
  { revert Hf. unfold fetchPhase.
    destruct dirTag as [| |? ? []]; try (by intros [= <- <-]; split).
    apply (andAlso_frame sameGeoState (λ e, e = ExternalError));
      [apply sameGeoState_trans|intros ? ? ?; apply fetchTag_frame|].
    apply (andAlso_frame sameGeoState (λ e, e = ExternalError));
      [apply sameGeoState_trans|intros ? ? ?; apply fetchTag_frame..]. }
  destruct Hframe as [(_ & _ & Hid1) _].
  destruct rf as [[]|e]; [|by intros [= <- <-]].
  rewrite bind_run. cbn [modify]. rewrite bind_run. cbn [get].
  destruct (tags (setGeoTagsLoaded s1) !! TiffTag.GeoKeyDirectory ≫= tag_value)
    as [[n|geoTags|d|str]|]; try (by intros [= <- <-]).
  intros Hrun. by rewrite (geoKeyLoop_id _ _ _ _ _ Hrun).
Qed.

(** [init()] keeps the id of the image, and when it resolves the GeoKeys
    are loaded. *)
Lemma init_true_frame `{Imports} tiff img img' (r : Result unit) :
  init tiff true img = (r, img') →
  id img' = id img ∧ (r = Ok tt → isGeoTagsLoaded img' = true).
Proof.
  unfold init. rewrite bind_run.
  destruct (promiseAll _ img) as [rp s1] eqn:Hp.
  apply (promiseAll_fetch_frame tiff
           [BaselineTag.SamplesPerPixel; BaselineTag.SampleFormat;
            BaselineTag.BitsPerSample; TiffTag.Compression; TiffTag.ImageHeight;
            TiffTag.ImageWidth; TiffTag.ModelPixelScale; TiffTag.ModelTiePoint;
            TiffTag.ModelTransformation; TiffTag.TileHeight; TiffTag.TileWidth;
            TiffTag.GeoKeyDirectory; TiffTag.GeoAsciiParams;
            TiffTag.GeoDoubleParams]) in Hp.
  destruct Hp as [(_ & _ & Hid) _].
  destruct rp as [[]|e]; [|by intros [= <- <-]].
  intros Hrun. split.
  - by rewrite (loadGeoTiffTags_id _ _ _ _ Hrun).
  - intros ->. by apply (loadGeoTiffTags_outcome _ _ _ _ Hrun).
Qed.

(** [readIfd] changes nothing of the reader but [images], to which it
    appends at most one image, with its index as id. *)
Lemma readIfd_frame `{Imports} `{IfdImports} cfg offset view tiff outcome tiff' :
  readIfd cfg offset view tiff = (outcome, tiff') →
  source tiff' = source tiff ∧ options tiff' = options tiff ∧
  isLittleEndian tiff' = isLittleEndian tiff ∧
  (idsAreIndices tiff → idsAreIndices tiff').
Proof.
  assert (Hpush : ∀ img, id img = Z.of_nat (length (images tiff)) →
            idsAreIndices tiff → idsAreIndices (pushImage tiff img)).
  { intros img0 Hid Hids i img. cbn [images pushImage].
    destruct (decide (i < length (images tiff))%nat) as [Hlt|Hge].
    - rewrite lookup_app_l by done. apply Hids.
    - rewrite lookup_app_r by lia.
      destruct (i - length (images tiff))%nat as [|d] eqn:Hd; [|done].
      intros [= <-]. rewrite Hid. f_equal. lia. }
  unfold readIfd.
  destruct (getUint _ _ (cfgOffset cfg) _) as [tagCount|];
    [|by intros [= <- <-]].
  destruct (hasBytes view offset _); cbn [negb]; [|by intros [= <- <-]].
  destruct (readTags _ _ _ _ _ ∅) as [tags1|]; [|by intros [= <- <-]].
  destruct (getUint _ _ (cfgPointer cfg) _) as [next|];
    intros [= <- <-]; (split_and!; [done..|by apply Hpush]).
Qed.

Lemma sameHeader_refl st : sameHeader st st.
Proof. by repeat split. Qed.

Lemma sameHeader_trans st1 st2 st3 :
  sameHeader st1 st2 → sameHeader st2 st3 → sameHeader st1 st3.
Proof.
  unfold sameHeader, sameSettings.
  intros ((? & ? & ?) & ? & ? & ? & ?) ((? & ? & ?) & ? & ? & ? & ?).
  split_and!; try congruence. auto.
Qed.

Lemma readIfdStep_frame `{Imports} `{IfdImports} offset view st r st' :
  readIfdStep offset view st = (r, st') →
  sameHeader st st' ∧ sent st' = sent st ∧ isInitialized st' = isInitialized st.
Proof.
  unfold readIfdStep.
  destruct (readIfd (ifdConfig st) offset view (reader st)) as [outcome tiff'] eqn:Hifd.
  destruct (readIfd_frame _ _ _ _ _ _ Hifd) as (Hs & Ho & Hle & Hids).
  destruct outcome; intros [= <- <-]; by repeat split.
Qed.

(** The loop over the IFDs: what it keeps, and what it sends. *)
Lemma readIfds_frame `{Imports} `{IfdImports} sourceSize rounds bytes next st r st' :
  readIfds sourceSize rounds bytes next st = (r, st') →
  sameHeader st st' ∧ isInitialized st' = isInitialized st ∧
  ∃ later, sent st' = sent st ++ later ∧
           (fixedHeaderSize st ≠ None → later = []) ∧
           Forall (ifdRequest sourceSize st) later.
Proof.
  revert next st. induction rounds as [|rounds IH]; intros next st; cbn [readIfds].
  - destruct (next =? 0); intros [= <- <-];
      (split; [apply sameHeader_refl|]; split; [done|]; exists [];
       by rewrite app_nil_r).
  - destruct (Z.eqb_spec next 0) as [->|Hnext].
    { intros [= <- <-]. split; [apply sameHeader_refl|]. split; [done|].
      exists []. by rewrite app_nil_r. }
    rewrite hbind_run. cbn [hget]. rewrite hbind_run.
    set (viewStep := match fixedHeaderSize st with None => _ | Some _ => _ end).
    destruct (viewStep st) as [rv st1] eqn:Hview.
    assert (Hv : sameHeader st st1 ∧ isInitialized st1 = isInitialized st ∧
              ∃ later, sent st1 = sent st ++ later ∧
                       (fixedHeaderSize st ≠ None → later = []) ∧
                       Forall (ifdRequest sourceSize st) later).
    { revert Hview. unfold viewStep.
      destruct (fixedHeaderSize st) as [n|] eqn:Hfixed.
      - rewrite hmret_run. intros [= <- <-].
        split; [apply sameHeader_refl|]. split; [done|]. exists [].
        by rewrite app_nil_r.
      - destruct (hasBytes bytes next 1024); cbn [negb].
        + rewrite hmret_run. intros [= <- <-].
          split; [apply sameHeader_refl|]. split; [done|]. exists [].
          by rewrite app_nil_r.
        + rewrite fetchView_run. intros [= <- <-].
          split; [by repeat split|]. split; [done|].
          eexists. split; [reflexivity|]. split; [done|].
          by apply Forall_singleton. }
    destruct Hv as (Hsame1 & Hinit1 & later1 & Hsent1 & Hfixed1 & Hall1).
    destruct rv as [lastView|e].
    2:{ intros [= <- <-]. eauto 10. }
    rewrite hbind_run.
    destruct (readIfdStep next lastView st1) as [rn st2] eqn:Hstep.
    destruct (readIfdStep_frame _ _ _ _ _ Hstep) as (Hsame2 & Hsent2 & Hinit2).
    assert (Hsame12 : sameHeader st st2) by (by eapply sameHeader_trans).
    destruct rn as [next'|e].
    2:{ intros [= <- <-]. split; [done|]. split; [congruence|].
        exists later1. by rewrite Hsent2. }
    intros Hrest.
    destruct (IH _ _ Hrest) as (Hsame3 & Hinit3 & later3 & Hsent3 & Hfixed3 & Hall3).
    destruct Hsame12 as [(Hf12 & Hd12 & Hs12) Hrest12].
    split; [eapply sameHeader_trans; [|exact Hsame3]; by split|].
    split; [congruence|].
    exists (later1 ++ later3). split_and!.
    + by rewrite Hsent3, Hsent2, Hsent1, app_assoc.
    + intros Hne. rewrite Hfixed1 by done. rewrite Hfixed3; [done|].
      by rewrite Hf12.
    + apply Forall_app. split; [done|].
      eapply Forall_impl; [exact Hall3|].
      intros q. unfold ifdRequest. by rewrite Hd12.
Qed.

(** The initialisation of the images sends nothing of its own and keeps the
    ids; when it resolves, every image has its GeoKeys loaded. *)
Lemma initImages_frame `{Imports} st r st' :
  initImages st = (r, st') →
  sameHeader st st' ∧ sent st' = sent st ∧ isInitialized st' = isInitialized st ∧
  (r = HOk tt → Forall (λ img, isGeoTagsLoaded img = true) (images (reader st'))).
Proof.
  unfold initImages. rewrite hbind_run. cbn [hget]. rewrite hbind_run.
  cbn [hmodify].
  set (runs := (λ img, init (reader st) true img) <$> images (reader st)).
  assert (Hids : idsAreIndices (reader st) →
            idsAreIndices (setImages (snd <$> runs) (reader st))).
  { intros Hids i img'. cbn [images setImages]. unfold runs.
    rewrite <- list_fmap_compose, list_lookup_fmap.
    destruct (images (reader st) !! i) as [img|] eqn:Hi; [|done].
    cbn [fmap option_fmap option_map compose]. intros [= <-].
    destruct (init (reader st) true img) as [ri img'] eqn:Hinit.
    destruct (init_true_frame _ _ _ _ Hinit) as [Hid _].
    cbn [snd]. rewrite Hid. by apply Hids. }
  assert (Hloaded :
    omap (λ run : Result unit * CogTiffImage,
            match run.1 with Err e => Some e | Ok _ => None end) runs = [] →
    Forall (λ img, isGeoTagsLoaded img = true) (snd <$> runs)).
  { unfold runs. clear Hids runs.
    induction (images (reader st)) as [|img imgs IH]; [constructor|].
    cbn [fmap list_fmap omap list_omap].
    destruct (init (reader st) true img) as [ri img'] eqn:Hinit.
    destruct (init_true_frame _ _ _ _ Hinit) as [_ Hflag].
    cbn [fst snd]. destruct ri as [[]|e]; [|done].
    intros Hrest. constructor; [by apply Hflag|by apply IH]. }
  destruct (omap _ runs) as [|e es].
  - rewrite hmret_run. intros [= <- <-].
    split; [by repeat split|]. split; [done|]. split; [done|].
    intros _. by apply Hloaded.
  - intros [= <- <-]. split; [by repeat split|]. done.
Qed.

(** A loop that ended within its rounds ends the same way within more. *)
Lemma readIfds_more_rounds `{Imports} `{IfdImports} sourceSize rounds rounds'
    bytes next st r st' :
  readIfds sourceSize rounds bytes next st = (r, st') →
  r ≠ HErr Unfinished → (rounds ≤ rounds')%nat →
  readIfds sourceSize rounds' bytes next st = (r, st').
Proof.
  revert rounds' next st. induction rounds as [|rounds IH];
    intros rounds' next st; cbn [readIfds].
  - destruct (next =? 0) eqn:Hnext.
    + intros Hrun _ _. destruct rounds'; cbn [readIfds]; by rewrite Hnext.
    + by intros [= <- <-].
  - destruct (next =? 0) eqn:Hnext.
    { intros Hrun _ _. destruct rounds'; cbn [readIfds]; by rewrite Hnext. }
    intros Hrun Hr Hle. destruct rounds' as [|rounds']; [lia|].
    cbn [readIfds]. rewrite Hnext. revert Hrun.
    rewrite !hbind_run. cbn [hget]. rewrite !hbind_run.
    set (viewStep := match fixedHeaderSize st with None => _ | Some _ => _ end).
    destruct (viewStep st) as [[lastView|e] st1]; [|done].
    rewrite !hbind_run.
    destruct (readIfdStep next lastView st1) as [[next'|e] st2]; [|done].
    intros Hrun. apply IH; [done|done|lia].
Qed.

(** X24. The requests of [readHeader]. An initialised reader sends nothing.
    Otherwise the first request is for the header, at offset 0, of the fixed
    header size when there is one and of the default read size when not.
    With a fixed header size that is the only request. Every later request
    is at the offset of an IFD, which is not 0, for the length
    [getMaxLength] gives: it does not go past the end of a source whose size
    is known and is at most the default read size. *)
Theorem readHeader_requests `{Imports} `{IfdImports} `{HeaderImports}
    (sourceSize : option Z) (rounds : nat) (st : HeaderState) :
  ∃ later,
    sent (readHeader sourceSize rounds st).2 =
      sent st ++ (if isInitialized st then [] else (0, readSizeOf st) :: later) ∧
    (fixedHeaderSize st ≠ None → later = []) ∧
    Forall (λ q, q.1 ≠ 0 ∧
                 q.2 = getMaxLength sourceSize q.1 (defaultReadSize st) ∧
                 q.2 ≤ defaultReadSize st ∧
                 (∀ size, sourceSize = Some size → q.1 + q.2 ≤ size)) later.
Proof.
  assert (Hlen : ∀ later, Forall (ifdRequest sourceSize st) later →
    Forall (λ q, q.1 ≠ 0 ∧
                 q.2 = getMaxLength sourceSize q.1 (defaultReadSize st) ∧
                 q.2 ≤ defaultReadSize st ∧
                 (∀ size, sourceSize = Some size → q.1 + q.2 ≤ size)) later).
  { intros later Hall. eapply Forall_impl; [exact Hall|].
    intros [o l] [Ho Hl]. cbn [fst snd] in *.
    split; [done|]. split; [done|]. subst l. unfold getMaxLength.
    destruct sourceSize as [size|]; [|by split].
    destruct (Z.gtb_spec (o + defaultReadSize st) size);
      (split; [lia|]); intros size' [= <-]; lia. }
  unfold readHeader. rewrite hbind_run. cbn [hget].
  destruct (isInitialized st) eqn:Hinit.
  { exists []. rewrite hmret_run. cbn [snd]. by rewrite app_nil_r. }
  rewrite hbind_run.
  destruct (readHeaderStart st) as [r1 st1] eqn:Hstart.
  destruct (readHeaderStart_frame _ _ _ Hstart)
    as ((Hf1 & Hd1 & _) & Hsent1 & _).
  destruct r1 as [[bytes next]|e].
  2:{ exists []. cbn [snd]. by rewrite Hsent1. }
  rewrite hbind_run.
  destruct (readIfds sourceSize rounds bytes next st1) as [r2 st2] eqn:Hloop.
  destruct (readIfds_frame _ _ _ _ _ _ _ Hloop)
    as (_ & _ & later & Hsent2 & Hfixed2 & Hall2).
  assert (Hlater : Forall (ifdRequest sourceSize st) later).
  { eapply Forall_impl; [exact Hall2|]. intros q. unfold ifdRequest.
    by rewrite Hd1. }
  exists later. split_and!; [|by rewrite <- Hf1|by apply Hlen].
  destruct r2 as [[]|e].
  2:{ cbn [snd]. by rewrite Hsent2, Hsent1, <- app_assoc. }
  rewrite hbind_run.
  destruct (initImages st2) as [r3 st3] eqn:Himgs.
  destruct (initImages_frame _ _ _ Himgs) as (_ & Hsent3 & _).
  destruct r3 as [[]|e]; cbn [snd hmodify setIsInitialized sent];
    by rewrite Hsent3, Hsent2, Hsent1, <- app_assoc.
Qed.

(** X25. When [readHeader] returns on a new reader, the reader is
    initialised and little endian, its version is 42 with the IFD widths it
    had or 43 with those of BigTIFF, every image carries its index as id,
    and every image has its GeoKeys loaded; and the call returns the same
    within any larger number of rounds. *)
Theorem readHeader_initialized `{Imports} `{IfdImports} `{HeaderImports}
    (sourceSize : option Z) (rounds : nat) (st st' : HeaderState) :
  isInitialized st = false →
  images (reader st) = [] →
  readHeader sourceSize rounds st = (HOk tt, st') →
  isInitialized st' = true ∧
  isLittleEndian (reader st') = true ∧
  versionRead st st' ∧
  idsAreIndices (reader st') ∧
  Forall (λ img, isGeoTagsLoaded img = true) (images (reader st')) ∧
  (∀ rounds', (rounds ≤ rounds')%nat →
              readHeader sourceSize rounds' st = (HOk tt, st')).
Proof.
  intros Hinit Himages Hrun.
  assert (Hmore : ∀ rounds', (rounds ≤ rounds')%nat →
            readHeader sourceSize rounds' st = (HOk tt, st')).
  { intros rounds' Hle. revert Hrun. unfold readHeader.
    rewrite !hbind_run. cbn [hget]. rewrite Hinit, !hbind_run.
    destruct (readHeaderStart st) as [[[bytes next]|e] st1]; [|done].
    rewrite !hbind_run.
    destruct (readIfds sourceSize rounds bytes next st1) as [r2 st2] eqn:Hloop.
    destruct r2 as [[]|e]; [|done].
    by rewrite (readIfds_more_rounds _ _ rounds' _ _ _ _ _ Hloop). }
  revert Hrun.
  unfold readHeader. rewrite hbind_run. cbn [hget]. rewrite Hinit, hbind_run.
  destruct (readHeaderStart st) as [r1 st1] eqn:Hstart.
  destruct (readHeaderStart_frame _ _ _ Hstart)
    as (_ & _ & Himages1 & _ & Hok1).
  destruct r1 as [[bytes next]|e]; [|done].
  destruct (Hok1 _ eq_refl) as [Hle1 Hversion1].
  rewrite hbind_run.
  destruct (readIfds sourceSize rounds bytes next st1) as [r2 st2] eqn:Hloop.
  destruct (readIfds_frame _ _ _ _ _ _ _ Hloop)
    as ((_ & Hv2 & Hc2 & Hle2 & Hids2) & _).
  destruct r2 as [[]|e]; [|done].
  rewrite hbind_run.
  destruct (initImages st2) as [r3 st3] eqn:Himgs.
  destruct (initImages_frame _ _ _ Himgs)
    as ((_ & Hv3 & Hc3 & Hle3 & Hids3) & _ & _ & Hloaded).
  destruct r3 as [[]|e]; [|done].
  cbn [hmodify]. intros [= <-]. cbn. split_and!.
  - done.
  - congruence.
  - unfold versionRead in *. cbn [version ifdConfig setIsInitialized].
    rewrite Hv3, Hv2, Hc3, Hc2. exact Hversion1.
  - apply Hids3, Hids2. intros i img. by rewrite Himages1, Himages, lookup_nil.
  - by apply Hloaded.
  - done.
Qed.

Lemma readHeader_initialized_witness :
  let st := newCogTiff (bytesSource tinyTiffBytes) None None in
  let st' := (@readHeader byteImports byteIfdImports exampleHeaderImports None 5 st).2 in
  isInitialized st' = true ∧
  isLittleEndian (reader st') = true ∧
  versionRead st st' ∧
  idsAreIndices (reader st') ∧
  Forall (λ img, isGeoTagsLoaded img = true) (images (reader st')) ∧
  (∀ rounds', (5 ≤ rounds')%nat →
     @readHeader byteImports byteIfdImports exampleHeaderImports None rounds' st
       = (HOk tt, st')).
Proof.
  intros st st'.
  apply (@readHeader_initialized byteImports byteIfdImports exampleHeaderImports
           None 5 st st').
  - reflexivity.
  - reflexivity.
  - vm_compute. reflexivity.
Defined.

(** An IFD that was read has added one image. *)
Lemma readIfd_next_length `{Imports} `{IfdImports} cfg offset view tiff next tiff' :
  readIfd cfg offset view tiff = (IfdNext next, tiff') →
  length (images tiff') = S (length (images tiff)).
Proof.
  unfold readIfd.
  destruct (getUint _ _ (cfgOffset cfg) _) as [tagCount|]; [|done].
  destruct (hasBytes view offset _); cbn [negb]; [|done].
  destruct (readTags _ _ _ _ _ ∅) as [tags1|]; [|done].
  destruct (getUint _ _ (cfgPointer cfg) _) as [next'|]; [|done].
  intros [= _ <-]. cbn [images pushImage]. rewrite length_app. cbn. lia.
Qed.

(** X26. [readHeader] follows a cycle of IFDs without end. When the IFD at
    an offset other than 0 can be read from the header view and names
    itself as the next IFD, whatever images the reader holds, then after any
    number of rounds the loop is still running: it has appended one image
    for each round and has sent no request. *)
Theorem readIfds_cycle `{Imports} `{IfdImports} (sourceSize : option Z)
    (bytes : DataViewOffset) (next : Z) (st : HeaderState) :
  next ≠ 0 →
  fixedHeaderSize st ≠ None ∨ hasBytes bytes next 1024 = true →
  (∀ tiff, source tiff = source (reader st) →
           isLittleEndian tiff = isLittleEndian (reader st) →
           (readIfd (ifdConfig st) next bytes tiff).1 = IfdNext next) →
  ∀ rounds, ∃ st',
    readIfds sourceSize rounds bytes next st = (HErr Unfinished, st') ∧
    length (images (reader st')) = (length (images (reader st)) + rounds)%nat ∧
    sent st' = sent st.
Proof.
  intros Hnext Hview Hself rounds. revert st Hview Hself.
  induction rounds as [|rounds IH]; intros st Hview Hself; cbn [readIfds];
    destruct (Z.eqb_spec next 0) as [|_]; try done.
  - exists st. split; [done|]. split; [lia|done].
  - rewrite hbind_run. cbn [hget]. rewrite hbind_run.
    set (viewStep := match fixedHeaderSize st with None => _ | Some _ => _ end).
    assert (Hstep : viewStep st = (HOk bytes, st)).
    { unfold viewStep. destruct (fixedHeaderSize st) as [n|]; [done|].
      destruct Hview as [|Hhas]; [done|]. by rewrite Hhas. }
    rewrite Hstep, hbind_run. unfold readIfdStep at 1.
    specialize (Hself (reader st) eq_refl eq_refl) as Hfirst.
    destruct (readIfd (ifdConfig st) next bytes (reader st))
      as [outcome tiff'] eqn:Hifd.
    cbn [fst] in Hfirst. subst outcome.
    destruct (readIfd_frame _ _ _ _ _ _ Hifd) as (Hsource & _ & Hle & _).
    pose proof (readIfd_next_length _ _ _ _ _ _ Hifd) as Hlen.
    destruct (IH (setReader (λ _, tiff') st)) as (st' & Hrun & Himages & Hsent).
    + exact Hview.
    + intros tiff Hs He. apply Hself; cbn in Hs, He; congruence.
    + exists st'. split; [exact Hrun|]. cbn in Himages, Hsent.
      split; [lia|done].
Qed.

Lemma readIfds_cycle_witness :
  let st := newCogTiff (bytesSource cyclicTiffBytes) None None in
  ∃ st',
    @readIfds byteImports byteIfdImports None 1000
      {| viewBytes := cyclicTiffBytes; sourceOffset := 0 |} 8 st
      = (HErr Unfinished, st') ∧
    length (images (reader st')) = (length (images (reader st)) + 1000)%nat ∧
    sent st' = sent st.
Proof.
  intros st.
  refine (@readIfds_cycle byteImports byteIfdImports None
            {| viewBytes := cyclicTiffBytes; sourceOffset := 0 |} 8 st _ _ _ 1000).
  - lia.
  - right. reflexivity.
  - intros tiff _ _. reflexivity.
Defined.
